(** * notemarks: path codec, tree merge and commit, entry reconciliation

    A shallow embedding of the reconciliation and diff engine of notemarks.
    - [PathUtils]: the title <-> filename codec, from the path_utils part of
      src/app/components/HelperComponents.tsx.
    - [Octokit]: [applyOps] and [commit], from src/app/octokit.tsx.
    - [EntryUtils]: canonical ordering and link reconciliation, from the
      entry_utils part of src/app/views/NoteEditor.tsx.
    - [Extraction]: file entry extraction, from the same part, and
      [loadEntries], from src/app/octokit.tsx.

    JavaScript strings are sequences of UTF-16 code units.  The path codec
    inspects single code units and is modelled over [list N]; the other
    modules compare strings for equality and use them as keys, and are
    modelled over [string]. *)

From Stdlib Require Import ZArith NArith Lia Ascii String OrderedTypeEx.
From stdpp Require Import gmap strings list fin_maps sorting.

Local Open Scope Z_scope.

(* ===================================================================== *)
(** * Path codec *)
(* ===================================================================== *)

Module PathUtils.

(** A JavaScript string: its UTF-16 code units. *)
Definition jsstring := list N.

Definition SOLIDUS : N := 0x2F%N.               (* "/"  U+002F *)
Definition FULL_STOP : N := 0x2E%N.             (* "."  U+002E *)
Definition BIG_SOLIDUS : N := 0x29F8%N.         (* U+29F8 *)
Definition BIG_REVERSE_SOLIDUS : N := 0x29F9%N. (* U+29F9 *)

(** [s.replace(/c/gu, by)] for a single BMP code point [c]: every code unit
    equal to [c] is replaced (a BMP code point is never half of a surrogate
    pair), and the replacement strings used here contain no [$] pattern. *)
Definition replaceAll (c : N) (by_ : jsstring) (s : jsstring) : jsstring :=
  flat_map (fun x => if N.eqb x c then by_ else [x]) s.

(** The loop of [unescapeTitle]: [escaped] and [result] are its two
    variables, the list is the part of [s] still to be read. *)
Fixpoint unescapeTitle_loop (s : jsstring) (escaped : bool) (result : jsstring)
  : jsstring :=
  match s with
  | [] => result
  | char :: rest =>
      if escaped then unescapeTitle_loop rest false (result ++ [char])
      else if N.eqb char BIG_REVERSE_SOLIDUS then unescapeTitle_loop rest true result
      else if N.eqb char BIG_SOLIDUS then unescapeTitle_loop rest false (result ++ [SOLIDUS])
      else unescapeTitle_loop rest false (result ++ [char])
  end.

Definition unescapeTitle (s : jsstring) : jsstring :=
  unescapeTitle_loop s false [].

Definition escapeTitle (s : jsstring) : jsstring :=
  replaceAll SOLIDUS [BIG_SOLIDUS]
    (replaceAll BIG_SOLIDUS [BIG_REVERSE_SOLIDUS; BIG_SOLIDUS]
       (replaceAll BIG_REVERSE_SOLIDUS [BIG_REVERSE_SOLIDUS; BIG_REVERSE_SOLIDUS] s)).

(** [s.lastIndexOf(c)] for a one-unit search string: -1 when absent. *)
Fixpoint lastIndexOf_from (c : N) (s : jsstring) (i found : Z) : Z :=
  match s with
  | [] => found
  | x :: rest => lastIndexOf_from c rest (i + 1) (if N.eqb x c then i else found)
  end.

Definition lastIndexOf (c : N) (s : jsstring) : Z := lastIndexOf_from c s 0 (-1).

(** [s.substring(a, b)]: both indices are clamped to [0, length] and
    swapped when out of order. *)
Definition substring (s : jsstring) (a b : Z) : jsstring :=
  let len := Z.of_nat (length s) in
  let a' := Z.max 0 (Z.min a len) in
  let b' := Z.max 0 (Z.min b len) in
  let lo := Z.min a' b' in
  let hi := Z.max a' b' in
  take (Z.to_nat (hi - lo)) (drop (Z.to_nat lo) s).

Definition filenameToTitle (filename : jsstring) : jsstring :=
  let idxLastDot := lastIndexOf FULL_STOP filename in
  if Z.eqb idxLastDot (-1) then unescapeTitle filename
  else unescapeTitle (substring filename 0 idxLastDot).

(** [extension?: string]: [None] is the absent argument. *)
Definition titleToFilename (title : jsstring) (extension : option jsstring) : jsstring :=
  let titleEscaped := escapeTitle title in
  match extension with
  | Some ext =>
      if Z.ltb 0 (Z.of_nat (length ext)) then titleEscaped ++ [FULL_STOP] ++ ext
      else titleEscaped
  | None => titleEscaped
  end.

(** [s.lastIndexOf("/")], [path.substring]: split at the last separator. *)
Definition splitLocationAndFilename (path : jsstring) : jsstring * jsstring :=
  let idxLastSlash := lastIndexOf SOLIDUS path in
  if Z.eqb idxLastSlash (-1) then ([], path)
  else (substring path 0 idxLastSlash,
        substring path (idxLastSlash + 1) (Z.of_nat (length path))).

(** Does the string contain a full stop? *)
Definition has_dot (s : jsstring) : bool := existsb (N.eqb FULL_STOP) s.

(** The inputs on which the filename still ends in the extension that
    [filenameToTitle] strips: a non-empty extension without a full stop, or
    no extension and a title without a full stop. *)
Definition roundtrip_safe (t : jsstring) (ext : option jsstring) : bool :=
  match ext with
  | Some (c :: e) => negb (has_dot (c :: e))
  | _ => negb (has_dot t)
  end.

(** Escaping, one code unit at a time: what the three replacements of
    [escapeTitle] do to a single unit. *)
Definition escapeUnit (x : N) : jsstring :=
  if N.eqb x BIG_REVERSE_SOLIDUS then [BIG_REVERSE_SOLIDUS; BIG_REVERSE_SOLIDUS]
  else if N.eqb x BIG_SOLIDUS then [BIG_REVERSE_SOLIDUS; BIG_SOLIDUS]
  else if N.eqb x SOLIDUS then [BIG_SOLIDUS]
  else [x].

End PathUtils.

(* ===================================================================== *)
(** * Shared types: repo.ts, types.ts, git_ops.ts *)
(* ===================================================================== *)

(** neverthrow's [Result<T, E>]. *)
Module Neverthrow.

Inductive Result (T E : Type) : Type :=
| Ok (value : T)
| Err (error : E).

Arguments Ok {T E} value.
Arguments Err {T E} error.

Definition isOk {T E} (r : Result T E) : bool :=
  match r with Ok _ => true | Err _ => false end.

End Neverthrow.

Module Repos.

(** Modelled from the spec: the [Repo] type of repo.ts, which is not under
    src/.  The spec: "identifies one remote repository (owner, name, access
    credential, branch)" with "a derived stable identity key".  The code
    under src/ reads [userName], [repoName], [token] and [key]. *)
Record Repo := {
  userName : string;
  repoName : string;
  token : string;
  branch : string;
  key : string;
}.

#[export] Instance Repo_eq_dec : EqDecision Repo.
Proof. solve_decision. Defined.

(** [getRepoId] of repo.ts is not under src/: the code only compares its
    results with [===]. *)
Class RepoId := { getRepoId : Repo -> string }.

End Repos.

Module GitOps.

(** Modelled from the spec: the [GitOp] union of git_ops.ts, which is not
    under src/: "tagged union of write(path, content), delete(path),
    move(pathFrom, pathTo)".  [applyOps] tells a move from the other two by
    [op.kind] and reads [op.path], [op.content], [op.pathFrom], [op.pathTo]. *)
Inductive GitOp :=
| Write (path content : string)
| Remove (path : string)
| Move (pathFrom pathTo : string).

#[export] Instance GitOp_eq_dec : EqDecision GitOp.
Proof. solve_decision. Defined.

End GitOps.

(* ===================================================================== *)
(** * octokit.tsx: tree merge and commit sequencing *)
(* ===================================================================== *)

Module Octokit.
Import Neverthrow Repos GitOps.

(** [WrappedError]: the message of the failed step and the error the remote
    call was rejected with. *)
Record WrappedError := {
  msg : string;
  originalError : option string;
}.

(** An entry of [GitGetTreeResponseData.tree], with the fields [applyOps]
    reads. *)
Record GitTreeEntry := {
  path : string;
  mode : string;
  type : string;
  sha : string;
}.

Record GitGetTreeResponseData := {
  tree_sha : string;
  tree : list GitTreeEntry;
  truncated : bool;
}.

(** [GitCreateTreeParamsTree]: every field is optional in the source; the
    two object literals of [applyOps] always give path, mode and type. *)
Record GitCreateTreeParamsTree := {
  new_path : string;
  new_mode : string;
  new_type : string;
  new_sha : option string;
  new_content : option string;
}.

#[export] Instance GitCreateTreeParamsTree_eq_dec : EqDecision GitCreateTreeParamsTree.
Proof. solve_decision. Defined.

(** ** applyOps *)

(** The inner [for (let op of ops)] of [applyOps] for one old entry: the
    result is the pair of [keep] and [destinationPath] when the loop ends,
    by exhaustion or by [break]. *)
Fixpoint scanOps (ops : list GitOp) (entryPath destinationPath : string)
  : bool * string :=
  match ops with
  | [] => (true, destinationPath)
  | Move pathFrom pathTo :: rest =>
      if String.eqb pathFrom entryPath then scanOps rest entryPath pathTo
      else scanOps rest entryPath destinationPath
  | Write p _ :: rest | Remove p :: rest =>
      if String.eqb p entryPath then (false, destinationPath)
      else scanOps rest entryPath destinationPath
  end.

(** The body of the outer loop: [newTree] after the old entry [entry]. *)
Definition mergeEntry (ops : list GitOp) (newTree : list GitCreateTreeParamsTree)
  (entry : GitTreeEntry) : list GitCreateTreeParamsTree :=
  let '(keep, destinationPath) := scanOps ops (path entry) (path entry) in
  let keep := if String.eqb (type entry) "tree" then false else keep in
  if keep then
    newTree ++ [{| new_path := destinationPath;
                   new_mode := mode entry;
                   new_type := type entry;
                   new_sha := Some (sha entry);
                   new_content := None |}]
  else newTree.

(** The body of the second loop: [newTree] after the op [op]. *)
Definition mergeWrite (newTree : list GitCreateTreeParamsTree) (op : GitOp)
  : list GitCreateTreeParamsTree :=
  match op with
  | Write p c =>
      newTree ++ [{| new_path := p;
                     new_mode := "100644";
                     new_type := "blob";
                     new_sha := None;
                     new_content := Some c |}]
  | _ => newTree
  end.

Definition applyOps (ops : list GitOp) (oldTree : GitGetTreeResponseData)
  : list GitCreateTreeParamsTree :=
  let newTree := foldl (mergeEntry ops) [] (tree oldTree) in
  foldl mergeWrite newTree ops.

(** The first loop alone, and the blob the second loop appends for an op. *)
Definition keptEntries (ops : list GitOp) (oldEntries : list GitTreeEntry)
  : list GitCreateTreeParamsTree :=
  foldl (mergeEntry ops) [] oldEntries.

Definition writeBlob (op : GitOp) : option GitCreateTreeParamsTree :=
  match op with
  | Write p c =>
      Some {| new_path := p; new_mode := "100644"; new_type := "blob";
              new_sha := None; new_content := Some c |}
  | _ => None
  end.

(** An old entry as it is pushed when kept under the path [destinationPath]. *)
Definition keptAs (destinationPath : string) (entry : GitTreeEntry)
  : GitCreateTreeParamsTree :=
  {| new_path := destinationPath; new_mode := mode entry; new_type := type entry;
     new_sha := Some (sha entry); new_content := None |}.

(** [op] is a write or a delete of the path [p]. *)
Definition targets (p : string) (op : GitOp) : bool :=
  match op with
  | Write q _ | Remove q => String.eqb q p
  | Move _ _ => false
  end.

(** [op] is a move whose source is the path [p]. *)
Definition movesFrom (p : string) (op : GitOp) : bool :=
  match op with
  | Move pathFrom _ => String.eqb pathFrom p
  | _ => false
  end.

(** The target of [op] when it is a move whose source is the path [p]. *)
Definition moveTarget (p : string) (op : GitOp) : option string :=
  match op with
  | Move pathFrom pathTo => if String.eqb pathFrom p then Some pathTo else None
  | _ => None
  end.

(** The rule of the merge for the path of a kept entry, read without the
    loop: the target of the last move op whose source is the path, and the
    path itself when no move op has it as its source. *)
Definition destinationOf (ops : list GitOp) (p : string) : string :=
  default p (last (omap (moveTarget p) ops)).

(** The rule of the merge for one old entry, read without the loop: nothing
    for a directory node and for an entry whose path a write or delete op
    names, and otherwise one entry, under the destination of its path. *)
Definition keptOnce (ops : list GitOp) (entry : GitTreeEntry)
  : list GitCreateTreeParamsTree :=
  if String.eqb (type entry) "tree" || existsb (targets (path entry)) ops then []
  else [keptAs (destinationOf ops (path entry)) entry].

(** ** The remote and the [ResultAsync] chain *)

(** A request sent through the Octokit client.  The client is created with
    [repo.token]; the credential goes with every request and is not
    recorded. *)
Inductive Request :=
| GetRef (owner repo ref : string)
| GetCommit (owner repo commit_sha : string)
| GetTree (owner repo tree_sha recursive : string)
| CreateTree (owner repo : string) (tree : list GitCreateTreeParamsTree)
| CreateCommit (owner repo message : string) (parents : list string) (tree : string)
| UpdateRef (owner repo ref sha : string) (force : bool).

(** The remote store: what it answers to a request, given the requests it
    has received before.  [Err e] is a rejected promise.  The answers carry
    the fields [commit] reads: [data.object.sha] of a ref, [data.tree.sha] of
    a commit, the tree data, and [data.sha] of a created tree or commit. *)
Record Remote := {
  gitGetRef : list Request -> Request -> Result string string;
  gitGetCommit : list Request -> Request -> Result string string;
  gitGetTree : list Request -> Request -> Result GitGetTreeResponseData string;
  gitCreateTree : list Request -> Request -> Result string string;
  gitCreateCommit : list Request -> Request -> Result string string;
  gitUpdateRef : list Request -> Request -> Result unit string;
}.

(** [ResultAsync<T, WrappedError>] over a remote: a computation that sends
    requests one after the other (the state is the list of requests sent so
    far) and ends in a value or an error. *)
Definition ResultAsync (T : Type) : Type :=
  list Request -> list Request * Result T WrappedError.

Definition okAsync {T} (value : T) : ResultAsync T :=
  fun sent => (sent, Ok value).

Definition errAsync {T} (error : WrappedError) : ResultAsync T :=
  fun sent => (sent, Err error).

(** [.andThen]: the callback runs only on a value; an error skips it. *)
Definition andThen {T U} (m : ResultAsync T) (f : T -> ResultAsync U) : ResultAsync U :=
  fun sent =>
    match m sent with
    | (sent', Ok value) => f value sent'
    | (sent', Err error) => (sent', Err error)
    end.

(** [.map] *)
Definition mapAsync {T U} (m : ResultAsync T) (f : T -> U) : ResultAsync U :=
  fun sent =>
    match m sent with
    | (sent', Ok value) => (sent', Ok (f value))
    | (sent', Err error) => (sent', Err error)
    end.

#[export] Instance ResultAsync_bind : MBind ResultAsync :=
  fun T U f m => andThen m f.

(** [wrapPromise(promise, msg)] around one request: the request is sent, and
    a rejection is wrapped with the message. *)
Definition wrapPromise {T} (answer : list Request -> Request -> Result T string)
  (request : Request) (message : string) : ResultAsync T :=
  fun sent =>
    (sent ++ [request],
     match answer sent request with
     | Ok value => Ok value
     | Err error => Err {| msg := message; originalError := Some error |}
     end).

Definition startChain : ResultAsync unit := okAsync tt.

Section Commit.
Context (remote : Remote).

(** The [ref] argument is not used: the request names "heads/main". *)
Definition octokitGetRef (repo : Repo) (ref : string) : ResultAsync string :=
  wrapPromise (gitGetRef remote)
    (GetRef (userName repo) (repoName repo) "heads/main")
    "Failed to get head ref.".

Definition octokitGetCommit (repo : Repo) (commitSHA : string) : ResultAsync string :=
  wrapPromise (gitGetCommit remote)
    (GetCommit (userName repo) (repoName repo) commitSHA)
    "Failed to get head commit.".

Definition octokitGetTree (repo : Repo) (treeSHA : string)
  : ResultAsync GitGetTreeResponseData :=
  wrapPromise (gitGetTree remote)
    (GetTree (userName repo) (repoName repo) treeSHA "true")
    ("Failed to get tree with sha " +:+ treeSHA +:+ ".").

Definition octokitCreateTree (repo : Repo) (newTree : list GitCreateTreeParamsTree)
  : ResultAsync string :=
  wrapPromise (gitCreateTree remote)
    (CreateTree (userName repo) (repoName repo) newTree)
    "Failed to create tree.".

Definition octokitCreateCommit (repo : Repo) (commitMsg oldCommitSHA newTreeSHA : string)
  : ResultAsync string :=
  wrapPromise (gitCreateCommit remote)
    (CreateCommit (userName repo) (repoName repo) commitMsg [oldCommitSHA] newTreeSHA)
    "Failed to create commit.".

Definition octokitUpdateRef (repo : Repo) (ref commitSHA : string) : ResultAsync unit :=
  wrapPromise (gitUpdateRef remote)
    (UpdateRef (userName repo) (repoName repo) ref commitSHA true)
    "Failed to update ref.".

(** [commit]: the variables [oldCommitSHA] and [newCommitSHA], assigned in one
    callback of the chain and read in a later one, are bound by the callbacks
    that enclose their readers. *)
Definition commit (repo : Repo) (ops : list GitOp) (commitMsg : string)
  : ResultAsync string :=
  _ ← startChain;
  oldCommitSHA ← octokitGetRef repo "heads/main";
  oldTreeSHA ← octokitGetCommit repo oldCommitSHA;
  oldTree ← octokitGetTree repo oldTreeSHA;
  newTreeSHA ←
    (if truncated oldTree then
       errAsync
         {| msg := "Tree has been truncated -- handling that many files is not supported yet.";
            originalError := None |}
     else
       let newTree := applyOps ops oldTree in
       octokitCreateTree repo newTree);
  newCommitSHA ← octokitCreateCommit repo commitMsg oldCommitSHA newTreeSHA;
  mapAsync (octokitUpdateRef repo "heads/main" newCommitSHA) (fun _ => newCommitSHA).

End Commit.

(** The requests of a commit, in the order of the chain. *)
Definition reqGetRef (repo : Repo) : Request :=
  GetRef (userName repo) (repoName repo) "heads/main".

Definition reqGetCommit (repo : Repo) (oldCommitSHA : string) : Request :=
  GetCommit (userName repo) (repoName repo) oldCommitSHA.

Definition reqGetTree (repo : Repo) (oldTreeSHA : string) : Request :=
  GetTree (userName repo) (repoName repo) oldTreeSHA "true".

Definition reqCreateTree (repo : Repo) (ops : list GitOp) (oldTree : GitGetTreeResponseData)
  : Request :=
  CreateTree (userName repo) (repoName repo) (applyOps ops oldTree).

Definition reqCreateCommit (repo : Repo) (commitMsg oldCommitSHA newTreeSHA : string)
  : Request :=
  CreateCommit (userName repo) (repoName repo) commitMsg [oldCommitSHA] newTreeSHA.

Definition reqUpdateRef (repo : Repo) (newCommitSHA : string) : Request :=
  UpdateRef (userName repo) (repoName repo) "heads/main" newCommitSHA true.

(** The same repository on another configured branch. *)
Definition withBranch (b : string) (repo : Repo) : Repo :=
  {| userName := userName repo; repoName := repoName repo; token := token repo;
     branch := b; key := key repo |}.

(** What is asked of a ref request: it names "heads/main", and an update is
    forced. *)
Definition refsAreHeadsMain (request : Request) : Prop :=
  match request with
  | GetRef _ _ ref => ref = "heads/main"
  | UpdateRef _ _ ref _ force => ref = "heads/main" /\ force = true
  | _ => True
  end.

(** A remote that accepts every request; its tree has a directory node and
    a file, and is complete or truncated as [isTruncated] says. *)
Definition acceptingRemote (isTruncated : bool) : Remote :=
  {| gitGetRef := fun _ _ => Ok "c0";
     gitGetCommit := fun _ _ => Ok "t0";
     gitGetTree := fun _ _ =>
       Ok {| tree_sha := "t0";
             tree := [ {| path := "docs"; mode := "040000"; type := "tree"; sha := "d0" |};
                       {| path := "docs/a.md"; mode := "100644"; type := "blob"; sha := "b0" |} ];
             truncated := isTruncated |};
     gitCreateTree := fun _ _ => Ok "t1";
     gitCreateCommit := fun _ _ => Ok "c1";
     gitUpdateRef := fun _ _ => Ok tt |}.

Definition exampleRepo : Repo :=
  {| userName := "user"; repoName := "notes"; token := "secret";
     branch := "develop"; key := "user/notes" |}.

(** Requests that write to the remote. *)
Definition isWrite (request : Request) : bool :=
  match request with
  | CreateTree _ _ _ | CreateCommit _ _ _ _ _ | UpdateRef _ _ _ _ _ => true
  | _ => false
  end.

End Octokit.

(* ===================================================================== *)
(** * types.ts: entries *)
(* ===================================================================== *)

Module Types.
Import Repos.

(** Modelled from the spec: the entry types of types.ts, which is not under
    src/.  The spec: an Entry has a "title, numeric priority, label set, a
    Content variant, a derived stable key and a derived idx"; the content is
    the "tagged union" of Note, Document and Link.  The field names are the
    ones entry_utils.ts reads and writes. *)
Inductive EntryKind := NoteMarkdown | Document | Link.

#[export] Instance EntryKind_eq_dec : EqDecision EntryKind.
Proof. solve_decision. Defined.

Definition RawLabel := string.

(** A [Date], as its time value. *)
Definition Date := Z.

(** The fields [ContentNote] and [ContentDoc] have in common. *)
Record FileInfo := {
  repo : Repo;
  location : string;
  extension : string;
  timeCreated : Date;
  timeUpdated : Date;
  rawUrl : string;
}.

(** The fields only a [ContentNote] has. *)
Record NoteText := {
  text : string;
  html : string;
  links : list string;
}.

Inductive ContentFile :=
| ContentNote (info : FileInfo) (note : NoteText)
| ContentDoc (info : FileInfo).

(** [Entry], by the type of its content. *)
Record EntryOf (C : Type) := {
  title : string;
  priority : Z;
  labels : list RawLabel;
  content : C;
  key : option string;
  idx : option nat;
}.

Arguments title {C} _.
Arguments priority {C} _.
Arguments labels {C} _.
Arguments content {C} _.
Arguments key {C} _.
Arguments idx {C} _.

Abbreviation EntryFile := (EntryOf ContentFile).

(** [referencedBy] holds the referencing entries as they are when they are
    pushed. *)
Record ContentLink := {
  target : string;
  referencedBy : list EntryFile;
  standaloneRepo : option Repo;
  refRepos : list Repo;
  refLocations : list string;
  ownLabels : list RawLabel;
}.

Abbreviation EntryLink := (EntryOf ContentLink).

Inductive Content :=
| FileContent (c : ContentFile)
| LinkContent (c : ContentLink).

Abbreviation Entry := (EntryOf Content).
Abbreviation Entries := (list (EntryOf Content)).

#[export] Instance FileInfo_eq_dec : EqDecision FileInfo.
Proof. solve_decision. Defined.
#[export] Instance NoteText_eq_dec : EqDecision NoteText.
Proof. solve_decision. Defined.
#[export] Instance ContentFile_eq_dec : EqDecision ContentFile.
Proof. solve_decision. Defined.
#[export] Instance EntryOf_eq_dec {C} `{EqDecision C} : EqDecision (EntryOf C).
Proof. solve_decision. Defined.
#[export] Instance ContentLink_eq_dec : EqDecision ContentLink.
Proof. solve_decision. Defined.
#[export] Instance Content_eq_dec : EqDecision Content.
Proof. solve_decision. Defined.

(** [content.kind] *)
Definition kindOfFile (c : ContentFile) : EntryKind :=
  match c with
  | ContentNote _ _ => NoteMarkdown
  | ContentDoc _ => Document
  end.

Definition kind (c : Content) : EntryKind :=
  match c with
  | FileContent c => kindOfFile c
  | LinkContent _ => Link
  end.

Definition fileInfo (c : ContentFile) : FileInfo :=
  match c with
  | ContentNote info _ => info
  | ContentDoc info => info
  end.

(** An [EntryFile] or [EntryLink] where an [Entry] is expected. *)
Definition mapContent {C D} (f : C -> D) (entry : EntryOf C) : EntryOf D :=
  {| title := title entry; priority := priority entry; labels := labels entry;
     content := f (content entry); key := key entry; idx := idx entry |}.

Definition fileEntry (entry : EntryFile) : Entry := mapContent FileContent entry.
Definition linkEntry (entry : EntryLink) : Entry := mapContent LinkContent entry.

(** [entry.idx = i] *)
Definition setIdx {C} (i : nat) (entry : EntryOf C) : EntryOf C :=
  {| title := title entry; priority := priority entry; labels := labels entry;
     content := content entry; key := key entry; idx := Some i |}.

(** [entry.key = k] *)
Definition setKey {C} (k : string) (entry : EntryOf C) : EntryOf C :=
  {| title := title entry; priority := priority entry; labels := labels entry;
     content := content entry; key := Some k; idx := idx entry |}.

End Types.

(* ===================================================================== *)
(** * What the host and the modules outside src/ provide *)
(* ===================================================================== *)

Module Host.
Import Types.

(** [String.prototype.toLowerCase] and [String.prototype.localeCompare]:
    built-ins whose results depend on the host's locale data. *)
Class StringHost := {
  toLowerCase : string -> string;
  localeCompare : string -> string -> Z;
}.

(** [label_utils.normalizeLabels], not under src/.  The spec on merging
    labels: "deduplicated, case-insensitive-normalized, sorted". *)
Class LabelUtils := {
  normalizeLabels : list RawLabel -> list RawLabel;
}.

(** A comparator as [Array.prototype.sort] wants it (a "consistent
    comparator"): comparing the other way round flips the sign, and being at
    most equal is transitive. *)
Record Consistent {A} (cmp : A -> A -> Z) : Prop := {
  consistent_flip : forall a b, cmp a b < 0 <-> 0 < cmp b a;
  consistent_trans : forall a b c, cmp a b <= 0 -> cmp b c <= 0 -> cmp a c <= 0;
}.

(** The names every plain object inherits from [Object.prototype]: the [in]
    operator finds them in an object literal that has no property of its
    own. *)
Definition objectPrototypeKeys : list string :=
  [ "constructor"; "__defineGetter__"; "__defineSetter__"; "hasOwnProperty";
    "__lookupGetter__"; "__lookupSetter__"; "isPrototypeOf";
    "propertyIsEnumerable"; "toString"; "valueOf"; "__proto__";
    "toLocaleString" ].

(** [k in obj] for an object created as [{}] and filled by [obj[k] = v] after
    a failed [k in obj] test: its own properties, or an inherited one. *)
Definition js_in {V} (k : string) (obj : gmap string V) : bool :=
  bool_decide (is_Some (obj !! k)) || bool_decide (k ∈ objectPrototypeKeys).

(** [Array.prototype.sort(cmp)]: the sort is stable, and for a consistent
    comparator its result is the one of this insertion sort. *)
Fixpoint insertSorted {A} (cmp : A -> A -> Z) (x : A) (sorted : list A) : list A :=
  match sorted with
  | [] => [x]
  | y :: rest =>
      if Z.leb (cmp x y) 0 then x :: y :: rest
      else y :: insertSorted cmp x rest
  end.

Definition js_sort {A} (cmp : A -> A -> Z) (l : list A) : list A :=
  foldr (insertSorted cmp) [] l.

End Host.

(* ===================================================================== *)
(** * entry_utils.ts: canonical ordering and link reconciliation *)
(* ===================================================================== *)

Module EntryUtils.
Import Repos Types Host.

Definition entryKindNumericValues (k : EntryKind) : Z :=
  match k with
  | NoteMarkdown => 0
  | Document => 1
  | Link => 2
  end.

(** ** sortAndIndexEntries *)

Section Sorting.
Context `{StringHost}.

(** The comparator passed to [entries.sort]. *)
Definition compareEntries (a b : Entry) : Z :=
  if bool_decide (kind (content a) <> kind (content b)) then
    entryKindNumericValues (kind (content a)) - entryKindNumericValues (kind (content b))
  else
    localeCompare (toLowerCase (title a)) (toLowerCase (title b)).

(** The array after the call: sorted, and [entries[i].idx = i] for every
    position. *)
Definition sortAndIndexEntries (entries : Entries) : Entries :=
  imap setIdx (js_sort compareEntries entries).

End Sorting.

(** ** recomputeKey, on the two kinds of entries *)

Definition recomputeKeyLink (entry : EntryLink) : EntryLink :=
  setKey ("__link_" +:+ target (content entry)) entry.

(** [isNote(entry)] *)
Definition isNote (entry : EntryFile) : bool :=
  bool_decide (kindOfFile (content entry) = NoteMarkdown).

(** ** mergeLabels, mergeRepos, mergeLocations *)

Section Links.
Context `{RepoId} `{LabelUtils}.

Definition mergeLabels (existingLabels incomingLabels : list RawLabel) : list RawLabel :=
  normalizeLabels (existingLabels ++ incomingLabels).

Definition mergeRepos (existingRepos : list Repo) (incomingRepo : Repo) : list Repo :=
  if existsb (fun existingRepo => String.eqb (getRepoId existingRepo) (getRepoId incomingRepo))
       existingRepos
  then existingRepos
  else existingRepos ++ [incomingRepo].

Definition mergeLocations (existingLocations : list string) (incomingLocation : string)
  : list string :=
  if existsb (fun existingLocation => String.eqb existingLocation incomingLocation)
       existingLocations
  then existingLocations
  else existingLocations ++ [incomingLocation].

(** ** recomputeLinkEntries *)

(** The link objects live in [heap], at the address that is their position:
    the existing links come first, in the order of [existingLinkEntries], the
    links created by the pass follow.  [linkEntries] and [linkMap] hold
    addresses, so that a link changed through [linkMap] is changed in
    [linkEntries] too, as in the source, where both hold the same object. *)
Record LinkState := {
  heap : list EntryLink;
  linkEntries : list nat;
  linkMap : gmap string nat;
  linkInserted : gmap string bool;
}.

(** The four assignments at the head of the first loop. *)
Definition resetLink (link : EntryLink) : EntryLink :=
  {| title := title link;
     priority := priority link;
     labels := ownLabels (content link);
     content := {| target := target (content link);
                   referencedBy := [];
                   standaloneRepo := standaloneRepo (content link);
                   refRepos := [];
                   refLocations := [];
                   ownLabels := ownLabels (content link) |};
     key := key link;
     idx := idx link |}.

(** The body of the first loop, for the link at address [a]. *)
Definition visitExisting (st : LinkState) (a : nat) (link : EntryLink) : LinkState :=
  let link := resetLink link in
  let heap' := <[a := link]> (heap st) in
  if negb (js_in (target (content link)) (linkMap st)) then
    if bool_decide (is_Some (standaloneRepo (content link))) then
      {| heap := heap';
         linkEntries := linkEntries st ++ [a];
         linkMap := <[target (content link) := a]> (linkMap st);
         linkInserted := <[target (content link) := true]> (linkInserted st) |}
    else
      {| heap := heap';
         linkEntries := linkEntries st;
         linkMap := <[target (content link) := a]> (linkMap st);
         linkInserted := linkInserted st |}
  else
    {| heap := heap';
       linkEntries := linkEntries st;
       linkMap := linkMap st;
       linkInserted := linkInserted st |}.

(** The first loop, from the address [a] on. *)
Fixpoint visitAllExisting (st : LinkState) (a : nat) (existing : list EntryLink)
  : LinkState :=
  match existing with
  | [] => st
  | link :: rest => visitAllExisting (visitExisting st a link) (S a) rest
  end.

(** The link created for a target that is not in [linkMap]. *)
Definition newLink (entry : EntryFile) (info : FileInfo) (linkTarget : string) : EntryLink :=
  recomputeKeyLink
    {| title := linkTarget;
       priority := 0;
       labels := labels entry;
       content := {| target := linkTarget;
                     referencedBy := [entry];
                     standaloneRepo := None;
                     refRepos := [repo info];
                     refLocations := [location info];
                     ownLabels := [] |};
       key := None;
       idx := None |}.

(** The link after the four updates of the [else] branch. *)
Definition addReference (entry : EntryFile) (info : FileInfo) (linkEntry : EntryLink)
  : EntryLink :=
  {| title := title linkEntry;
     priority := priority linkEntry;
     labels := mergeLabels (labels linkEntry) (labels entry);
     content := {| target := target (content linkEntry);
                   referencedBy := referencedBy (content linkEntry) ++ [entry];
                   standaloneRepo := standaloneRepo (content linkEntry);
                   refRepos := mergeRepos (refRepos (content linkEntry)) (repo info);
                   refLocations :=
                     mergeLocations (refLocations (content linkEntry)) (location info);
                   ownLabels := ownLabels (content linkEntry) |};
     key := key linkEntry;
     idx := idx linkEntry |}.

(** The body of the inner loop of the second loop.  [None] is the TypeError
    of [linkEntry.content.referencedBy] when [linkMap[linkTarget]] is not a
    link: [linkTarget in linkMap] holds for an inherited name too, and what
    is read under that name has no [content]. *)
Definition visitLinkTarget (entry : EntryFile) (info : FileInfo) (st : LinkState)
  (linkTarget : string) : option LinkState :=
  if negb (js_in linkTarget (linkMap st)) then
    let a := length (heap st) in
    Some {| heap := heap st ++ [newLink entry info linkTarget];
            linkEntries := linkEntries st ++ [a];
            linkMap := <[linkTarget := a]> (linkMap st);
            linkInserted := <[linkTarget := true]> (linkInserted st) |}
  else
    a ← linkMap st !! linkTarget;
    linkEntry ← heap st !! a;
    let linkEntry := addReference entry info linkEntry in
    let heap' := <[a := linkEntry]> (heap st) in
    if negb (js_in linkTarget (linkInserted st)) then
      Some {| heap := heap';
              linkEntries := linkEntries st ++ [a];
              linkMap := linkMap st;
              linkInserted := <[target (content linkEntry) := true]> (linkInserted st) |}
    else
      Some {| heap := heap';
              linkEntries := linkEntries st;
              linkMap := linkMap st;
              linkInserted := linkInserted st |}.

(** [for (let x of xs) body], where the body may throw. *)
Fixpoint forEach {S X} (body : S -> X -> option S) (st : S) (xs : list X) : option S :=
  match xs with
  | [] => Some st
  | x :: rest =>
      match body st x with
      | Some st' => forEach body st' rest
      | None => None
      end
  end.

(** The body of the second loop. *)
Definition visitFileEntry (st : LinkState) (entry : EntryFile) : option LinkState :=
  match content entry with
  | ContentNote info note => forEach (visitLinkTarget entry info) st (links note)
  | ContentDoc _ => Some st
  end.

Definition initialLinkState (existingLinkEntries : list EntryLink) : LinkState :=
  {| heap := existingLinkEntries; linkEntries := []; linkMap := ∅; linkInserted := ∅ |}.

(** The state when the second loop ends, or [None] when it throws. *)
Definition recomputeLinkState (fileEntries : list EntryFile)
  (existingLinkEntries : list EntryLink) : option LinkState :=
  forEach visitFileEntry
    (visitAllExisting (initialLinkState existingLinkEntries) 0 existingLinkEntries)
    fileEntries.

(** The objects an array of addresses holds. *)
Definition deref (st : LinkState) : list EntryLink :=
  omap (fun a => heap st !! a) (linkEntries st).

Definition recomputeLinkEntries (fileEntries : list EntryFile)
  (existingLinkEntries : list EntryLink) : option (list EntryLink) :=
  deref <$> recomputeLinkState fileEntries existingLinkEntries.

(** ** recomputeEntries *)

Context `{StringHost}.

(** [sortAndIndexEntries] on an array whose elements are known by their
    position before the call: the link objects of [linkEntries] are elements
    of [entries] and get their [idx] with them. *)
Definition sortAndIndexTagged (tagged : list (nat * Entry)) : list (nat * Entry) :=
  imap (fun i te => (te.1, setIdx i te.2))
    (js_sort (fun a b => compareEntries a.2 b.2) tagged).

(** The [idx] the object tagged [tag] has after the call. *)
Definition idxOfTag (indexed : list (nat * Entry)) (tag : nat) : option nat :=
  te ← list_find (fun te => te.1 = tag) indexed;
  idx te.2.2.

Definition recomputeEntries (fileEntries : list EntryFile)
  (existingLinkEntries : list EntryLink) : option (list EntryLink * Entries) :=
  linkEntries ← recomputeLinkEntries fileEntries existingLinkEntries;
  let entries := (fileEntry <$> fileEntries) ++ (linkEntry <$> linkEntries) in
  let indexed := sortAndIndexTagged (imap (fun i e => (i, e)) entries) in
  Some (imap (fun j link =>
                match idxOfTag indexed (length fileEntries + j) with
                | Some i => setIdx i link
                | None => link
                end) linkEntries,
        snd <$> indexed).

End Links.

(** ** Conditions on inputs and states *)

(** The link targets of a file entry: those of its text when it is a note. *)
Definition linkTargets (entry : EntryFile) : list string :=
  match content entry with
  | ContentNote _ note => links note
  | ContentDoc _ => []
  end.

(** No note of [fileEntries] links to a name inherited from
    [Object.prototype]. *)
Definition noInheritedTargets (fileEntries : list EntryFile) : Prop :=
  forall entry linkTarget,
    entry ∈ fileEntries -> linkTarget ∈ linkTargets entry ->
    linkTarget ∉ objectPrototypeKeys.

(** The link at address [i] is the first of [existing] with its target. *)
Definition firstWithTarget (existing : list EntryLink) (i : nat) : Prop :=
  forall j other link,
    (j < i)%nat -> existing !! j = Some other -> existing !! i = Some link ->
    target (content other) <> target (content link).

(** The invariant of the two loops of [recomputeLinkEntries]: [linkMap] holds
    under a target the address of a link with that target, and never under
    an inherited name; the addresses of [linkEntries] are distinct and are
    the ones [linkMap] holds for the targets recorded in [linkInserted]. *)
Record wfLinkState (st : LinkState) : Prop := {
  wf_map : forall t a,
    linkMap st !! t = Some a ->
    exists link, heap st !! a = Some link /\ target (content link) = t;
  wf_own : forall t a, linkMap st !! t = Some a -> t ∉ objectPrototypeKeys;
  wf_entries : forall a,
    a ∈ linkEntries st ->
    exists link, heap st !! a = Some link /\
                 linkMap st !! target (content link) = Some a;
  wf_inserted : forall t,
    is_Some (linkInserted st !! t) <->
    exists a, linkMap st !! t = Some a /\ a ∈ linkEntries st;
  wf_nodup : NoDup (linkEntries st);
}.

(** The invariant of the first loop when the links [done] have been visited
    and the links [rest] are still to come. *)
Record firstLoopInv (done rest : list EntryLink) (st : LinkState) : Prop := {
  inv_heap : heap st = (resetLink <$> done) ++ rest;
  inv_wf : wfLinkState st;
  inv_map : forall t a,
    linkMap st !! t = Some a ->
    exists link, done !! a = Some link /\ target (content link) = t /\
      forall j other, (j < a)%nat -> done !! j = Some other ->
                      target (content other) <> t;
  inv_seen : forall i link,
    done !! i = Some link -> target (content link) ∉ objectPrototypeKeys ->
    is_Some (linkMap st !! target (content link));
  inv_entries : forall i,
    i ∈ linkEntries st <->
    exists link, done !! i = Some link /\ is_Some (standaloneRepo (content link)) /\
                 linkMap st !! target (content link) = Some i;
}.

(** What the reset and the updates of a pass leave of a link. *)
Definition sameLink (l1 l2 : EntryLink) : Prop :=
  title l1 = title l2 /\ priority l1 = priority l2 /\ key l1 = key l2 /\
  idx l1 = idx l2 /\
  target (content l1) = target (content l2) /\
  standaloneRepo (content l1) = standaloneRepo (content l2) /\
  ownLabels (content l1) = ownLabels (content l2).

(** How the state [st'] that the second loop reaches from [st] by visiting
    the link targets [us] relates to [st]: links stay where they are and
    keep what [sameLink] names, [linkMap] and [linkEntries] only grow, an
    address pushed is the one of a visited target, and the link of a target
    that is not visited is not touched. *)
Record visited (us : list string) (st st' : LinkState) : Prop := {
  vis_heap : forall a link,
    heap st !! a = Some link ->
    exists link', heap st' !! a = Some link' /\ sameLink link link';
  vis_map : forall t a, linkMap st !! t = Some a -> linkMap st' !! t = Some a;
  vis_entries : forall a, a ∈ linkEntries st -> a ∈ linkEntries st';
  vis_pushed : forall a,
    a ∈ linkEntries st' ->
    a ∈ linkEntries st \/ exists u, u ∈ us /\ linkMap st' !! u = Some a;
  vis_other_map : forall t, t ∉ us -> linkMap st' !! t = linkMap st !! t;
  vis_other_heap : forall t a,
    t ∉ us -> linkMap st !! t = Some a -> heap st' !! a = heap st !! a;
  vis_other_entries : forall t a,
    t ∉ us -> linkMap st !! t = Some a -> a ∈ linkEntries st' -> a ∈ linkEntries st;
}.

End EntryUtils.

(* ===================================================================== *)
(** * filemap.ts, io.ts and the later path_utils.ts *)
(* ===================================================================== *)

Module FileMaps.
Import Repos.

(** Modelled from the spec: the [File] type and the [FileMap] and
    [MultiRepoFileMap] classes of filemap.ts, which is not under src/.  The
    spec: a File has a path, a content hash, an optional raw URL "and exactly
    one of: content (fetched text), fetchError (remote fetch failed), or
    neither"; a File Map is a "mapping from path (unique key) to File" with
    get, set-content ("upsert, replacing fetchError/absence"), delete and a
    deep clone; a Multi-Repo File Map maps a repo identity to a File Map.
    Both are kept in insertion order; a clone of an immutable value is the
    value. *)
Record File := {
  path : string;
  sha : option string;
  rawUrl : option string;
  content : option string;
  error : option Octokit.WrappedError;
}.

Abbreviation FileMap := (list File).

Definition get (fileMap : FileMap) (p : string) : option File :=
  snd <$> list_find (fun file => path file = p) fileMap.

Definition setFile (fileMap : FileMap) (file : File) : FileMap :=
  match list_find (fun f => path f = path file) fileMap with
  | Some (i, _) => <[i := file]> fileMap
  | None => fileMap ++ [file]
  end.

Definition setContent (fileMap : FileMap) (p text : string) : FileMap :=
  match get fileMap p with
  | Some file =>
      setFile fileMap
        {| path := p; sha := sha file; rawUrl := rawUrl file;
           content := Some text; error := None |}
  | None =>
      setFile fileMap
        {| path := p; sha := None; rawUrl := None; content := Some text; error := None |}
  end.

Definition convertFilesToFileMap (files : list File) : FileMap :=
  foldl setFile [] files.

(** The type guards [isFileInGit] and [isFileFetched]. *)
Definition isFileInGit (file : File) : bool :=
  bool_decide (is_Some (sha file)) && bool_decide (is_Some (rawUrl file)).

Definition isFileFetched (file : File) : bool :=
  isFileInGit file && bool_decide (is_Some (content file)).

Abbreviation MultiRepoFileMap := (list (Repo * list File)).

Section MultiRepo.
Context `{RepoId}.

Definition getRepo {V} (all : list (Repo * V)) (repo : Repo) : option V :=
  snd <$> (snd <$> list_find (fun rv => getRepoId rv.1 = getRepoId repo) all).

Definition setRepo {V} (all : list (Repo * V)) (repo : Repo) (v : V) : list (Repo * V) :=
  match list_find (fun rv => getRepoId rv.1 = getRepoId repo) all with
  | Some (i, _) => <[i := (repo, v)]> all
  | None => all ++ [(repo, v)]
  end.

(** [allFileMaps.get(repo)?.data.setContent(path, text)] *)
Definition setContentIn (all : MultiRepoFileMap) (repo : Repo) (p text : string)
  : MultiRepoFileMap :=
  match getRepo all repo with
  | Some fileMap => setRepo all repo (setContent fileMap p text)
  | None => all
  end.

End MultiRepo.

End FileMaps.

Module Io.
Import Types Neverthrow.

(** Modelled from the spec: the [MetaData] record of io.ts, which is not
    under src/: "label set, creation timestamp, update timestamp". *)
Record MetaData := {
  labels : list RawLabel;
  timeCreated : Date;
  timeUpdated : Date;
}.

(** The functions of io.ts the extraction calls.  [createNewMetaData] reads
    the clock; one reading serves a whole extraction. *)
Class IoFns := {
  parseMetaData : string -> Result MetaData string;
  createNewMetaData : MetaData;
  serializeMetaData : MetaData -> string;
}.

End Io.

Module PathUtilsExt.
Import Types.

Inductive FileKind := FileNoteMarkdown | FileDocument | FileOther.

(** The functions and the constant of the later path_utils.ts and of
    markdown_utils.ts that are not under src/. *)
Class PathFns := {
  isNotemarksFile : string -> bool;
  getFileKind : string -> FileKind;
  splitLocationTitleExtension : string -> string * string * string;
  getPath : EntryFile -> string;
  NOTEMARKS_LINK_DB_PATH : string;
  processMarkdownText : string -> string * list string;
}.

Definition NOTEMARKS_FOLDER : string := ".notemarks".

(** [getAssociatedMetaPath], from the path_utils.ts under src/. *)
Definition getAssociatedMetaPath (path : string) : string :=
  NOTEMARKS_FOLDER +:+ "/" +:+ path +:+ ".yaml".

End PathUtilsExt.

(* ===================================================================== *)
(** * entry_utils.ts: file entry extraction; octokit.tsx: loadEntries *)
(* ===================================================================== *)

Module Extraction.
Import Repos Types Neverthrow FileMaps Io PathUtilsExt.

Section Extract.
Context `{RepoId} `{IoFns} `{PathFns}.

Definition recomputeKeyFile (entry : EntryFile) : EntryFile :=
  setKey (Repos.key (repo (fileInfo (Types.content entry))) +:+ ":" +:+ getPath entry) entry.

Definition constructFileEntry (repo : Repo) (file : File) (metaData : MetaData)
  : option EntryFile :=
  let fileKind := getFileKind (path file) in
  let '(location, title, extension) := splitLocationTitleExtension (path file) in
  let info url :=
    {| Types.repo := repo; location := location; extension := extension;
       Types.timeCreated := timeCreated metaData;
       Types.timeUpdated := timeUpdated metaData;
       Types.rawUrl := url |} in
  let entry content :=
    recomputeKeyFile
      {| Types.title := title; priority := 0; Types.labels := labels metaData;
         Types.content := content; key := None; idx := None |} in
  match fileKind, FileMaps.content file, rawUrl file with
  | FileNoteMarkdown, Some text, Some url =>
      if isFileFetched file then
        let '(html, links) := processMarkdownText text in
        Some (entry (ContentNote (info url) {| text := text; html := html; links := links |}))
      else None
  | FileDocument, _, Some url =>
      if isFileInGit file then Some (entry (ContentDoc (info url))) else None
  | _, _, _ => None
  end.

(** [fileEntries.push(entry)] when [entry != null]. *)
Definition pushEntry (fileEntries : list EntryFile) (entry : option EntryFile)
  : list EntryFile :=
  match entry with
  | Some entry => fileEntries ++ [entry]
  | None => fileEntries
  end.

(** The body of [fileMap.forEach]: the state is [fileEntries] and
    [allFileMapsEdit]. *)
Definition visitFile (repo : Repo) (fileMap : FileMap)
  (st : list EntryFile * MultiRepoFileMap) (file : File)
  : list EntryFile * MultiRepoFileMap :=
  let '(fileEntries, allFileMapsEdit) := st in
  if negb (isNotemarksFile (path file)) then
    let associatedMetaPath := getAssociatedMetaPath (path file) in
    let associatedMetaFile := get fileMap associatedMetaPath in
    let '(fileEntries, createMetaDataFromScratch) :=
      match associatedMetaFile with
      | Some metaFile =>
          match FileMaps.content metaFile with
          | Some metaContent =>
              match parseMetaData metaContent with
              | Ok metaData =>
                  (pushEntry fileEntries (constructFileEntry repo file metaData), false)
              | Err _ => (fileEntries, true)
              end
          | None =>
              if bool_decide (is_Some (error metaFile)) then (fileEntries, false)
              else (fileEntries, true)
          end
      | None => (fileEntries, true)
      end in
    if createMetaDataFromScratch then
      let newMetaData := createNewMetaData in
      let newMetaDataContent := serializeMetaData newMetaData in
      match constructFileEntry repo file newMetaData with
      | Some entry =>
          (fileEntries ++ [entry],
           setContentIn allFileMapsEdit repo associatedMetaPath newMetaDataContent)
      | None => (fileEntries, allFileMapsEdit)
      end
    else (fileEntries, allFileMapsEdit)
  else (fileEntries, allFileMapsEdit).

Definition extractFileEntriesAndUpdateFileMap (allFileMapsOrig : MultiRepoFileMap)
  : list EntryFile * MultiRepoFileMap :=
  let allFileMapsEdit := allFileMapsOrig in
  foldl (fun st '(repo, fileMap) => foldl (visitFile repo fileMap) st fileMap)
    ([], allFileMapsEdit) allFileMapsOrig.

(** ** loadEntries *)

(** What [downloadFiles] resolves to for a repo: the listed files, each with
    its content, its fetch error, or neither. *)
Context (downloadFiles : Repo -> list File).

(** What [loadEntries] returns: [fileEntries, allLinkDBs, stagedChanges]. *)
Record Loaded := {
  fileEntries : list EntryFile;
  allLinkDBs : list (Repo * string);
  stagedChanges : list (string * list GitOps.GitOp);
}.

(** The body of the loop over the repos: the state is [allLinkDBs] and
    [allFileMaps]. *)
Definition loadRepo (st : list (Repo * string) * MultiRepoFileMap) (repo : Repo)
  : list (Repo * string) * MultiRepoFileMap :=
  let '(allLinkDBs, allFileMaps) := st in
  let files := downloadFiles repo in
  let fileMap := convertFilesToFileMap files in
  let allFileMaps := setRepo allFileMaps repo fileMap in
  match get fileMap NOTEMARKS_LINK_DB_PATH with
  | Some fileLinkDB =>
      match FileMaps.content fileLinkDB with
      | Some linkDB => (setRepo allLinkDBs repo linkDB, allFileMaps)
      | None => (allLinkDBs, allFileMaps)
      end
  | None => (allLinkDBs, allFileMaps)
  end.

(** [allErrors] is declared empty, logged, and neither written nor
    returned. *)
Definition loadEntries (repos : list Repo) : Loaded :=
  let allErrors : list Octokit.WrappedError := [] in
  let stagedChanges : list (string * list GitOps.GitOp) := [] in
  let '(allLinkDBs, allFileMaps) := foldl loadRepo ([], []) repos in
  let '(fileEntries, allFileMapsPatched) := extractFileEntriesAndUpdateFileMap allFileMaps in
  {| fileEntries := fileEntries; allLinkDBs := allLinkDBs; stagedChanges := stagedChanges |}.

End Extract.

End Extraction.

(* ===================================================================== *)
(** * Concrete hosts and inputs for the examples *)
(* ===================================================================== *)

Module Examples.
Import Repos Types Host.

(** ASCII lower-casing and comparison by code units: what [toLowerCase] and
    [localeCompare] do on unaccented Latin letters of one case. *)
Definition lowerAscii (c : ascii) : ascii :=
  let n := nat_of_ascii c in
  if Nat.leb 65 n && Nat.leb n 90 then ascii_of_nat (n + 32) else c.

Fixpoint lowerString (s : string) : string :=
  match s with
  | EmptyString => EmptyString
  | String c rest => String (lowerAscii c) (lowerString rest)
  end.

Definition compareCodeUnits (a b : string) : Z :=
  match String.compare a b with
  | Lt => -1
  | Eq => 0
  | Gt => 1
  end.

Definition asciiHost : StringHost :=
  {| toLowerCase := lowerString; localeCompare := compareCodeUnits |}.

(** Labels without duplicates, sorted by code units. *)
Definition sortedLabels : LabelUtils :=
  {| normalizeLabels := fun labels => js_sort compareCodeUnits (remove_dups labels) |}.

(** A repo is identified by its key. *)
Definition keyRepoId : RepoId := {| getRepoId := Repos.key |}.

Definition repoA : Repo :=
  {| userName := "user"; repoName := "a"; token := "secret"; branch := "main";
     Repos.key := "user/a" |}.

(** A note of [repoA] with the given title, location, labels and link
    targets. *)
Definition noteEntry (title location : string) (labels : list RawLabel)
  (links : list string) : EntryFile :=
  {| title := title; priority := 0; labels := labels;
     content := ContentNote
                  {| repo := repoA; location := location; extension := "md";
                     timeCreated := 0; timeUpdated := 0; rawUrl := "" |}
                  {| text := ""; html := ""; links := links |};
     key := Some ("user/a:" +:+ location +:+ "/" +:+ title +:+ ".md"); idx := None |}.

Definition documentEntry (title location : string) : EntryFile :=
  {| title := title; priority := 0; labels := [];
     content := ContentDoc
                  {| repo := repoA; location := location; extension := "pdf";
                     timeCreated := 0; timeUpdated := 0; rawUrl := "" |};
     key := Some ("user/a:" +:+ location +:+ "/" +:+ title +:+ ".pdf"); idx := None |}.

(** A link as [deserializeLinkEntries] builds it from a stored record. *)
Definition storedLink (title target : string) (ownLabels : list RawLabel)
  (standalone : bool) : EntryLink :=
  {| title := title; priority := 0; labels := ownLabels;
     content := {| target := target; referencedBy := [];
                   standaloneRepo := if standalone then Some repoA else None;
                   refRepos := []; refLocations := []; ownLabels := ownLabels |};
     key := Some ("__link_" +:+ target); idx := None |}.

(** Collaborators for the extraction: the reserved folder holds the
    notemarks files, a file is a note when its path ends in ".md", metadata
    never parses. *)
Definition examplePathFns : PathUtilsExt.PathFns :=
  {| PathUtilsExt.isNotemarksFile := String.prefix PathUtilsExt.NOTEMARKS_FOLDER;
     PathUtilsExt.getFileKind := fun path =>
       if String.eqb (String.substring (String.length path - 3) 3 path) ".md"
       then PathUtilsExt.FileNoteMarkdown else PathUtilsExt.FileDocument;
     PathUtilsExt.splitLocationTitleExtension := fun path => ("", path, "");
     PathUtilsExt.getPath := fun entry => title entry;
     PathUtilsExt.NOTEMARKS_LINK_DB_PATH := ".notemarks/links.yaml";
     PathUtilsExt.processMarkdownText := fun text => (text, []) |}.

Definition exampleIoFns : Io.IoFns :=
  {| Io.parseMetaData := fun _ => Neverthrow.Err "not a metadata record";
     Io.createNewMetaData := {| Io.labels := []; Io.timeCreated := 0; Io.timeUpdated := 0 |};
     Io.serializeMetaData := fun _ => "labels: []" |}.

(** The note a.md, fetched, and its sidecar, whose fetch failed. *)
Definition fetchedNote : FileMaps.File :=
  {| FileMaps.path := "a.md"; FileMaps.sha := Some "s1";
     FileMaps.rawUrl := Some "https://raw.example/a.md";
     FileMaps.content := Some "text"; FileMaps.error := None |}.

Definition unfetchedMeta : FileMaps.File :=
  {| FileMaps.path := ".notemarks/a.md.yaml"; FileMaps.sha := Some "s2";
     FileMaps.rawUrl := Some "https://raw.example/.notemarks/a.md.yaml";
     FileMaps.content := None;
     FileMaps.error :=
       Some {| Octokit.msg := "Failure during fetching file from GitHub.";
               Octokit.originalError := Some "HttpError" |} |}.

End Examples.

(* ===================================================================== *)
(** * path_utils: entry kinds and path segments *)
(* ===================================================================== *)

Module PathKinds.
Import PathUtils Types.

(** Does the string contain the code unit [c]? *)
Definition contains (c : N) (s : jsstring) : bool := existsb (N.eqb c) s.

(** [s.split(c)] for a one-unit separator: the pieces between the
    occurrences of [c]; [cur] is the piece being read. *)
Fixpoint split_from (c : N) (s : jsstring) (cur : jsstring) : list jsstring :=
  match s with
  | [] => [cur]
  | x :: rest =>
      if N.eqb x c then cur :: split_from c rest []
      else split_from c rest (cur ++ [x])
  end.

Definition split (c : N) (s : jsstring) : list jsstring := split_from c s [].

(** The code units of "md" and "desktop". *)
Definition MD : jsstring := [0x6D; 0x64]%N.
Definition DESKTOP : jsstring := [0x64; 0x65; 0x73; 0x6B; 0x74; 0x6F; 0x70]%N.

Section Kinds.
(** [String.prototype.toLowerCase], on code units. *)
Context (toLowerCase : jsstring -> jsstring).

(** [path.split(".").pop()?.toLowerCase()] and the two comparisons. *)
Definition getEntryKind (path : jsstring) : EntryKind :=
  let extension := toLowerCase <$> last (split FULL_STOP path) in
  if bool_decide (extension = Some MD) then NoteMarkdown
  else if bool_decide (extension = Some DESKTOP) then Link
  else Document.

End Kinds.

(** Lower-casing of the letters A to Z, the other code units unchanged. *)
Definition lowerUnit (x : N) : N :=
  if (N.leb 0x41 x && N.leb x 0x5A)%bool then (x + 0x20)%N else x.

Definition lowerUnits (s : jsstring) : jsstring := lowerUnit <$> s.

End PathKinds.

(* ===================================================================== *)
(** * octokit.tsx: the steps of a commit, and downloadFiles *)
(* ===================================================================== *)

Module CommitSteps.
Import Neverthrow Repos GitOps Octokit.

(** The place of a request in the chain of [commit]. *)
Definition requestStep (request : Request) : nat :=
  match request with
  | GetRef _ _ _ => 0
  | GetCommit _ _ _ => 1
  | GetTree _ _ _ _ => 2
  | CreateTree _ _ _ => 3
  | CreateCommit _ _ _ _ _ => 4
  | UpdateRef _ _ _ _ _ => 5
  end.

(** The message [wrapPromise] is given for a request. *)
Definition stepMessage (request : Request) : string :=
  match request with
  | GetRef _ _ _ => "Failed to get head ref."
  | GetCommit _ _ _ => "Failed to get head commit."
  | GetTree _ _ treeSHA _ => "Failed to get tree with sha " +:+ treeSHA +:+ "."
  | CreateTree _ _ _ => "Failed to create tree."
  | CreateCommit _ _ _ _ _ => "Failed to create commit."
  | UpdateRef _ _ _ _ _ => "Failed to update ref."
  end.

(** The error the remote rejects a request with, if it rejects it. *)
Definition rejection (remote : Remote) (sent : list Request) (request : Request)
  : option string :=
  let rejected {T} (answer : Result T string) : option string :=
    match answer with Ok _ => None | Err e => Some e end in
  match request with
  | GetRef _ _ _ => rejected (gitGetRef remote sent request)
  | GetCommit _ _ _ => rejected (gitGetCommit remote sent request)
  | GetTree _ _ _ _ => rejected (gitGetTree remote sent request)
  | CreateTree _ _ _ => rejected (gitCreateTree remote sent request)
  | CreateCommit _ _ _ _ _ => rejected (gitCreateCommit remote sent request)
  | UpdateRef _ _ _ _ _ => rejected (gitUpdateRef remote sent request)
  end.

Definition truncatedError : WrappedError :=
  {| msg := "Tree has been truncated -- handling that many files is not supported yet.";
     originalError := None |}.

(** The six requests of a commit are answered, by a tree that is not
    truncated, with these values. *)
Definition answered (remote : Remote) (repo : Repo) (ops : list GitOp)
  (commitMsg : string) (sent : list Request)
  (oldCommitSHA oldTreeSHA : string) (oldTree : GitGetTreeResponseData)
  (newTreeSHA newCommitSHA : string) : Prop :=
  let r1 := reqGetRef repo in
  let r2 := reqGetCommit repo oldCommitSHA in
  let r3 := reqGetTree repo oldTreeSHA in
  let r4 := reqCreateTree repo ops oldTree in
  let r5 := reqCreateCommit repo commitMsg oldCommitSHA newTreeSHA in
  let r6 := reqUpdateRef repo newCommitSHA in
  gitGetRef remote sent r1 = Ok oldCommitSHA /\
  gitGetCommit remote (sent ++ [r1]) r2 = Ok oldTreeSHA /\
  gitGetTree remote (sent ++ [r1; r2]) r3 = Ok oldTree /\
  truncated oldTree = false /\
  gitCreateTree remote (sent ++ [r1; r2; r3]) r4 = Ok newTreeSHA /\
  gitCreateCommit remote (sent ++ [r1; r2; r3; r4]) r5 = Ok newCommitSHA /\
  gitUpdateRef remote (sent ++ [r1; r2; r3; r4; r5]) r6 = Ok tt.

(** How a run of [commit] that has sent the requests [added] ends in
    [error]: the last request was rejected and the error wraps the rejection
    under the message of that request, or the last request is the read of
    the tree, it was answered, and the error is the truncation error. *)
Definition failedAt (remote : Remote) (sent added : list Request) (error : WrappedError)
  : Prop :=
  exists request,
    last added = Some request /\
    ((exists e, rejection remote (sent ++ removelast added) request = Some e /\
                error = {| msg := stepMessage request; originalError := Some e |}) \/
     (requestStep request = 2%nat /\
      rejection remote (sent ++ removelast added) request = None /\
      error = truncatedError)).

(** A remote that rejects the update of the ref and accepts the rest. *)
Definition lockedRemote : Remote :=
  {| gitGetRef := fun _ _ => Ok "c0";
     gitGetCommit := fun _ _ => Ok "t0";
     gitGetTree := fun _ _ => Ok {| tree_sha := "t0"; tree := []; truncated := false |};
     gitCreateTree := fun _ _ => Ok "t1";
     gitCreateCommit := fun _ _ => Ok "c1";
     gitUpdateRef := fun _ _ => Err "protected branch" |}.

End CommitSteps.

Module Download.
Import Neverthrow Repos FileMaps PathUtilsExt.

(** [FileDesc]: an entry of the recursive listing. *)
Record FileDesc := {
  path : string;
  sha : string;
  rawUrl : string;
}.

#[global] Instance FileKind_eq_dec : EqDecision FileKind.
Proof. solve_decision. Defined.

Section DownloadFiles.
Context `{PathFns}.

(** [doFetch] *)
Definition doFetch (file : FileDesc) : bool :=
  negb (bool_decide (getFileKind (path file) = FileDocument))
  || String.prefix NOTEMARKS_FOLDER (path file).

(** The loop and the final [map] of [downloadFiles], for the listing
    [files]: [fetched i file] is what the [cachedFetch] started for the file
    at position [i] settles to.  [Promise.all] keeps the order of the
    fetches. *)
Definition downloadFiles (files : list FileDesc)
  (fetched : nat -> FileDesc -> Result string Octokit.WrappedError) : list File :=
  imap (fun i file =>
          if doFetch file then
            match fetched i file with
            | Ok content =>
                {| FileMaps.path := path file; FileMaps.sha := Some (sha file);
                   FileMaps.rawUrl := Some (rawUrl file);
                   content := Some content; error := None |}
            | Err e =>
                {| FileMaps.path := path file; FileMaps.sha := Some (sha file);
                   FileMaps.rawUrl := Some (rawUrl file);
                   content := None; error := Some e |}
            end
          else
            {| FileMaps.path := path file; FileMaps.sha := Some (sha file);
               FileMaps.rawUrl := Some (rawUrl file);
               content := None; error := None |})
    files.

End DownloadFiles.

End Download.

(* ===================================================================== *)
(** * entry_utils.ts: the runs of the second loop of recomputeLinkEntries *)
(* ===================================================================== *)

Module LinkHistory.
Import Repos Types Host EntryUtils.

(** The runs of the body of the inner loop, in order: the note and the link
    target of each. *)
Definition visits (fileEntries : list EntryFile) : list (EntryFile * string) :=
  fileEntries ≫= fun entry => (fun linkTarget => (entry, linkTarget)) <$> linkTargets entry.

(** The notes that link to [t], once for every link to it, in the order of
    the runs. *)
Definition referencesIn (vs : list (EntryFile * string)) (t : string) : list EntryFile :=
  fst <$> filter (fun v => v.2 = t) vs.

Definition referencesTo (fileEntries : list EntryFile) (t : string) : list EntryFile :=
  referencesIn (visits fileEntries) t.

(** Every target of the runs [vs] is in [linkMap], and its link has been
    pushed. *)
Definition targetsMapped (vs : list (EntryFile * string)) (st : LinkState) : Prop :=
  forall v, v ∈ vs -> exists a, linkMap st !! v.2 = Some a /\ a ∈ linkEntries st.

(** Every link that [linkMap] holds satisfies [P]. *)
Definition mappedLinks (P : EntryLink -> Prop) (st : LinkState) : Prop :=
  forall t a link, linkMap st !! t = Some a -> heap st !! a = Some link -> P link.

(** The back-references of a link are the notes that link to its target in
    the runs [vs]. *)
Definition exactReferences (vs : list (EntryFile * string)) (link : EntryLink) : Prop :=
  referencedBy (content link) = referencesIn vs (target (content link)).

Section Aggregates.
Context `{RepoId}.

(** The locations and the repos of a link are those of its back-references,
    each location and each repo id once. *)
Definition aggregatesOfReferences (link : EntryLink) : Prop :=
  NoDup (refLocations (content link)) /\
  (forall l, l ∈ refLocations (content link) <->
             exists entry, entry ∈ referencedBy (content link) /\
                           location (fileInfo (content entry)) = l) /\
  NoDup (getRepoId <$> refRepos (content link)) /\
  (forall id, id ∈ getRepoId <$> refRepos (content link) <->
              exists entry, entry ∈ referencedBy (content link) /\
                            getRepoId (repo (fileInfo (content entry))) = id).

End Aggregates.

(** Every existing link whose target is no inherited name has its target
    in [linkMap]. *)
Definition existingMapped (existing : list EntryLink) (st : LinkState) : Prop :=
  forall link, link ∈ existing -> target (content link) ∉ objectPrototypeKeys ->
               is_Some (linkMap st !! target (content link)).

(** The targets of the links of the result array, in its order. *)
Definition entryTargets (st : LinkState) : list string :=
  (fun link : EntryLink => target (content link)) <$> deref st.

(** The targets of the result array after a run of the inner loop for the
    target [u]: the link of a target is pushed once. *)
Definition pushTarget (targets : list string) (u : string) : list string :=
  if bool_decide (u ∈ targets) then targets else targets ++ [u].

Definition pushOrder (targets : list string) (us : list string) : list string :=
  foldl pushTarget targets us.

(** The first of the existing links with the target [t]. *)
Definition firstWith (existing : list EntryLink) (t : string) : option EntryLink :=
  snd <$> list_find (fun link : EntryLink => target (content link) = t) existing.

Section LinkOf.
Context `{RepoId} `{LabelUtils}.

(** The [else] branch of the inner loop for the note [entry]. *)
Definition addRef (link : EntryLink) (entry : EntryFile) : EntryLink :=
  addReference entry (fileInfo (content entry)) link.

(** The link of the target [t] after the runs [vs]: the first existing link
    with the target, reset, or the link created for the first note that
    links to the target; then one reference more for every further run for
    the target. *)
Definition linkAfter (existing : list EntryLink) (vs : list (EntryFile * string))
  (t : string) : option EntryLink :=
  match firstWith existing t with
  | Some link => Some (foldl addRef (resetLink link) (referencesIn vs t))
  | None =>
      match referencesIn vs t with
      | entry :: further =>
          Some (foldl addRef (newLink entry (fileInfo (content entry)) t) further)
      | [] => None
      end
  end.

(** A link that [linkMap] holds is the link of its target. *)
Definition linkOfTarget (existing : list EntryLink) (vs : list (EntryFile * string))
  (link : EntryLink) : Prop :=
  linkAfter existing vs (target (content link)) = Some link.

End LinkOf.

(** The state after the first loop. *)
Definition afterFirstLoop (existingLinkEntries : list EntryLink) : LinkState :=
  visitAllExisting (initialLinkState existingLinkEntries) 0 existingLinkEntries.

End LinkHistory.

(* ===================================================================== *)
(** * App.tsx: replacing the active file entry *)
(* ===================================================================== *)

Module AppState.
Import Repos Types Host EntryUtils.

Section Modify.
Context `{RepoId} `{LabelUtils} `{StringHost}.

(** [recomputeEntries], with the entries still tagged by their position in
    [[...fileEntries, ...linkEntries]] before the sort: the tag stands for
    the object, which [===] compares. *)
Definition recomputeEntriesTagged (fileEntries : list EntryFile)
  (existingLinkEntries : list EntryLink) : option (list EntryLink * list (nat * Entry)) :=
  linkEntries ← recomputeLinkEntries fileEntries existingLinkEntries;
  let entries := (fileEntry <$> fileEntries) ++ (linkEntry <$> linkEntries) in
  let indexed := sortAndIndexTagged (imap (fun i e => (i, e)) entries) in
  Some (imap (fun j link =>
                match idxOfTag indexed (length fileEntries + j) with
                | Some i => setIdx i link
                | None => link
                end) linkEntries,
        indexed).

(** [modifyFileEntry].  The outer [None] is an exception of
    [recomputeEntries], the inner [None] the [return;] without a value.
    [newEntry] is a new object: after the assignment it is the element
    [fileEntryIdx] of [newFileEntries] and of the entries before the sort,
    and [entry === newEntry] finds the entry with that tag.  The file
    entries returned are the objects of [newFileEntries], with the [idx]
    the sort wrote. *)
Definition modifyFileEntry (oldFileEntries : list EntryFile)
  (oldLinkEntries : list EntryLink) (oldEntry newEntry : EntryFile)
  : option (option (list EntryFile * list EntryLink * Entries * nat)) :=
  match list_find (fun entry => key entry = key oldEntry) oldFileEntries with
  | None => Some None
  | Some (fileEntryIdx, _) =>
      let newFileEntries := <[fileEntryIdx := newEntry]> oldFileEntries in
      match recomputeEntriesTagged newFileEntries oldLinkEntries with
      | None => None
      | Some (newLinkEntries, indexed) =>
          let newEntries := snd <$> indexed in
          match list_find (fun te => te.1 = fileEntryIdx) indexed with
          | None => Some None
          | Some (newActiveEntryIdx, _) =>
              Some (Some (imap (fun i entry =>
                                  match idxOfTag indexed i with
                                  | Some p => setIdx p entry
                                  | None => entry
                                  end) newFileEntries,
                          newLinkEntries, newEntries, newActiveEntryIdx))
          end
      end
  end.

(** [modifyLinkEntry].  [newEntry] is a new object: after the assignment it
    is the element [linkEntryIdx] of [tmpLinkEntries], which is its address
    in the pass of [recomputeLinkEntries]; the pass changes it in place and
    pushes it or not.  [st] is the state in which the pass of the call of
    [recomputeEntries] ends.  [entry === newEntry] finds the entry that is
    the link at that address: the link at the position [j] of the links of
    the pass is the entry tagged [oldFileEntries.length + j] before the
    sort. *)
Definition modifyLinkEntry (oldFileEntries : list EntryFile)
  (oldLinkEntries : list EntryLink) (oldEntry newEntry : EntryLink)
  : option (option (list EntryLink * Entries * nat)) :=
  match list_find (fun entry => key entry = key oldEntry) oldLinkEntries with
  | None => Some None
  | Some (linkEntryIdx, _) =>
      let tmpLinkEntries := <[linkEntryIdx := newEntry]> oldLinkEntries in
      match recomputeLinkState oldFileEntries tmpLinkEntries,
            recomputeEntriesTagged oldFileEntries tmpLinkEntries with
      | Some st, Some (newLinkEntries, indexed) =>
          let newEntries := snd <$> indexed in
          match list_find (fun a => a = linkEntryIdx) (linkEntries st) with
          | None => Some None
          | Some (j, _) =>
              match list_find (fun te => te.1 = (length oldFileEntries + j)%nat) indexed with
              | None => Some None
              | Some (newActiveEntryIdx, _) =>
                  Some (Some (newLinkEntries, newEntries, newActiveEntryIdx))
              end
          end
      | _, _ => None
      end
  end.

End Modify.

End AppState.

(* ===================================================================== *)
(** * entry_utils.ts: the link DB records and the metadata of an entry *)
(* ===================================================================== *)

Module LinkDB.
Import Neverthrow Repos Types Host EntryUtils.

(** [StoredLink], as the two conversions read and write it. *)
Record StoredLink := {
  storedTitle : string;
  storedTarget : string;
  storedOwnLabels : list RawLabel;
  standalone : bool;
}.

(** [io.serializeStoredLinks] and [io.parseStoredLinks], not under src/. *)
Class StoredLinksIo := {
  serializeStoredLinks : list StoredLink -> string;
  parseStoredLinks : string -> Result (list StoredLink) string;
}.

Section Conversions.
Context `{RepoId} `{StoredLinksIo}.

(** The test of the [filter] of [serializeLinkEntries]. *)
Definition storedIn (repo : Repo) (linkEntry : EntryLink) : bool :=
  existsb (fun refRepo => String.eqb (getRepoId refRepo) (getRepoId repo))
    (refRepos (content linkEntry))
  || match standaloneRepo (content linkEntry) with
     | Some standaloneRepo => String.eqb (getRepoId standaloneRepo) (getRepoId repo)
     | None => false
     end.

(** The callback of the [map] of [serializeLinkEntries]. *)
Definition toStoredLink (repo : Repo) (linkEntry : EntryLink) : StoredLink :=
  {| storedTitle := title linkEntry;
     storedTarget := target (content linkEntry);
     storedOwnLabels := ownLabels (content linkEntry);
     standalone :=
       match standaloneRepo (content linkEntry) with
       | Some standaloneRepo => String.eqb (getRepoId standaloneRepo) (getRepoId repo)
       | None => false
       end |}.

Definition toStoredLinks (repo : Repo) (linkEntries : list EntryLink) : list StoredLink :=
  toStoredLink repo <$> filter (fun linkEntry => storedIn repo linkEntry = true) linkEntries.

Definition serializeLinkEntries (repo : Repo) (linkEntries : list EntryLink) : string :=
  serializeStoredLinks (toStoredLinks repo linkEntries).

(** The callback of the inner [map] of [deserializeLinkEntries]. *)
Definition fromStoredLink (repo : Repo) (storedLink : StoredLink) : EntryLink :=
  recomputeKeyLink
    {| title := storedTitle storedLink;
       priority := 0;
       labels := storedOwnLabels storedLink;
       content := {| target := storedTarget storedLink;
                     referencedBy := [];
                     standaloneRepo := if standalone storedLink then Some repo else None;
                     refRepos := [];
                     refLocations := [];
                     ownLabels := storedOwnLabels storedLink |};
       key := None;
       idx := None |}.

Definition deserializeLinkEntries (repo : Repo) (content : option string)
  : Result (list EntryLink) string :=
  let storedLinks :=
    match content with
    | Some content => parseStoredLinks content
    | None => Ok []
    end in
  match storedLinks with
  | Ok storedLinks => Ok (fromStoredLink repo <$> storedLinks)
  | Err e => Err e
  end.

End Conversions.

(** What a link keeps when it is stored for [repo] and read back. *)
Definition restoredFrom `{RepoId} (repo : Repo) (linkEntry restored : EntryLink) : Prop :=
  title restored = title linkEntry /\
  target (content restored) = target (content linkEntry) /\
  ownLabels (content restored) = ownLabels (content linkEntry) /\
  labels restored = ownLabels (content linkEntry) /\
  priority restored = 0 /\
  key restored = Some ("__link_" +:+ target (content linkEntry)) /\
  referencedBy (content restored) = [] /\
  refRepos (content restored) = [] /\
  refLocations (content restored) = [] /\
  standaloneRepo (content restored)
  = match standaloneRepo (content linkEntry) with
    | Some standaloneRepo =>
        if String.eqb (getRepoId standaloneRepo) (getRepoId repo) then Some repo else None
    | None => None
    end.

End LinkDB.

Module MetaDataOf.
Import Repos Types Io.

(** [extractMetaData] *)
Definition extractMetaData (entry : EntryFile) : MetaData :=
  {| labels := Types.labels entry;
     timeCreated := Types.timeCreated (fileInfo (content entry));
     timeUpdated := Types.timeUpdated (fileInfo (content entry)) |}.

Section Origin.
Import Neverthrow FileMaps PathUtilsExt Extraction.
Context `{RepoId} `{IoFns} `{PathFns}.

(** [entry] is built from [file] of [fileMap]: the file is no notemarks
    file, and the entry is constructed with the metadata parsed from the
    sidecar of the file, or with new metadata when the file has no sidecar
    or the content of the sidecar does not parse.  A sidecar without content
    has no fetch error. *)
Definition builtFrom (repo : Repo) (fileMap : FileMap) (file : File) (entry : EntryFile)
  : Prop :=
  isNotemarksFile (path file) = false /\
  exists metaData,
    constructFileEntry repo file metaData = Some entry /\
    match get fileMap (getAssociatedMetaPath (path file)) with
    | Some metaFile =>
        match FileMaps.content metaFile with
        | Some metaContent =>
            parseMetaData metaContent = Ok metaData \/
            ((exists e, parseMetaData metaContent = Err e) /\ metaData = createNewMetaData)
        | None => error metaFile = None /\ metaData = createNewMetaData
        end
    | None => metaData = createNewMetaData
    end.

End Origin.

End MetaDataOf.
(* ===================================================================== *)
(** * Path codec: round trip *)
(* ===================================================================== *)

Module PathUtilsProofs.
Import PathUtils.

Lemma replaceAll_app c b s1 s2 :
  replaceAll c b (s1 ++ s2) = replaceAll c b s1 ++ replaceAll c b s2.
Proof. unfold replaceAll. apply flat_map_app. Qed.

Lemma escapeTitle_cons x s : escapeTitle (x :: s) = escapeUnit x ++ escapeTitle s.
Proof.
  unfold escapeTitle.
  change (x :: s) with ([x] ++ s).
  rewrite !replaceAll_app. f_equal.
  unfold escapeUnit, replaceAll. simpl.
  destruct (N.eqb_spec x BIG_REVERSE_SOLIDUS) as [->|H1]; [reflexivity|].
  simpl.
  destruct (N.eqb_spec x BIG_SOLIDUS) as [->|H2]; [reflexivity|].
  simpl.
  destruct (N.eqb_spec x SOLIDUS) as [->|H3]; reflexivity.
Qed.

Lemma unescape_escapeUnit x rest acc :
  unescapeTitle_loop (escapeUnit x ++ rest) false acc
  = unescapeTitle_loop rest false (acc ++ [x]).
Proof.
  unfold escapeUnit.
  destruct (N.eqb_spec x BIG_REVERSE_SOLIDUS) as [->|H1]; [reflexivity|].
  destruct (N.eqb_spec x BIG_SOLIDUS) as [->|H2]; [reflexivity|].
  destruct (N.eqb_spec x SOLIDUS) as [->|H3]; [reflexivity|].
  simpl.
  destruct (N.eqb_spec x BIG_REVERSE_SOLIDUS); [contradiction|].
  destruct (N.eqb_spec x BIG_SOLIDUS); [contradiction|].
  reflexivity.
Qed.

Lemma unescape_loop_escape t : forall acc,
  unescapeTitle_loop (escapeTitle t) false acc = acc ++ t.
Proof.
  induction t as [|x t IH]; intros acc.
  - simpl. now rewrite app_nil_r.
  - rewrite escapeTitle_cons, unescape_escapeUnit, IH.
    now rewrite <- app_assoc.
Qed.

Lemma unescape_escape t : unescapeTitle (escapeTitle t) = t.
Proof. unfold unescapeTitle. now rewrite unescape_loop_escape. Qed.

(** ** Full stops and [lastIndexOf] *)

Lemma has_dot_app s1 s2 : has_dot (s1 ++ s2) = has_dot s1 || has_dot s2.
Proof. unfold has_dot. apply existsb_app. Qed.

Lemma has_dot_escapeUnit x : has_dot (escapeUnit x) = N.eqb FULL_STOP x.
Proof.
  unfold escapeUnit.
  destruct (N.eqb_spec x BIG_REVERSE_SOLIDUS) as [->|H1]; [reflexivity|].
  destruct (N.eqb_spec x BIG_SOLIDUS) as [->|H2]; [reflexivity|].
  destruct (N.eqb_spec x SOLIDUS) as [->|H3]; [reflexivity|].
  unfold has_dot. cbn [existsb]. now rewrite orb_false_r.
Qed.

Lemma has_dot_escapeTitle t : has_dot (escapeTitle t) = has_dot t.
Proof.
  induction t as [|x t IH]; [reflexivity|].
  rewrite escapeTitle_cons, has_dot_app, has_dot_escapeUnit, IH. reflexivity.
Qed.

Lemma lastIndexOf_from_no_dot s : forall i found,
  has_dot s = false -> lastIndexOf_from FULL_STOP s i found = found.
Proof.
  induction s as [|x s IH]; intros i found H; [reflexivity|].
  change (has_dot (x :: s)) with (N.eqb FULL_STOP x || has_dot s) in H.
  apply orb_false_iff in H as [Hx Hs].
  cbn [lastIndexOf_from]. rewrite N.eqb_sym, Hx. now apply IH.
Qed.

Lemma lastIndexOf_from_dot s1 s2 : forall i found,
  has_dot s2 = false ->
  lastIndexOf_from FULL_STOP (s1 ++ FULL_STOP :: s2) i found
  = i + Z.of_nat (length s1).
Proof.
  induction s1 as [|x s1 IH]; intros i found H.
  - cbn [app lastIndexOf_from]. rewrite N.eqb_refl.
    rewrite lastIndexOf_from_no_dot by assumption. cbn [length]. lia.
  - cbn [app lastIndexOf_from]. rewrite IH by assumption.
    rewrite length_cons. lia.
Qed.

Lemma substring_prefix s1 s2 :
  substring (s1 ++ s2) 0 (Z.of_nat (length s1)) = s1.
Proof.
  unfold substring. rewrite length_app.
  replace (Z.max 0 (Z.min 0 _)) with 0 by lia.
  replace (Z.max 0 (Z.min (Z.of_nat (length s1)) _)) with (Z.of_nat (length s1)) by lia.
  replace (Z.min 0 (Z.of_nat (length s1))) with 0 by lia.
  replace (Z.max 0 (Z.of_nat (length s1))) with (Z.of_nat (length s1)) by lia.
  rewrite Z.sub_0_r, Nat2Z.id. change (Z.to_nat 0) with 0%nat.
  rewrite drop_0. apply take_app_length.
Qed.

Lemma lastIndexOf_no_dot s : has_dot s = false -> lastIndexOf FULL_STOP s = -1.
Proof. intros H. unfold lastIndexOf. now apply lastIndexOf_from_no_dot. Qed.

Lemma lastIndexOf_dot s1 s2 :
  has_dot s2 = false ->
  lastIndexOf FULL_STOP (s1 ++ FULL_STOP :: s2) = Z.of_nat (length s1).
Proof. intros H. unfold lastIndexOf. now rewrite lastIndexOf_from_dot. Qed.

(** A filename without any full stop is unescaped as a whole. *)
Lemma filenameToTitle_plain t :
  has_dot t = false -> filenameToTitle (escapeTitle t) = t.
Proof.
  intros H. unfold filenameToTitle.
  rewrite lastIndexOf_no_dot by now rewrite has_dot_escapeTitle.
  cbn [Z.eqb]. apply unescape_escape.
Qed.

(** With an extension free of full stops, the last full stop of the filename
    is the one [titleToFilename] wrote. *)
Lemma filenameToTitle_dotted t e :
  has_dot e = false -> filenameToTitle (escapeTitle t ++ [FULL_STOP] ++ e) = t.
Proof.
  intros H. unfold filenameToTitle. cbn [app].
  rewrite lastIndexOf_dot by assumption.
  destruct (Z.eqb_spec (Z.of_nat (length (escapeTitle t))) (-1)) as [E|_]; [lia|].
  rewrite substring_prefix. apply unescape_escape.
Qed.

(** C1, as amended: unescaping undoes escaping for every title, also one
    that contains "/", "\", U+29F8 or U+29F9; and
    [filenameToTitle (titleToFilename t ext) = t] whenever the extension is a
    non-empty string without a full stop, or the extension is absent or empty
    and the title contains no full stop. *)
Theorem filenameToTitle_titleToFilename (t : jsstring) (ext : option jsstring) :
  unescapeTitle (escapeTitle t) = t /\
  (roundtrip_safe t ext = true -> filenameToTitle (titleToFilename t ext) = t).
Proof.
  split; [apply unescape_escape|].
  unfold roundtrip_safe, titleToFilename.
  destruct ext as [[|c e]|]; intros H; apply negb_true_iff in H.
  - cbn [length Z.of_nat Z.ltb Z.compare]. now apply filenameToTitle_plain.
  - replace (0 <? Z.of_nat (length (c :: e))) with true
      by (symmetry; apply Z.ltb_lt; rewrite length_cons; lia).
    now apply filenameToTitle_dotted.
  - now apply filenameToTitle_plain.
Qed.

(** The title "a/b\" followed by U+29F8 and U+29F9, with extension "md". *)
Lemma filenameToTitle_titleToFilename_witness :
  roundtrip_safe [0x61; 0x2F; 0x62; 0x5C; 0x29F8; 0x29F9]%N (Some [0x6D; 0x64]%N) = true /\
  filenameToTitle
    (titleToFilename [0x61; 0x2F; 0x62; 0x5C; 0x29F8; 0x29F9]%N (Some [0x6D; 0x64]%N))
  = [0x61; 0x2F; 0x62; 0x5C; 0x29F8; 0x29F9]%N.
Proof.
  split; [reflexivity|].
  apply (proj2 (filenameToTitle_titleToFilename _ _)). reflexivity.
Defined.

(** C1, as stated, fails: without an extension the title "a.b" comes back as
    "a", because [filenameToTitle] strips what follows the last full stop. *)
Lemma roundtrip_dotted_title_counterexample :
  ~ (forall (t : jsstring) (ext : option jsstring),
        filenameToTitle (titleToFilename t ext) = t).
Proof.
  intros H. specialize (H [0x61; 0x2E; 0x62]%N None). vm_compute in H. discriminate H.
Qed.

End PathUtilsProofs.

(* ===================================================================== *)
(** * Tree merge *)
(* ===================================================================== *)

Module ApplyOpsProofs.
Import Neverthrow Repos GitOps Octokit.

(** ** The two loops as list comprehensions *)

Lemma foldl_mergeWrite ops : forall acc,
  foldl mergeWrite acc ops = acc ++ omap writeBlob ops.
Proof.
  induction ops as [|op ops IH]; intros acc; cbn [foldl omap].
  - now rewrite app_nil_r.
  - rewrite IH. destruct op; cbn [mergeWrite writeBlob]; try reflexivity.
    now rewrite <- app_assoc.
Qed.

Lemma foldl_mergeEntry ops entries : forall acc,
  foldl (mergeEntry ops) acc entries = acc ++ keptEntries ops entries.
Proof.
  unfold keptEntries.
  induction entries as [|entry entries IH]; intros acc; cbn [foldl].
  - now rewrite app_nil_r.
  - rewrite IH. rewrite (IH (mergeEntry ops [] entry)).
    rewrite app_assoc. f_equal.
    unfold mergeEntry.
    destruct (scanOps ops (path entry) (path entry)) as [keep dst].
    destruct (if String.eqb (type entry) "tree" then false else keep); [reflexivity|].
    now rewrite app_nil_r.
Qed.

Lemma keptEntries_cons ops entry entries :
  keptEntries ops (entry :: entries) = mergeEntry ops [] entry ++ keptEntries ops entries.
Proof. unfold keptEntries at 1. cbn [foldl]. apply foldl_mergeEntry. Qed.

Lemma applyOps_split ops oldTree :
  applyOps ops oldTree = keptEntries ops (tree oldTree) ++ omap writeBlob ops.
Proof. unfold applyOps. rewrite foldl_mergeWrite. reflexivity. Qed.

(** ** The inner loop *)

(** The loop keeps the entry exactly when no write or delete names its path. *)
Lemma scanOps_keep ops p : forall d,
  (scanOps ops p d).1 = negb (existsb (targets p) ops).
Proof.
  induction ops as [|op ops IH]; intros d; [reflexivity|].
  destruct op as [q c|q|f t]; cbn [scanOps existsb targets].
  - destruct (String.eqb q p); [reflexivity|]. apply IH.
  - destruct (String.eqb q p); [reflexivity|]. apply IH.
  - destruct (String.eqb f p); apply IH.
Qed.

(** Ops that neither target nor move the path leave the destination alone. *)
Lemma scanOps_untouched ops p : forall d,
  existsb (targets p) ops = false ->
  existsb (movesFrom p) ops = false ->
  scanOps ops p d = (true, d).
Proof.
  induction ops as [|op ops IH]; intros d Ht Hm; [reflexivity|].
  cbn [existsb] in Ht, Hm.
  apply orb_false_iff in Ht as [Ht1 Ht2]. apply orb_false_iff in Hm as [Hm1 Hm2].
  destruct op as [q c|q|f t]; cbn [scanOps targets movesFrom] in *.
  - rewrite Ht1. now apply IH.
  - rewrite Ht1. now apply IH.
  - rewrite Hm1. now apply IH.
Qed.

(** The last move from the path decides the destination. *)
Lemma scanOps_last_move pre p dst post : forall d,
  existsb (targets p) (pre ++ Move p dst :: post) = false ->
  existsb (movesFrom p) post = false ->
  scanOps (pre ++ Move p dst :: post) p d = (true, dst).
Proof.
  induction pre as [|op pre IH]; intros d Ht Hm.
  - cbn [app scanOps]. rewrite String.eqb_refl.
    cbn [app existsb targets] in Ht. now apply scanOps_untouched.
  - cbn [app existsb] in Ht. apply orb_false_iff in Ht as [Ht1 Ht2].
    destruct op as [q c|q|f t]; cbn [app scanOps targets] in *.
    + rewrite Ht1. now apply IH.
    + rewrite Ht1. now apply IH.
    + destruct (String.eqb f p); now apply IH.
Qed.

(** Where the destination of a kept entry comes from: its own path, or the
    target of a move from its path. *)
Lemma scanOps_destination ops p : forall d,
  (scanOps ops p d).2 = d \/ Move p (scanOps ops p d).2 ∈ ops.
Proof.
  induction ops as [|op ops IH]; intros d; [now left|].
  destruct op as [q c|q|f t]; cbn [scanOps].
  - destruct (String.eqb q p); [now left|].
    destruct (IH d) as [H|H]; [now left|right; now apply list_elem_of_further].
  - destruct (String.eqb q p); [now left|].
    destruct (IH d) as [H|H]; [now left|right; now apply list_elem_of_further].
  - destruct (String.eqb_spec f p) as [->|Hne].
    + destruct (IH t) as [H|H].
      * right. rewrite H. apply list_elem_of_here.
      * right. now apply list_elem_of_further.
    + destruct (IH d) as [H|H]; [now left|right; now apply list_elem_of_further].
Qed.

(** ** What the merged tree contains *)

Lemma elem_of_mergeEntry ops entry e :
  e ∈ mergeEntry ops [] entry ->
  String.eqb (type entry) "tree" = false /\
  existsb (targets (path entry)) ops = false /\
  e = keptAs (scanOps ops (path entry) (path entry)).2 entry.
Proof.
  unfold mergeEntry.
  pose proof (scanOps_keep ops (path entry) (path entry)) as Hk.
  destruct (scanOps ops (path entry) (path entry)) as [keep dst]. cbn [fst snd] in *.
  destruct (String.eqb (type entry) "tree"); [intros H; inversion H|].
  destruct keep; [|intros H; inversion H].
  cbn [app]. intros H. apply list_elem_of_singleton in H. subst e.
  repeat split. symmetry in Hk. now apply negb_true_iff in Hk.
Qed.

Lemma elem_of_keptEntries ops entries e :
  e ∈ keptEntries ops entries ->
  exists entry, entry ∈ entries /\
    String.eqb (type entry) "tree" = false /\
    existsb (targets (path entry)) ops = false /\
    e = keptAs (scanOps ops (path entry) (path entry)).2 entry.
Proof.
  induction entries as [|entry entries IH].
  - intros H. inversion H.
  - rewrite keptEntries_cons. intros H. apply elem_of_app in H as [H|H].
    + exists entry. split; [apply list_elem_of_here|]. now apply elem_of_mergeEntry.
    + destruct (IH H) as (entry' & Hin & Hrest).
      exists entry'. split; [now apply list_elem_of_further|exact Hrest].
Qed.

Lemma keptEntries_elem_of ops entries entry dst :
  entry ∈ entries ->
  String.eqb (type entry) "tree" = false ->
  scanOps ops (path entry) (path entry) = (true, dst) ->
  keptAs dst entry ∈ keptEntries ops entries.
Proof.
  intros Hin Hty Hscan.
  induction Hin as [entry entries|entry entry' entries Hin IH];
    rewrite keptEntries_cons; apply elem_of_app.
  - left. unfold mergeEntry. rewrite Hscan, Hty. cbn [app]. apply list_elem_of_here.
  - right. now apply IH.
Qed.

Lemma elem_of_writeBlobs (ops : list GitOp) (e : GitCreateTreeParamsTree) :
  e ∈ omap writeBlob ops ->
  exists p c, Write p c ∈ ops /\ writeBlob (Write p c) = Some e.
Proof.
  intros H. apply list_elem_of_omap in H as (op & Hin & Hop).
  destruct op as [p c|p|f t]; try discriminate Hop.
  now exists p, c.
Qed.

Lemma existsb_targets_Remove (ops : list GitOp) (p : string) :
  Remove p ∈ ops -> existsb (targets p) ops = true.
Proof.
  intros H. apply existsb_exists. exists (Remove p).
  split; [now apply list_elem_of_In|]. cbn [targets]. apply String.eqb_refl.
Qed.

(** C2, as amended: the merged tree never contains an entry of type "tree";
    an entry of the merged tree whose path a delete op names is never the old
    entry of that path, it is the blob appended for a write op on that path
    or an old entry of another path that a move op renamed to it; and for the
    old tree with the directory node docs and the file docs/a.md, the single
    op delete(docs/a.md) gives the empty tree. *)
Theorem applyOps_drops_trees_and_deleted :
  (forall (ops : list GitOp) (oldTree : GitGetTreeResponseData) e,
      e ∈ applyOps ops oldTree -> new_type e <> "tree") /\
  (forall (ops : list GitOp) (oldTree : GitGetTreeResponseData) e p,
      e ∈ applyOps ops oldTree -> Remove p ∈ ops -> new_path e = p ->
      (exists c, Write p c ∈ ops /\ writeBlob (Write p c) = Some e) \/
      (exists entry, entry ∈ tree oldTree /\ path entry <> p /\
                     Move (path entry) p ∈ ops /\ e = keptAs p entry)) /\
  (forall dirPath dirMode dirSha fileMode fileType fileSha treeSha isTruncated,
      applyOps [Remove "docs/a.md"]
        {| tree_sha := treeSha;
           tree := [ {| path := dirPath; mode := dirMode; type := "tree"; sha := dirSha |};
                     {| path := "docs/a.md"; mode := fileMode; type := fileType;
                        sha := fileSha |} ];
           truncated := isTruncated |} = []).
Proof.
  split; [|split].
  - intros ops oldTree e He. rewrite applyOps_split in He.
    apply elem_of_app in He as [He|He].
    + apply elem_of_keptEntries in He as (entry & _ & Hty & _ & ->).
      cbn [keptAs new_type]. intros E. rewrite E in Hty. discriminate Hty.
    + apply elem_of_writeBlobs in He as (p & c & _ & Hb).
      cbn [writeBlob] in Hb. injection Hb as <-. cbn [new_type]. discriminate.
  - intros ops oldTree e p He Hrm Hp. rewrite applyOps_split in He.
    apply elem_of_app in He as [He|He].
    + right. apply elem_of_keptEntries in He as (entry & Hin & _ & Ht & ->).
      cbn [keptAs new_path] in Hp.
      assert (Hne : path entry <> p).
      { intros E. rewrite E in Ht.
        rewrite (existsb_targets_Remove _ _ Hrm) in Ht. discriminate Ht. }
      exists entry. rewrite Hp.
      destruct (scanOps_destination ops (path entry) (path entry)) as [Hd|Hd].
      * rewrite Hp in Hd. now contradiction Hne.
      * rewrite Hp in Hd. now repeat split.
    + left. apply elem_of_writeBlobs in He as (q & c & Hin & Hb).
      pose proof Hb as Hb'. cbn [writeBlob] in Hb'. injection Hb' as <-.
      cbn [new_path] in Hp. subst q. now exists c.
  - intros dirPath dirMode dirSha fileMode fileType fileSha treeSha isTruncated.
    unfold applyOps. cbn [tree foldl mergeWrite].
    unfold mergeEntry. cbn [path type scanOps].
    rewrite !String.eqb_refl.
    destruct (String.eqb "docs/a.md" dirPath); destruct (String.eqb fileType "tree");
      reflexivity.
Qed.

(** An op list that deletes docs/a.md, an old tree with a directory node and
    that file: nothing of either is in the merged tree. *)
Lemma applyOps_drops_trees_and_deleted_witness :
  let ops := [Remove "docs/a.md"; Write "b.md" "text"] in
  let oldTree :=
    {| tree_sha := "t0";
       tree := [ {| path := "docs"; mode := "040000"; type := "tree"; sha := "d0" |};
                 {| path := "docs/a.md"; mode := "100644"; type := "blob"; sha := "b0" |} ];
       truncated := false |} in
  let e := {| new_path := "b.md"; new_mode := "100644"; new_type := "blob";
              new_sha := None; new_content := Some "text" |} in
  e ∈ applyOps ops oldTree /\ new_type e <> "tree".
Proof.
  intros ops oldTree e.
  assert (He : e ∈ applyOps ops oldTree) by (vm_compute; apply list_elem_of_here).
  split; [exact He|].
  exact (proj1 applyOps_drops_trees_and_deleted ops oldTree e He).
Defined.

(** C2, as stated, fails: a write op on the path that another op of the list
    deletes appends a blob for that path. *)
Lemma applyOps_deleted_path_counterexample :
  ~ (forall (ops : list GitOp) (oldTree : GitGetTreeResponseData) e,
        e ∈ applyOps ops oldTree ->
        new_type e <> "tree" /\ (forall p, Remove p ∈ ops -> new_path e <> p)).
Proof.
  intros H.
  specialize (H [Remove "a.md"; Write "a.md" "x"]
                {| tree_sha := "t0"; tree := []; truncated := false |}
                {| new_path := "a.md"; new_mode := "100644"; new_type := "blob";
                   new_sha := None; new_content := Some "x" |}).
  destruct H as [_ H]; [vm_compute; apply list_elem_of_here|].
  apply (H "a.md"); [apply list_elem_of_here|reflexivity].
Qed.

(** ** One entry for an old entry *)

Lemma last_cons_default {A} (l : list A) : forall x, last (x :: l) = Some (default x (last l)).
Proof.
  induction l as [|y l IH]; intros x; [reflexivity|].
  change (last (x :: y :: l)) with (last (y :: l)). now rewrite !IH.
Qed.

(** Without a write or delete of the path, the loop ends with the target of
    the last move from the path. *)
Lemma scanOps_destinationOf (ops : list GitOp) (p : string) : forall d,
  existsb (targets p) ops = false ->
  scanOps ops p d = (true, default d (last (omap (moveTarget p) ops))).
Proof.
  induction ops as [|op ops IH]; intros d Ht; [reflexivity|].
  cbn [existsb] in Ht. apply orb_false_iff in Ht as [Hop Ht].
  destruct op as [q c|q|f t]; cbn [scanOps omap list_omap moveTarget]; cbn [targets] in Hop.
  - rewrite Hop. now apply IH.
  - rewrite Hop. now apply IH.
  - destruct (String.eqb f p); [|now apply IH].
    rewrite IH by assumption. now rewrite last_cons_default.
Qed.

Lemma mergeEntry_keptOnce (ops : list GitOp) (entry : GitTreeEntry) :
  mergeEntry ops [] entry = keptOnce ops entry.
Proof.
  unfold mergeEntry, keptOnce.
  destruct (existsb (targets (path entry)) ops) eqn:Ht.
  - pose proof (scanOps_keep ops (path entry) (path entry)) as Hkeep.
    rewrite Ht in Hkeep. destruct (scanOps ops (path entry) (path entry)) as [keep d].
    cbn in Hkeep. subst keep. rewrite orb_true_r.
    destruct (String.eqb (type entry) "tree"); reflexivity.
  - rewrite scanOps_destinationOf by assumption. fold (destinationOf ops (path entry)).
    destruct (String.eqb (type entry) "tree"); reflexivity.
Qed.

Lemma keptEntries_keptOnce (ops : list GitOp) (entries : list GitTreeEntry) :
  keptEntries ops entries = entries ≫= keptOnce ops.
Proof.
  induction entries as [|entry entries IH]; [reflexivity|].
  now rewrite keptEntries_cons, mergeEntry_keptOnce, IH.
Qed.

Lemma destinationOf_moved (ops : list GitOp) (p : string) :
  destinationOf ops p = p \/ Move p (destinationOf ops p) ∈ ops.
Proof.
  unfold destinationOf.
  destruct (last (omap (moveTarget p) ops)) as [t|] eqn:Hlast; [right|now left].
  cbn [default]. apply last_Some in Hlast as [l Hl].
  assert (Hin : t ∈ omap (moveTarget p) ops).
  { rewrite Hl. apply elem_of_app. right. apply list_elem_of_here. }
  apply list_elem_of_omap in Hin as (op & Hop & Ht).
  destruct op as [q c|q|f t']; try discriminate Ht. cbn [moveTarget] in Ht.
  destruct (String.eqb_spec f p) as [->|_]; [|discriminate Ht].
  now injection Ht as ->.
Qed.

Lemma destinationOf_last_move (pre post : list GitOp) (p dst : string) :
  existsb (targets p) (pre ++ Move p dst :: post) = false ->
  existsb (movesFrom p) post = false ->
  destinationOf (pre ++ Move p dst :: post) p = dst.
Proof.
  intros Ht Hm.
  pose proof (scanOps_last_move pre p dst post p Ht Hm) as Hloop.
  rewrite (scanOps_destinationOf _ p p Ht) in Hloop.
  now injection Hloop.
Qed.

(** C4, as amended: an old entry that is not a directory node, whose path no
    write or delete op of the list names (before or after the move) and that
    is the source of a move op, gives exactly one entry of the merged tree:
    the entry under the destination of the last move from its path, with its
    mode, type and sha.  Nothing of it stays under its source path: when the
    destination is another path, an entry of the merged tree under the
    source path is another old entry that a move op renamed to that path.
    The merged tree is, for every old entry in the order of the old tree,
    nothing when it is a directory node or a write or delete op names its
    path and otherwise the one entry under its destination, followed by one
    blob of mode 100644 per write op, in the order of the ops, with that
    op's path and content. *)
Theorem applyOps_moves_and_writes (ops : list GitOp) (oldTree : GitGetTreeResponseData) :
  (forall entry pre dst post,
      entry ∈ tree oldTree ->
      type entry <> "tree" ->
      ops = pre ++ Move (path entry) dst :: post ->
      existsb (targets (path entry)) ops = false ->
      existsb (movesFrom (path entry)) post = false ->
      keptOnce ops entry = [keptAs dst entry] /\
      keptAs dst entry ∈ applyOps ops oldTree /\
      (dst <> path entry ->
       forall e, e ∈ applyOps ops oldTree -> new_path e = path entry ->
         exists other, other ∈ tree oldTree /\ path other <> path entry /\
                       Move (path other) (path entry) ∈ ops /\
                       e = keptAs (path entry) other)) /\
  applyOps ops oldTree = (tree oldTree ≫= keptOnce ops) ++ omap writeBlob ops /\
  (forall p c, writeBlob (Write p c)
               = Some {| new_path := p; new_mode := "100644"; new_type := "blob";
                         new_sha := None; new_content := Some c |}) /\
  (forall p, writeBlob (Remove p) = None) /\
  (forall f t, writeBlob (Move f t) = None).
Proof.
  assert (Hsplit : applyOps ops oldTree
                   = (tree oldTree ≫= keptOnce ops) ++ omap writeBlob ops)
    by now rewrite applyOps_split, keptEntries_keptOnce.
  split; [|split; [exact Hsplit|repeat split]].
  intros entry pre dst post Hin Hty Hops Ht Hm.
  assert (Hdst : destinationOf ops (path entry) = dst).
  { rewrite Hops in *. now apply destinationOf_last_move. }
  assert (Hnotree : String.eqb (type entry) "tree" = false)
    by (destruct (String.eqb_spec (type entry) "tree"); [contradiction|reflexivity]).
  assert (Honce : keptOnce ops entry = [keptAs dst entry]).
  { unfold keptOnce. now rewrite Hnotree, Ht, Hdst. }
  split; [exact Honce|]. split.
  - rewrite Hsplit. apply elem_of_app. left. apply list_elem_of_bind.
    exists entry. split; [|assumption]. rewrite Honce. apply list_elem_of_here.
  - intros Hne e He Hp. rewrite Hsplit in He. apply elem_of_app in He as [He|He].
    + apply list_elem_of_bind in He as (other & He & Hother).
      unfold keptOnce in He.
      destruct (String.eqb (type other) "tree" || existsb (targets (path other)) ops);
        [inversion He|].
      apply list_elem_of_singleton in He. subst e. cbn [keptAs new_path] in Hp.
      assert (Hpath : path other <> path entry).
      { intros E. rewrite E, Hdst in Hp. contradiction. }
      exists other. split; [assumption|]. split; [assumption|].
      rewrite Hp. split; [|reflexivity].
      destruct (destinationOf_moved ops (path other)) as [Hsame|Hmoved].
      * rewrite Hp in Hsame. now contradiction Hpath.
      * now rewrite Hp in Hmoved.
    + exfalso. apply elem_of_writeBlobs in He as (p & c & Hw & Hb).
      cbn [writeBlob] in Hb. injection Hb as <-. cbn [new_path] in Hp. subst p.
      assert (Htrue : existsb (targets (path entry)) ops = true).
      { apply existsb_exists. exists (Write (path entry) c).
        split; [now apply list_elem_of_In|]. cbn [targets]. apply String.eqb_refl. }
      congruence.
Qed.

(** b.md is renamed to c.md while a.md is rewritten: the merged tree has the
    old b.md under c.md and the new a.md, and nothing under b.md. *)
Lemma applyOps_moves_and_writes_witness :
  let ops := [Write "a.md" "new"; Move "b.md" "c.md"] in
  let entry := {| path := "b.md"; mode := "100755"; type := "blob"; sha := "b1" |} in
  let oldTree :=
    {| tree_sha := "t0";
       tree := [ {| path := "a.md"; mode := "100644"; type := "blob"; sha := "b0" |};
                 entry ];
       truncated := false |} in
  keptOnce ops entry = [keptAs "c.md" entry] /\
  keptAs "c.md" entry ∈ applyOps ops oldTree /\
  (forall e, e ∈ applyOps ops oldTree -> new_path e <> "b.md").
Proof.
  intros ops entry oldTree.
  destruct (proj1 (applyOps_moves_and_writes ops oldTree) entry [Write "a.md" "new"] "c.md" [])
    as (Honce & Hin & Hgone).
  - apply list_elem_of_further, list_elem_of_here.
  - discriminate.
  - reflexivity.
  - reflexivity.
  - reflexivity.
  - split; [exact Honce|]. split; [exact Hin|].
    intros e He Hp.
    destruct (Hgone ltac:(discriminate) e He Hp) as (other & _ & _ & Hmove & _).
    apply elem_of_cons in Hmove as [Hmove|Hmove]; [discriminate Hmove|].
    apply list_elem_of_singleton in Hmove. discriminate Hmove.
Defined.

(** C4, as stated, fails: a delete op of the source path that comes after the
    move still drops the entry. *)
Lemma applyOps_move_then_delete_counterexample :
  ~ (forall (ops : list GitOp) (oldTree : GitGetTreeResponseData) entry pre dst post,
        entry ∈ tree oldTree ->
        type entry <> "tree" ->
        ops = pre ++ Move (path entry) dst :: post ->
        existsb (targets (path entry)) pre = false ->
        keptAs dst entry ∈ applyOps ops oldTree).
Proof.
  intros H.
  pose (entry := {| path := "a.md"; mode := "100644"; type := "blob"; sha := "b0" |}).
  specialize (H [Move "a.md" "b.md"; Remove "a.md"]
                {| tree_sha := "t0"; tree := [entry]; truncated := false |}
                entry [] "b.md" [Remove "a.md"]).
  assert (Hin : keptAs "b.md" entry
                ∈ applyOps [Move "a.md" "b.md"; Remove "a.md"]
                    {| tree_sha := "t0"; tree := [entry]; truncated := false |}).
  { apply H; [apply list_elem_of_here|discriminate|reflexivity|reflexivity]. }
  vm_compute in Hin. inversion Hin.
Qed.

End ApplyOpsProofs.

(* ===================================================================== *)
(** * Commit sequencing *)
(* ===================================================================== *)

Module CommitProofs.
Import Neverthrow Repos GitOps Octokit.

Section Chain.
Context (remote : Remote).

(** One step of the chain: a request that is answered lets the chain go on
    with the answer, a rejected one ends it with the wrapped error. *)
Lemma andThen_wrapPromise {T U} (answer : list Request -> Request -> Result T string)
  (request : Request) (message : string) (f : T -> ResultAsync U) (sent : list Request) :
  (wrapPromise answer request message ≫= f) sent
  = match answer sent request with
    | Ok value => f value (sent ++ [request])
    | Err error =>
        (sent ++ [request], Err {| msg := message; originalError := Some error |})
    end.
Proof.
  unfold mbind, ResultAsync_bind, andThen, wrapPromise.
  destruct (answer sent request); reflexivity.
Qed.

Lemma mapAsync_wrapPromise {T U} (answer : list Request -> Request -> Result T string)
  (request : Request) (message : string) (f : T -> U) (sent : list Request) :
  mapAsync (wrapPromise answer request message) f sent
  = (sent ++ [request],
     match answer sent request with
     | Ok value => Ok (f value)
     | Err error => Err {| msg := message; originalError := Some error |}
     end).
Proof. unfold mapAsync, wrapPromise. destruct (answer sent request); reflexivity. Qed.

Lemma andThen_okAsync {T U} (value : T) (f : T -> ResultAsync U) (sent : list Request) :
  (okAsync value ≫= f) sent = f value sent.
Proof. reflexivity. Qed.

Lemma andThen_errAsync {T U} (error : WrappedError) (f : T -> ResultAsync U)
  (sent : list Request) :
  (errAsync error ≫= f) sent = (sent, Err error).
Proof. reflexivity. Qed.

(** The three reads, once answered, leave the chain at the truncation test. *)
Lemma commit_after_reads repo ops commitMsg sent oldCommitSHA oldTreeSHA oldTree :
  gitGetRef remote sent (reqGetRef repo) = Ok oldCommitSHA ->
  gitGetCommit remote (sent ++ [reqGetRef repo]) (reqGetCommit repo oldCommitSHA)
  = Ok oldTreeSHA ->
  gitGetTree remote (sent ++ [reqGetRef repo; reqGetCommit repo oldCommitSHA])
    (reqGetTree repo oldTreeSHA) = Ok oldTree ->
  commit remote repo ops commitMsg sent
  = ((if truncated oldTree then
        errAsync
          {| msg := "Tree has been truncated -- handling that many files is not supported yet.";
             originalError := None |}
      else octokitCreateTree remote repo (applyOps ops oldTree))
     ≫= (fun newTreeSHA =>
           octokitCreateCommit remote repo commitMsg oldCommitSHA newTreeSHA
           ≫= (fun newCommitSHA =>
                 mapAsync (octokitUpdateRef remote repo "heads/main" newCommitSHA)
                   (fun _ => newCommitSHA))))
      (sent ++ [reqGetRef repo; reqGetCommit repo oldCommitSHA; reqGetTree repo oldTreeSHA]).
Proof.
  intros H1 H2 H3. unfold commit, startChain.
  rewrite andThen_okAsync.
  unfold octokitGetRef at 1. rewrite andThen_wrapPromise.
  fold (reqGetRef repo). rewrite H1.
  unfold octokitGetCommit at 1. rewrite andThen_wrapPromise.
  fold (reqGetCommit repo oldCommitSHA). rewrite H2.
  unfold octokitGetTree at 1. rewrite andThen_wrapPromise.
  fold (reqGetTree repo oldTreeSHA).
  replace ((sent ++ [reqGetRef repo]) ++ [reqGetCommit repo oldCommitSHA])
    with (sent ++ [reqGetRef repo; reqGetCommit repo oldCommitSHA])
    by now rewrite <- app_assoc.
  rewrite H3.
  replace ((sent ++ [reqGetRef repo; reqGetCommit repo oldCommitSHA])
             ++ [reqGetTree repo oldTreeSHA])
    with (sent ++ [reqGetRef repo; reqGetCommit repo oldCommitSHA;
                   reqGetTree repo oldTreeSHA])
    by now rewrite <- app_assoc.
  reflexivity.
Qed.

End Chain.

(** C3: when the three reads are answered and the tree that was fetched is
    flagged truncated, [commit] ends in the truncation error after exactly
    these three requests, whatever the ops: no create-tree, create-commit or
    update-ref request is sent. *)
Theorem commit_truncated_fails_before_write (remote : Remote) (repo : Repo)
  (ops : list GitOp) (commitMsg : string) (sent : list Request)
  (oldCommitSHA oldTreeSHA : string) (oldTree : GitGetTreeResponseData) :
  gitGetRef remote sent (reqGetRef repo) = Ok oldCommitSHA ->
  gitGetCommit remote (sent ++ [reqGetRef repo]) (reqGetCommit repo oldCommitSHA)
  = Ok oldTreeSHA ->
  gitGetTree remote (sent ++ [reqGetRef repo; reqGetCommit repo oldCommitSHA])
    (reqGetTree repo oldTreeSHA) = Ok oldTree ->
  truncated oldTree = true ->
  let reads := [reqGetRef repo; reqGetCommit repo oldCommitSHA; reqGetTree repo oldTreeSHA] in
  commit remote repo ops commitMsg sent
  = (sent ++ reads,
     Err {| msg := "Tree has been truncated -- handling that many files is not supported yet.";
            originalError := None |})
  /\ forallb (fun request => negb (isWrite request)) reads = true.
Proof.
  intros H1 H2 H3 Htr reads. split; [|reflexivity].
  rewrite (commit_after_reads remote repo ops commitMsg sent _ _ _ H1 H2 H3).
  rewrite Htr. apply andThen_errAsync.
Qed.

Lemma commit_truncated_fails_before_write_witness :
  commit (acceptingRemote true) exampleRepo [Remove "docs/a.md"] "delete a" []
  = ([GetRef "user" "notes" "heads/main"; GetCommit "user" "notes" "c0";
      GetTree "user" "notes" "t0" "true"],
     Err {| msg := "Tree has been truncated -- handling that many files is not supported yet.";
            originalError := None |}).
Proof.
  refine (proj1 (commit_truncated_fails_before_write (acceptingRemote true) exampleRepo
                   [Remove "docs/a.md"] "delete a" [] "c0" "t0" _ _ _ _ _));
    reflexivity.
Defined.

(** Unfolds the next request of the chain. *)
Ltac chain_step :=
  first [ rewrite andThen_okAsync
        | rewrite andThen_errAsync
        | rewrite andThen_wrapPromise
        | rewrite mapAsync_wrapPromise ].

(** Closes a case of [commit_outcome] in which the chain has ended in an
    error. *)
Ltac chain_failed :=
  rewrite <- ?app_assoc; cbn [app];
  eexists; eexists; split; [reflexivity|];
  split; [reflexivity|]; split; [repeat constructor|]; intros ? [=].

(** Every run of [commit]: what it has sent and how it ended. *)
Lemma commit_outcome (remote : Remote) (repo : Repo)
  (ops : list GitOp) (commitMsg : string) (sent : list Request) :
  exists added result,
    commit remote repo ops commitMsg sent = (sent ++ added, result) /\
    head added = Some (reqGetRef repo) /\
    Forall refsAreHeadsMain added /\
    (forall newCommitSHA,
        result = Ok newCommitSHA ->
        exists oldCommitSHA oldTreeSHA oldTree newTreeSHA,
          added = [reqGetRef repo; reqGetCommit repo oldCommitSHA;
                   reqGetTree repo oldTreeSHA; reqCreateTree repo ops oldTree;
                   reqCreateCommit repo commitMsg oldCommitSHA newTreeSHA;
                   reqUpdateRef repo newCommitSHA]
          /\ gitCreateCommit remote
               (sent ++ [reqGetRef repo; reqGetCommit repo oldCommitSHA;
                         reqGetTree repo oldTreeSHA; reqCreateTree repo ops oldTree])
               (reqCreateCommit repo commitMsg oldCommitSHA newTreeSHA)
             = Ok newCommitSHA).
Proof.
  unfold commit, startChain.
  chain_step. unfold octokitGetRef at 1. chain_step. fold (reqGetRef repo).
  destruct (gitGetRef remote sent (reqGetRef repo)) as [oldCommitSHA|e1] eqn:H1;
    [|chain_failed].
  unfold octokitGetCommit at 1. chain_step. fold (reqGetCommit repo oldCommitSHA).
  destruct (gitGetCommit remote _ (reqGetCommit repo oldCommitSHA)) as [oldTreeSHA|e2] eqn:H2;
    [|chain_failed].
  unfold octokitGetTree at 1. chain_step. fold (reqGetTree repo oldTreeSHA).
  destruct (gitGetTree remote _ (reqGetTree repo oldTreeSHA)) as [oldTree|e3] eqn:H3;
    [|chain_failed].
  destruct (truncated oldTree); [chain_step; chain_failed|].
  unfold octokitCreateTree at 1. chain_step. fold (reqCreateTree repo ops oldTree).
  destruct (gitCreateTree remote _ (reqCreateTree repo ops oldTree)) as [newTreeSHA|e4] eqn:H4;
    [|chain_failed].
  unfold octokitCreateCommit at 1. chain_step.
  fold (reqCreateCommit repo commitMsg oldCommitSHA newTreeSHA).
  rewrite <- !app_assoc in *. cbn [app] in *.
  destruct (gitCreateCommit remote _ (reqCreateCommit repo commitMsg oldCommitSHA newTreeSHA))
    as [newCommitSHA|e5] eqn:H5; [|chain_failed].
  unfold octokitUpdateRef. chain_step. fold (reqUpdateRef repo newCommitSHA).
  rewrite <- ?app_assoc; cbn [app].
  eexists; eexists; split; [reflexivity|].
  split; [reflexivity|]. split; [repeat constructor|].
  intros sha Hsha.
  destruct (gitUpdateRef remote _ _); [|discriminate Hsha].
  injection Hsha as <-.
  exists oldCommitSHA, oldTreeSHA, oldTree, newTreeSHA. split; [reflexivity|exact H5].
Qed.

(** C10: whatever branch the repo configuration stores, the first request of
    [commit] reads the ref "heads/main"; every ref request it sends names
    "heads/main" and every ref update is forced; when it succeeds it has sent
    exactly get-ref, get-commit, get-tree, create-tree, create-commit and the
    forced update of "heads/main" to the commit just created, and it returns
    that commit's SHA. *)
Theorem commit_reads_and_updates_heads_main (remote : Remote) (repo : Repo)
  (ops : list GitOp) (commitMsg : string) (sent : list Request) :
  exists added,
    (commit remote repo ops commitMsg sent).1 = sent ++ added /\
    head added = Some (GetRef (userName repo) (repoName repo) "heads/main") /\
    Forall refsAreHeadsMain added /\
    (forall newCommitSHA,
        (commit remote repo ops commitMsg sent).2 = Ok newCommitSHA ->
        exists oldCommitSHA oldTreeSHA oldTree newTreeSHA,
          added = [reqGetRef repo; reqGetCommit repo oldCommitSHA;
                   reqGetTree repo oldTreeSHA; reqCreateTree repo ops oldTree;
                   reqCreateCommit repo commitMsg oldCommitSHA newTreeSHA;
                   UpdateRef (userName repo) (repoName repo) "heads/main" newCommitSHA true]
          /\ gitCreateCommit remote
               (sent ++ [reqGetRef repo; reqGetCommit repo oldCommitSHA;
                         reqGetTree repo oldTreeSHA; reqCreateTree repo ops oldTree])
               (reqCreateCommit repo commitMsg oldCommitSHA newTreeSHA)
             = Ok newCommitSHA) /\
    (forall b, commit remote (withBranch b repo) ops commitMsg sent
               = commit remote repo ops commitMsg sent).
Proof.
  destruct (commit_outcome remote repo ops commitMsg sent)
    as (added & result & Hrun & Hhead & Hrefs & Hok).
  assert (Hbranch : forall b, commit remote (withBranch b repo) ops commitMsg sent
                              = commit remote repo ops commitMsg sent) by reflexivity.
  exists added. rewrite Hrun in *. cbn [fst snd].
  repeat split; assumption.
Qed.

(** A repo configured for the branch "develop", a remote that accepts
    everything: the commit succeeds on "heads/main". *)
Lemma commit_reads_and_updates_heads_main_witness :
  exists added,
    (commit (acceptingRemote false) exampleRepo [Remove "docs/a.md"] "delete a" []).1
    = [] ++ added /\
    branch exampleRepo = "develop" /\
    last added = Some (UpdateRef "user" "notes" "heads/main" "c1" true) /\
    (commit (acceptingRemote false) exampleRepo [Remove "docs/a.md"] "delete a" []).2
    = Ok "c1".
Proof.
  destruct (commit_reads_and_updates_heads_main (acceptingRemote false) exampleRepo
              [Remove "docs/a.md"] "delete a" [])
    as (added & Hsent & _ & _ & Hok & _).
  destruct (Hok "c1" eq_refl) as (c & t & tr & nt & Hadded & _).
  exists added. repeat split; [exact Hsent|rewrite Hadded; reflexivity].
Defined.

End CommitProofs.

(* ===================================================================== *)
(** * Canonical ordering *)
(* ===================================================================== *)

Module SortProofs.
Import Repos Types Host EntryUtils.

(** ** The insertion sort behind [Array.prototype.sort] *)

Section InsertionSort.
Context {A : Type} (cmp : A -> A -> Z).

Lemma insertSorted_perm (x : A) (l : list A) : insertSorted cmp x l ≡ₚ x :: l.
Proof.
  induction l as [|y l IH]; cbn [insertSorted]; [reflexivity|].
  destruct (Z.leb (cmp x y) 0); [reflexivity|].
  rewrite IH. apply Permutation_swap.
Qed.

Lemma js_sort_perm (l : list A) : js_sort cmp l ≡ₚ l.
Proof.
  induction l as [|x l IH]; [reflexivity|].
  unfold js_sort in *. cbn [foldr]. rewrite insertSorted_perm. now rewrite IH.
Qed.

Lemma js_sort_length (l : list A) : length (js_sort cmp l) = length l.
Proof. apply Permutation_length, js_sort_perm. Qed.

(** Elements that do not compare equal to [z] come and go unnoticed by the
    filter for the ones that do. *)
Lemma filter_insertSorted_other (z x : A) (l : list A) :
  cmp z x <> 0 ->
  filter (fun y => cmp z y = 0) (insertSorted cmp x l) = filter (fun y => cmp z y = 0) l.
Proof.
  intros Hx. induction l as [|y l IH]; cbn [insertSorted].
  - now rewrite filter_cons_False.
  - destruct (Z.leb (cmp x y) 0).
    + now rewrite filter_cons_False.
    + rewrite !(filter_cons _ y), IH. reflexivity.
Qed.

Context (Hcmp : Consistent cmp).

Lemma consistent_total (a b : A) : ~ cmp a b <= 0 -> cmp b a <= 0.
Proof.
  intros H. assert (H' : 0 < cmp a b) by lia.
  apply (consistent_flip cmp Hcmp b a) in H'. lia.
Qed.

Lemma consistent_sym_eq (a b : A) : cmp a b = 0 -> cmp b a = 0.
Proof.
  intros H.
  pose proof (consistent_flip cmp Hcmp a b) as H1.
  pose proof (consistent_flip cmp Hcmp b a) as H2. lia.
Qed.

Lemma insertSorted_sorted (x : A) (l : list A) :
  StronglySorted (fun a b => cmp a b <= 0) l ->
  StronglySorted (fun a b => cmp a b <= 0) (insertSorted cmp x l).
Proof.
  induction 1 as [|y l Hl IH Hy]; cbn [insertSorted].
  - repeat constructor.
  - destruct (Z.leb_spec (cmp x y) 0) as [Hle|Hgt].
    + constructor; [now constructor|].
      constructor; [assumption|].
      eapply Forall_impl; [exact Hy|]. cbn. intros c Hc.
      now apply (consistent_trans cmp Hcmp x y c).
    + constructor; [assumption|].
      rewrite insertSorted_perm. constructor; [|assumption].
      apply consistent_total. lia.
Qed.

Lemma js_sort_sorted (l : list A) :
  StronglySorted (fun a b => cmp a b <= 0) (js_sort cmp l).
Proof.
  induction l as [|x l IH]; [constructor|].
  unfold js_sort in *. cbn [foldr]. now apply insertSorted_sorted.
Qed.

(** An element that compares equal to [z] is put in front of the elements
    of the sorted rest that compare equal to [z]. *)
Lemma filter_insertSorted_same (z x : A) (l : list A) :
  cmp z x = 0 ->
  filter (fun y => cmp z y = 0) (insertSorted cmp x l)
  = x :: filter (fun y => cmp z y = 0) l.
Proof.
  intros Hx. induction l as [|y l IH]; cbn [insertSorted].
  - now rewrite filter_cons_True.
  - destruct (Z.leb_spec (cmp x y) 0) as [Hle|Hgt].
    + now rewrite (filter_cons_True _ x).
    + assert (Hy : cmp z y <> 0).
      { intros Hy. apply consistent_sym_eq in Hx.
        pose proof (consistent_trans cmp Hcmp x z y). lia. }
      rewrite (filter_cons_False _ y) by assumption.
      rewrite (filter_cons_False _ y) by assumption. exact IH.
Qed.

(** Stability: the elements that compare equal to [z] keep their order. *)
Lemma js_sort_stable (z : A) (l : list A) :
  filter (fun y => cmp z y = 0) (js_sort cmp l) = filter (fun y => cmp z y = 0) l.
Proof.
  induction l as [|x l IH]; [reflexivity|].
  unfold js_sort in *. cbn [foldr].
  destruct (decide (cmp z x = 0)) as [Hx|Hx].
  - rewrite filter_insertSorted_same by assumption.
    rewrite (filter_cons_True _ x) by assumption. now rewrite IH.
  - rewrite filter_insertSorted_other by assumption.
    rewrite (filter_cons_False _ x) by assumption. exact IH.
Qed.

End InsertionSort.

Lemma StronglySorted_weaken {A} (R1 R2 : A -> A -> Prop) (l : list A) :
  (forall a b, R1 a b -> R2 a b) -> StronglySorted R1 l -> StronglySorted R2 l.
Proof.
  intros HR. induction 1 as [|x l Hl IH Hx]; constructor; [assumption|].
  eapply Forall_impl; [exact Hx|]. intros b. apply HR.
Qed.

(** ** The comparator of [sortAndIndexEntries] *)

Lemma entryKindNumericValues_inj (k1 k2 : EntryKind) :
  entryKindNumericValues k1 = entryKindNumericValues k2 -> k1 = k2.
Proof. destruct k1, k2; cbn; intros E; try reflexivity; discriminate E. Qed.

Section Comparator.
Context `{StringHost}.

(** The comparator, case by case. *)
Lemma compareEntries_spec (a b : Entry) :
  (kind (content a) <> kind (content b) /\
   compareEntries a b
   = entryKindNumericValues (kind (content a)) - entryKindNumericValues (kind (content b)))
  \/
  (kind (content a) = kind (content b) /\
   compareEntries a b = localeCompare (toLowerCase (title a)) (toLowerCase (title b))).
Proof.
  unfold compareEntries. case_bool_decide as Hk.
  - left. now split.
  - right. split; [|reflexivity]. destruct (decide (kind (content a) = kind (content b))); tauto.
Qed.

(** At most equal: a smaller rank, or the same kind and an earlier or equal
    title. *)
Lemma compareEntries_le (a b : Entry) :
  compareEntries a b <= 0 <->
  entryKindNumericValues (kind (content a)) < entryKindNumericValues (kind (content b)) \/
  (kind (content a) = kind (content b) /\
   localeCompare (toLowerCase (title a)) (toLowerCase (title b)) <= 0).
Proof.
  destruct (compareEntries_spec a b) as [[Hk ->]|[Hk ->]].
  - assert (entryKindNumericValues (kind (content a))
            <> entryKindNumericValues (kind (content b)))
      by (intros E; now apply entryKindNumericValues_inj in E).
    split; [intros; left; lia|intros [?|[? _]]; [lia|contradiction]].
  - rewrite Hk. split; [intros; right; now split|intros [?|[_ ?]]; [lia|assumption]].
Qed.

Lemma compareEntries_consistent :
  Consistent localeCompare -> Consistent compareEntries.
Proof.
  intros Hlc. split.
  - intros a b.
    destruct (compareEntries_spec a b) as [[Hk ->]|[Hk ->]];
      destruct (compareEntries_spec b a) as [[Hk' ->]|[Hk' ->]];
      try (symmetry in Hk'; contradiction); try (symmetry in Hk; contradiction).
    + lia.
    + apply (consistent_flip _ Hlc).
  - intros a b c Hab Hbc.
    apply compareEntries_le in Hab, Hbc. apply compareEntries_le.
    destruct Hab as [Hab|[Hab Hab']], Hbc as [Hbc|[Hbc Hbc']].
    + left. lia.
    + left. rewrite <- Hbc. exact Hab.
    + left. rewrite Hab. exact Hbc.
    + right. split; [congruence|].
      now apply (consistent_trans _ Hlc _ (toLowerCase (title b))).
Qed.

Lemma compareEntries_setIdx_r (i : nat) (a b : Entry) :
  compareEntries a (setIdx i b) = compareEntries a b.
Proof. reflexivity. Qed.

(** C9: for a host whose [localeCompare] is a consistent comparator,
    [sortAndIndexEntries] leaves a permutation of the entries that is sorted
    by content-kind rank (Note, Document, Link) and then by the lower-cased
    titles, keeps the order of the entries that compare equal, and sets the
    [idx] of every entry to its position; where "a" sorts before "b", the
    entries Link z, Note B, Document a, Note A end as Note A, Note B,
    Document a, Link z with [idx] 0 to 3. *)
Theorem sortAndIndexEntries_canonical (entries : Entries) :
  Consistent localeCompare ->
  (exists sorted,
      sortAndIndexEntries entries = imap setIdx sorted /\
      sorted ≡ₚ entries /\
      StronglySorted
        (fun a b =>
           entryKindNumericValues (kind (content a))
           < entryKindNumericValues (kind (content b)) \/
           (kind (content a) = kind (content b) /\
            localeCompare (toLowerCase (title a)) (toLowerCase (title b)) <= 0))
        sorted /\
      (forall z, filter (fun e => compareEntries z e = 0) sorted
                 = filter (fun e => compareEntries z e = 0) entries)) /\
  (forall i e, sortAndIndexEntries entries !! i = Some e -> idx e = Some i) /\
  (forall linkZ noteB documentA noteA : Entry,
      kind (content linkZ) = Link -> title linkZ = "z" ->
      kind (content noteB) = NoteMarkdown -> title noteB = "B" ->
      kind (content documentA) = Document -> title documentA = "a" ->
      kind (content noteA) = NoteMarkdown -> title noteA = "A" ->
      localeCompare (toLowerCase "A") (toLowerCase "B") < 0 ->
      sortAndIndexEntries [linkZ; noteB; documentA; noteA]
      = [setIdx 0 noteA; setIdx 1 noteB; setIdx 2 documentA; setIdx 3 linkZ]).
Proof.
  intros Hlc. pose proof (compareEntries_consistent Hlc) as Hcmp.
  split; [|split].
  - exists (js_sort compareEntries entries). split; [reflexivity|].
    split; [apply js_sort_perm|]. split.
    + eapply StronglySorted_weaken; [|apply (js_sort_sorted _ Hcmp)].
      intros a b Hab. now apply compareEntries_le.
    + intros z. now apply js_sort_stable.
  - intros i e He. unfold sortAndIndexEntries in He.
    apply list_lookup_imap_Some in He as (e' & _ & ->). reflexivity.
  - intros linkZ noteB documentA noteA Hl Hlt Hn1 Hn1t Hd Hdt Hn2 Hn2t HAB.
    assert (Hdn : ~ compareEntries documentA noteA <= 0).
    { rewrite compareEntries_le, Hd, Hn2. cbn. intros [?|[? _]]; [lia|discriminate]. }
    assert (Hbn : ~ compareEntries noteB noteA <= 0).
    { rewrite compareEntries_le, Hn1, Hn2, Hn1t, Hn2t. intros [?|[_ Hle]]; [lia|].
      apply (consistent_flip _ Hlc) in HAB. lia. }
    assert (Hbd : compareEntries noteB documentA <= 0).
    { rewrite compareEntries_le, Hn1, Hd. cbn. left. lia. }
    assert (Hln : ~ compareEntries linkZ noteA <= 0).
    { rewrite compareEntries_le, Hl, Hn2. cbn. intros [?|[? _]]; [lia|discriminate]. }
    assert (Hlb : ~ compareEntries linkZ noteB <= 0).
    { rewrite compareEntries_le, Hl, Hn1. cbn. intros [?|[? _]]; [lia|discriminate]. }
    assert (Hld : ~ compareEntries linkZ documentA <= 0).
    { rewrite compareEntries_le, Hl, Hd. cbn. intros [?|[? _]]; [lia|discriminate]. }
    unfold sortAndIndexEntries, js_sort. cbn [foldr insertSorted].
    destruct (Z.leb_spec (compareEntries documentA noteA) 0); [contradiction|].
    cbn [insertSorted].
    destruct (Z.leb_spec (compareEntries noteB noteA) 0); [contradiction|].
    destruct (Z.leb_spec (compareEntries noteB documentA) 0); [|lia].
    cbn [insertSorted].
    destruct (Z.leb_spec (compareEntries linkZ noteA) 0); [contradiction|].
    destruct (Z.leb_spec (compareEntries linkZ noteB) 0); [contradiction|].
    destruct (Z.leb_spec (compareEntries linkZ documentA) 0); [contradiction|].
    reflexivity.
Qed.

End Comparator.

(** ** The ASCII host *)

Lemma compareCodeUnits_le (a b : string) :
  Examples.compareCodeUnits a b <= 0 <-> String_as_OT.lt a b \/ a = b.
Proof.
  unfold Examples.compareCodeUnits.
  destruct (String.compare a b) eqn:E.
  - apply String_as_OT.cmp_eq in E. split; [now right|lia].
  - apply String_as_OT.cmp_lt in E. split; [now left|lia].
  - split; [lia|]. intros [Hlt|Heq].
    + apply String_as_OT.cmp_lt in Hlt. unfold String_as_OT.cmp in Hlt. congruence.
    + apply String_as_OT.cmp_eq in Heq. unfold String_as_OT.cmp in Heq. congruence.
Qed.

Lemma compareCodeUnits_consistent : Consistent Examples.compareCodeUnits.
Proof.
  split.
  - intros a b. unfold Examples.compareCodeUnits.
    pose proof (String_as_OT.cmp_antisym a b) as E. unfold String_as_OT.cmp in E.
    rewrite E. destruct (String.compare b a); cbn; lia.
  - intros a b c Hab Hbc. apply compareCodeUnits_le in Hab, Hbc.
    apply compareCodeUnits_le.
    destruct Hab as [Hab| ->]; [|assumption].
    destruct Hbc as [Hbc| <-]; [|now left].
    left. now apply (String_as_OT.lt_trans a b c).
Qed.

(** On the ASCII host, Link z, Note B, Document a, Note A. *)
Lemma sortAndIndexEntries_canonical_witness :
  let linkZ := linkEntry (Examples.storedLink "z" "https://z.example" [] true) in
  let noteB := fileEntry (Examples.noteEntry "B" "notes" [] []) in
  let documentA := fileEntry (Examples.documentEntry "a" "docs") in
  let noteA := fileEntry (Examples.noteEntry "A" "notes" [] []) in
  Consistent (@localeCompare Examples.asciiHost) /\
  @sortAndIndexEntries Examples.asciiHost [linkZ; noteB; documentA; noteA]
  = [setIdx 0 noteA; setIdx 1 noteB; setIdx 2 documentA; setIdx 3 linkZ].
Proof.
  intros linkZ noteB documentA noteA.
  split; [exact compareCodeUnits_consistent|].
  apply (proj2 (proj2 (@sortAndIndexEntries_canonical Examples.asciiHost
                         [linkZ; noteB; documentA; noteA] compareCodeUnits_consistent)));
    reflexivity.
Defined.

End SortProofs.

(* ===================================================================== *)
(** * Link reconciliation *)
(* ===================================================================== *)

Module LinkProofs.
Import Repos Types Host EntryUtils.

(** ** [in] on the two lookup objects *)

Lemma js_in_own {V} (k : string) (obj : gmap string V) :
  k ∉ objectPrototypeKeys -> js_in k obj = bool_decide (is_Some (obj !! k)).
Proof.
  intros Hk. unfold js_in.
  rewrite (bool_decide_eq_false_2 (k ∈ objectPrototypeKeys)) by assumption.
  apply orb_false_r.
Qed.

Lemma js_in_inherited {V} (k : string) (obj : gmap string V) :
  k ∈ objectPrototypeKeys -> js_in k obj = true.
Proof.
  intros Hk. unfold js_in.
  rewrite (bool_decide_eq_true_2 (k ∈ objectPrototypeKeys)) by assumption.
  apply orb_true_r.
Qed.

Lemma js_in_false {V} (k : string) (obj : gmap string V) :
  js_in k obj = false -> obj !! k = None /\ k ∉ objectPrototypeKeys.
Proof.
  unfold js_in. intros H. apply orb_false_iff in H as [H1 H2].
  apply bool_decide_eq_false in H1, H2. split; [|assumption].
  destruct (obj !! k) eqn:E; [|reflexivity]. exfalso. apply H1. now exists v.
Qed.

Lemma sameLink_refl (l : EntryLink) : sameLink l l.
Proof. now repeat split. Qed.

Lemma sameLink_trans (l1 l2 l3 : EntryLink) :
  sameLink l1 l2 -> sameLink l2 l3 -> sameLink l1 l3.
Proof.
  unfold sameLink. intros (?&?&?&?&?&?&?) (?&?&?&?&?&?&?).
  repeat split; congruence.
Qed.

Lemma sameLink_resetLink (l : EntryLink) : sameLink l (resetLink l).
Proof. now repeat split. Qed.

(** ** The first loop *)

Lemma firstLoopInv_initial (existing : list EntryLink) :
  firstLoopInv [] existing (initialLinkState existing).
Proof.
  split; cbn.
  - reflexivity.
  - split; cbn.
    + intros t a Hl. rewrite lookup_empty in Hl. discriminate Hl.
    + intros t a Hl. rewrite lookup_empty in Hl. discriminate Hl.
    + intros a Ha. inversion Ha.
    + intros t. split.
      * intros [x Hx]. rewrite lookup_empty in Hx. discriminate Hx.
      * intros (a & Hl & _). rewrite lookup_empty in Hl. discriminate Hl.
    + constructor.
  - intros t a Hl. rewrite lookup_empty in Hl. discriminate Hl.
  - intros i link Hl. discriminate Hl.
  - intros i. split; [inversion 1|]. intros (link & Hl & _). discriminate Hl.
Qed.

Lemma heap_after_reset (done rest : list EntryLink) (link : EntryLink) :
  <[length done := resetLink link]> ((resetLink <$> done) ++ link :: rest)
  = (resetLink <$> (done ++ [link])) ++ rest.
Proof.
  rewrite fmap_app, <- app_assoc. cbn [fmap list_fmap app].
  rewrite insert_app_r_alt by (rewrite length_fmap; lia).
  rewrite length_fmap, Nat.sub_diag. reflexivity.
Qed.

Lemma firstLoopInv_step (done rest : list EntryLink) (link : EntryLink) (st : LinkState) :
  firstLoopInv done (link :: rest) st ->
  firstLoopInv (done ++ [link]) rest (visitExisting st (length done) link).
Proof.
  intros [Hheap [Hmap Hown Hent Hins Hnd] Hfirst Hseen Hentries].
  remember (length done) as a eqn:Ha.
  set (t := target (content link)).
  assert (Hheap' : <[a := resetLink link]> (heap st)
                   = (resetLink <$> (done ++ [link])) ++ rest).
  { rewrite Ha, Hheap. apply heap_after_reset. }
  assert (Hold : forall a', (a' < a)%nat ->
                 <[a := resetLink link]> (heap st) !! a' = heap st !! a').
  { intros a' Ha'. apply list_lookup_insert_ne. lia. }
  assert (Hnew : <[a := resetLink link]> (heap st) !! a = Some (resetLink link)).
  { apply list_lookup_insert_eq. rewrite Ha, Hheap, length_app, length_fmap. cbn. lia. }
  assert (Hlt : forall i l, done !! i = Some l -> (i < a)%nat).
  { intros i l Hd. rewrite Ha. now apply lookup_lt_Some in Hd. }
  assert (Hmaplt : forall t' a', linkMap st !! t' = Some a' -> (a' < a)%nat).
  { intros t' a' Hl. destruct (Hfirst _ _ Hl) as (l & Hd & _). eauto. }
  assert (Hentlt : forall a', a' ∈ linkEntries st -> (a' < a)%nat).
  { intros a' Ha'. apply Hentries in Ha' as (l & Hd & _). eauto. }
  assert (Hdone : forall i l, done !! i = Some l -> (done ++ [link]) !! i = Some l).
  { intros i l Hd. now apply lookup_app_l_Some. }
  assert (Hlast : (done ++ [link]) !! a = Some link).
  { subst a. now rewrite list_lookup_middle. }
  assert (Hsplit : forall i l, (done ++ [link]) !! i = Some l ->
                   done !! i = Some l \/ (i = a /\ l = link)).
  { intros i l Hl. apply lookup_app_Some in Hl as [Hl|[Hge Hl]]; [now left|right].
    apply list_lookup_singleton_Some in Hl as [Hi ->]. split; [|reflexivity].
    rewrite Ha. apply Nat.le_antisymm; [|exact Hge]. apply Nat.sub_0_le. exact Hi. }
  unfold visitExisting.
  change (target (content (resetLink link))) with t.
  change (standaloneRepo (content (resetLink link))) with (standaloneRepo (content link)).
  destruct (js_in t (linkMap st)) eqn:Hin; cbn [negb].
  - (* the target is taken or inherited: only the heap changes *)
    split; cbn [heap linkEntries linkMap linkInserted].
    + exact Hheap'.
    + split; cbn [heap linkEntries linkMap linkInserted].
      * intros t' a' Hl. rewrite Hold by eauto. eauto.
      * exact Hown.
      * intros a' Ha'. rewrite Hold by eauto. eauto.
      * exact Hins.
      * exact Hnd.
    + intros t' a' Hl. destruct (Hfirst _ _ Hl) as (l & Hd & Ht & Hno).
      exists l. split; [eauto|]. split; [assumption|].
      intros j other Hj Hjo. destruct (Hsplit _ _ Hjo) as [Hjo'|[-> _]]; [eauto|].
      apply Hlt in Hd. lia.
    + intros i l Hl Hp. destruct (Hsplit _ _ Hl) as [Hl'|[-> ->]]; [eauto|].
      fold t in Hp |- *. rewrite js_in_own in Hin by assumption.
      now apply bool_decide_eq_true in Hin.
    + intros i. rewrite Hentries. split.
      * intros (l & Hd & Hs & Hm). exists l. split; [eauto|]. now split.
      * intros (l & Hd & Hs & Hm). destruct (Hsplit _ _ Hd) as [Hd'|[-> ->]].
        -- exists l. split; [assumption|]. now split.
        -- apply Hmaplt in Hm. lia.
  - (* a new target *)
    apply js_in_false in Hin as [Hnone Hp].
    assert (Hmap' : forall t' a', <[t := a]> (linkMap st) !! t' = Some a' ->
                    (t' = t /\ a' = a) \/ (t' <> t /\ linkMap st !! t' = Some a')).
    { intros t' a' Hl. apply lookup_insert_Some in Hl as [[-> ->]|[Hne Hl]]; [now left|right].
      split; [congruence|assumption]. }
    assert (Hinv_map : forall t' a', <[t := a]> (linkMap st) !! t' = Some a' ->
      exists l, (done ++ [link]) !! a' = Some l /\ target (content l) = t' /\
        forall j other, (j < a')%nat -> (done ++ [link]) !! j = Some other ->
                        target (content other) <> t').
    { intros t' a' Hl. destruct (Hmap' _ _ Hl) as [[-> ->]|[Hne Hl']].
      - exists link. split; [assumption|]. split; [reflexivity|].
        intros j other Hj Hjo. destruct (Hsplit _ _ Hjo) as [Hjo'|[-> _]]; [|lia].
        intros Ht. destruct (decide (target (content other) ∈ objectPrototypeKeys)).
        + rewrite Ht in *. contradiction.
        + destruct (Hseen _ _ Hjo' ltac:(assumption)) as [x Hx].
          rewrite Ht in Hx. fold t in Hx. congruence.
      - destruct (Hfirst _ _ Hl') as (l & Hd & Ht & Hno).
        exists l. split; [eauto|]. split; [assumption|].
        intros j other Hj Hjo. destruct (Hsplit _ _ Hjo) as [Hjo'|[-> _]]; [eauto|].
        apply Hlt in Hd. lia. }
    assert (Hinv_seen : forall i l, (done ++ [link]) !! i = Some l ->
      target (content l) ∉ objectPrototypeKeys ->
      is_Some (<[t := a]> (linkMap st) !! target (content l))).
    { intros i l Hl Hpl. destruct (Hsplit _ _ Hl) as [Hl'|[-> ->]].
      - destruct (decide (target (content l) = t)) as [->|Hne].
        + rewrite lookup_insert_eq. eauto.
        + rewrite lookup_insert_ne by congruence. eauto.
      - fold t. rewrite lookup_insert_eq. eauto. }
    assert (Hwf_map : forall t' a', <[t := a]> (linkMap st) !! t' = Some a' ->
      exists l, <[a := resetLink link]> (heap st) !! a' = Some l /\ target (content l) = t').
    { intros t' a' Hl. destruct (Hmap' _ _ Hl) as [[-> ->]|[Hne Hl']].
      - exists (resetLink link). split; [assumption|reflexivity].
      - rewrite Hold by eauto. eauto. }
    assert (Hwf_own : forall t' a', <[t := a]> (linkMap st) !! t' = Some a' ->
      t' ∉ objectPrototypeKeys).
    { intros t' a' Hl. destruct (Hmap' _ _ Hl) as [[-> ->]|[Hne Hl']]; eauto. }
    assert (Hold_entries : forall a', a' ∈ linkEntries st ->
      exists l, <[a := resetLink link]> (heap st) !! a' = Some l /\
                <[t := a]> (linkMap st) !! target (content l) = Some a').
    { intros a' Ha'. destruct (Hent _ Ha') as (l & Hh & Hm).
      exists l. rewrite Hold by eauto. split; [assumption|].
      rewrite lookup_insert_ne; [assumption|]. intros E. rewrite <- E in Hm. congruence. }
    case_bool_decide as Hst; split; cbn [heap linkEntries linkMap linkInserted];
      try exact Hheap'; try exact Hinv_map; try exact Hinv_seen.
    + (* standalone: pushed *)
      split; cbn [heap linkEntries linkMap linkInserted];
        try exact Hwf_map; try exact Hwf_own.
      * intros a' Ha'. apply elem_of_app in Ha' as [Ha'|Ha']; [eauto|].
        apply list_elem_of_singleton in Ha' as ->.
        exists (resetLink link). split; [assumption|]. apply lookup_insert_eq.
      * intros t'. destruct (decide (t' = t)) as [->|Hne].
        -- rewrite !lookup_insert_eq. split; [|eauto].
           intros _. exists a. split; [reflexivity|].
           apply elem_of_app. right. apply list_elem_of_here.
        -- rewrite !lookup_insert_ne by congruence. rewrite Hins. split.
           ++ intros (a' & Hl & Ha'). exists a'. split; [assumption|].
              apply elem_of_app. now left.
           ++ intros (a' & Hl & Ha'). exists a'. split; [assumption|].
              apply elem_of_app in Ha' as [Ha'|Ha']; [assumption|].
              apply list_elem_of_singleton in Ha' as ->. apply Hmaplt in Hl. lia.
      * apply NoDup_app. split; [assumption|]. split; [|apply NoDup_singleton].
        intros a' Ha' Ha''. apply list_elem_of_singleton in Ha'' as ->.
        apply Hentlt in Ha'. lia.
    + intros i. rewrite elem_of_app, list_elem_of_singleton, Hentries. split.
      * intros [(l & Hd & Hs & Hm)| ->].
        -- exists l. split; [eauto|]. split; [assumption|].
           rewrite lookup_insert_ne; [assumption|]. intros E. rewrite <- E in Hm. congruence.
        -- exists link. split; [assumption|]. split; [assumption|]. apply lookup_insert_eq.
      * intros (l & Hd & Hs & Hm). destruct (Hsplit _ _ Hd) as [Hd'|[-> ->]]; [|now right].
        left. exists l. split; [assumption|]. split; [assumption|].
        destruct (Hmap' _ _ Hm) as [[_ ->]|[_ Hm']]; [|assumption].
        apply Hlt in Hd'. lia.
    + (* not standalone: only recorded *)
      split; cbn [heap linkEntries linkMap linkInserted];
        try exact Hwf_map; try exact Hwf_own; try exact Hnd; try exact Hold_entries.
      intros t'. rewrite Hins. split.
      * intros (a' & Hl & Ha'). exists a'. split; [|assumption].
        rewrite lookup_insert_ne; [assumption|]. intros E. rewrite <- E in Hl. congruence.
      * intros (a' & Hl & Ha'). exists a'. split; [|assumption].
        destruct (Hmap' _ _ Hl) as [[_ ->]|[_ Hl']]; [|assumption].
        apply Hentlt in Ha'. lia.
    + intros i. rewrite Hentries. split.
      * intros (l & Hd & Hs & Hm). exists l. split; [eauto|]. split; [assumption|].
        rewrite lookup_insert_ne; [assumption|]. intros E. rewrite <- E in Hm. congruence.
      * intros (l & Hd & Hs & Hm). destruct (Hsplit _ _ Hd) as [Hd'|[-> ->]].
        -- exists l. split; [assumption|]. split; [assumption|].
           destruct (Hmap' _ _ Hm) as [[_ ->]|[_ Hm']]; [|assumption].
           apply Hlt in Hd'. lia.
        -- contradiction.
Qed.

Lemma firstLoopInv_loop (rest : list EntryLink) : forall done st,
  firstLoopInv done rest st ->
  firstLoopInv (done ++ rest) [] (visitAllExisting st (length done) rest).
Proof.
  induction rest as [|link rest IH]; intros done st Hinv; cbn [visitAllExisting].
  - now rewrite app_nil_r.
  - apply firstLoopInv_step in Hinv. apply IH in Hinv.
    rewrite length_app in Hinv. cbn [length] in Hinv.
    rewrite Nat.add_1_r, <- app_assoc in Hinv. exact Hinv.
Qed.

Lemma firstLoopInv_end (existing : list EntryLink) :
  firstLoopInv existing []
    (visitAllExisting (initialLinkState existing) 0 existing).
Proof. apply (firstLoopInv_loop existing [] _ (firstLoopInv_initial existing)). Qed.

(** ** The second loop *)

Lemma visited_refl (st : LinkState) : visited [] st st.
Proof.
  split; eauto using sameLink_refl.
Qed.

Lemma visited_trans (us1 us2 : list string) (st1 st2 st3 : LinkState) :
  visited us1 st1 st2 -> visited us2 st2 st3 -> visited (us1 ++ us2) st1 st3.
Proof.
  intros [Hh1 Hm1 He1 Hp1 Hom1 Hoh1 Hoe1] [Hh2 Hm2 He2 Hp2 Hom2 Hoh2 Hoe2]. split.
  - intros a l Hl. destruct (Hh1 _ _ Hl) as (l' & Hl' & Hs).
    destruct (Hh2 _ _ Hl') as (l'' & Hl'' & Hs').
    exists l''. split; [assumption|]. eapply sameLink_trans; eassumption.
  - eauto.
  - eauto.
  - intros a Ha. destruct (Hp2 _ Ha) as [Ha'|(u & Hu & Hl)].
    + destruct (Hp1 _ Ha') as [Ha''|(u & Hu & Hl)]; [now left|right].
      exists u. split; [apply elem_of_app; now left|eauto].
    + right. exists u. split; [apply elem_of_app; now right|assumption].
  - intros t Ht. apply not_elem_of_app in Ht as [Ht1 Ht2].
    rewrite Hom2, Hom1 by assumption. reflexivity.
  - intros t a Ht Hl. apply not_elem_of_app in Ht as [Ht1 Ht2].
    rewrite (Hoh2 t) by eauto. eauto.
  - intros t a Ht Hl Ha. apply not_elem_of_app in Ht as [Ht1 Ht2]. eauto.
Qed.

Section Links.
Context `{RepoId} `{LabelUtils}.

Lemma sameLink_addReference (entry : EntryFile) (info : FileInfo) (l : EntryLink) :
  sameLink l (addReference entry info l).
Proof. now repeat split. Qed.

Lemma wf_heap_lt (st : LinkState) (t : string) (a : nat) :
  wfLinkState st -> linkMap st !! t = Some a -> (a < length (heap st))%nat.
Proof.
  intros Hwf Hl. destruct (wf_map st Hwf _ _ Hl) as (l & Hh & _).
  now apply lookup_lt_Some in Hh.
Qed.

Lemma wf_entries_lt (st : LinkState) (a : nat) :
  wfLinkState st -> a ∈ linkEntries st -> (a < length (heap st))%nat.
Proof.
  intros Hwf Ha. destruct (wf_entries st Hwf _ Ha) as (l & Hh & _).
  now apply lookup_lt_Some in Hh.
Qed.

(** Two targets do not share an address. *)
Lemma wf_map_inj (st : LinkState) (t1 t2 : string) (a : nat) :
  wfLinkState st -> linkMap st !! t1 = Some a -> linkMap st !! t2 = Some a -> t1 = t2.
Proof.
  intros Hwf H1 H2.
  destruct (wf_map st Hwf _ _ H1) as (l1 & Hh1 & <-).
  destruct (wf_map st Hwf _ _ H2) as (l2 & Hh2 & <-). congruence.
Qed.

(** A target that [linkMap] does not know gets a new link. *)
Lemma visitLinkTarget_new (entry : EntryFile) (info : FileInfo) (st : LinkState)
  (u : string) :
  wfLinkState st -> u ∉ objectPrototypeKeys -> linkMap st !! u = None ->
  exists st',
    visitLinkTarget entry info st u = Some st' /\
    wfLinkState st' /\ visited [u] st st' /\
    linkMap st' !! u = Some (length (heap st)) /\
    heap st' !! length (heap st) = Some (newLink entry info u) /\
    length (heap st) ∈ linkEntries st'.
Proof.
  intros Hwf Hu Hnone.
  unfold visitLinkTarget. rewrite js_in_own by assumption.
  rewrite bool_decide_eq_false_2 by (rewrite Hnone; intros [? [=]]).
  cbn [negb].
  remember (length (heap st)) as a0 eqn:Ha0.
  assert (Hlt0 : forall a l, heap st !! a = Some l -> (a < a0)%nat).
  { intros a l Hl. rewrite Ha0. now apply lookup_lt_Some in Hl. }
  eexists. split; [reflexivity|].
  assert (Hold : forall a l, heap st !! a = Some l ->
                 (heap st ++ [newLink entry info u]) !! a = Some l).
  { intros a l Hl. now apply lookup_app_l_Some. }
  assert (Hnew : (heap st ++ [newLink entry info u]) !! a0 = Some (newLink entry info u)).
  { rewrite Ha0. now rewrite list_lookup_middle. }
  assert (Hne : forall t a, linkMap st !! t = Some a -> t <> u) by congruence.
  split; [|split; [|split; [|split]]]; cbn [heap linkEntries linkMap linkInserted].
  - destruct Hwf as [Hmap Hown Hent Hins Hnd].
    split; cbn [heap linkEntries linkMap linkInserted].
    + intros t a Hl. apply lookup_insert_Some in Hl as [[<- <-]|[Hne' Hl]].
      * exists (newLink entry info u). split; [assumption|reflexivity].
      * destruct (Hmap _ _ Hl) as (l & Hh & Ht). eauto.
    + intros t a Hl. apply lookup_insert_Some in Hl as [[<- <-]|[Hne' Hl]]; eauto.
    + intros a Ha. apply elem_of_app in Ha as [Ha|Ha].
      * destruct (Hent _ Ha) as (l & Hh & Hm). exists l. split; [eauto|].
        rewrite lookup_insert_ne; [assumption|]. intros E. rewrite <- E in Hm. congruence.
      * apply list_elem_of_singleton in Ha as ->.
        exists (newLink entry info u). split; [assumption|]. apply lookup_insert_eq.
    + intros t. destruct (decide (t = u)) as [->|Hne'].
      * rewrite !lookup_insert_eq. split; [|eauto]. intros _.
        exists a0. split; [reflexivity|]. apply elem_of_app. right. apply list_elem_of_here.
      * rewrite !lookup_insert_ne by congruence. rewrite Hins. split.
        -- intros (a & Hl & Ha). exists a. split; [assumption|]. apply elem_of_app. now left.
        -- intros (a & Hl & Ha). exists a. split; [assumption|].
           apply elem_of_app in Ha as [Ha|Ha]; [assumption|].
           apply list_elem_of_singleton in Ha as ->.
           destruct (Hmap _ _ Hl) as (l & Hh & _). apply Hlt0 in Hh. lia.
    + apply NoDup_app. split; [assumption|]. split; [|apply NoDup_singleton].
      intros a Ha Ha'. apply list_elem_of_singleton in Ha' as ->.
      destruct (Hent _ Ha) as (l & Hh & _). apply Hlt0 in Hh. lia.
  - split; cbn [heap linkEntries linkMap linkInserted].
    + intros a l Hl. exists l. split; [eauto|apply sameLink_refl].
    + intros t a Hl. rewrite lookup_insert_ne; [assumption|]. apply not_eq_sym. eauto.
    + intros a Ha. apply elem_of_app. now left.
    + intros a Ha. apply elem_of_app in Ha as [Ha|Ha]; [now left|right].
      apply list_elem_of_singleton in Ha as ->.
      exists u. split; [apply list_elem_of_here|apply lookup_insert_eq].
    + intros t Ht. apply not_elem_of_cons in Ht as [Ht _]. now rewrite lookup_insert_ne.
    + intros t a Ht Hl. apply lookup_app_l. now apply (wf_heap_lt st t).
    + intros t a Ht Hl Ha. apply elem_of_app in Ha as [Ha|Ha]; [assumption|].
      apply list_elem_of_singleton in Ha as ->.
      destruct (wf_map st Hwf _ _ Hl) as (l & Hh & _). apply Hlt0 in Hh. lia.
  - apply lookup_insert_eq.
  - exact Hnew.
  - apply elem_of_app. right. apply list_elem_of_here.
Qed.

(** A target that [linkMap] knows gets a reference more, and its link is
    pushed if it has not been. *)
Lemma visitLinkTarget_known (entry : EntryFile) (info : FileInfo) (st : LinkState)
  (u : string) (a : nat) (link : EntryLink) :
  wfLinkState st -> linkMap st !! u = Some a -> heap st !! a = Some link ->
  exists st',
    visitLinkTarget entry info st u = Some st' /\
    wfLinkState st' /\ visited [u] st st' /\
    linkMap st' !! u = Some a /\
    heap st' !! a = Some (addReference entry info link) /\
    a ∈ linkEntries st' /\
    (a ∈ linkEntries st -> linkEntries st' = linkEntries st).
Proof.
  intros Hwf Hl Hh.
  pose proof (wf_own st Hwf _ _ Hl) as Hu.
  assert (Htarget : target (content link) = u).
  { destruct (wf_map st Hwf _ _ Hl) as (l & Hh' & Ht). congruence. }
  unfold visitLinkTarget. rewrite !js_in_own by assumption.
  rewrite bool_decide_eq_true_2 by (rewrite Hl; eauto).
  cbn [negb]. rewrite Hl. cbn [mbind option_bind]. rewrite Hh. cbn [mbind option_bind].
  change (target (content (addReference entry info link))) with (target (content link)).
  rewrite Htarget.
  assert (Hlt : (a < length (heap st))%nat) by now apply lookup_lt_Some in Hh.
  assert (Hnew : <[a := addReference entry info link]> (heap st) !! a
                 = Some (addReference entry info link))
    by now apply list_lookup_insert_eq.
  assert (Hheap : forall a' l, heap st !! a' = Some l ->
            exists l', <[a := addReference entry info link]> (heap st) !! a' = Some l' /\
                       sameLink l l').
  { intros a' l Hl'. destruct (decide (a' = a)) as [->|Hne].
    - exists (addReference entry info link). split; [assumption|].
      replace l with link by congruence. apply sameLink_addReference.
    - exists l. rewrite list_lookup_insert_ne by congruence.
      split; [assumption|apply sameLink_refl]. }
  assert (Hother : forall t a', t <> u -> linkMap st !! t = Some a' -> a' <> a).
  { intros t a' Ht Hl' ->. apply Ht. now apply (wf_map_inj st t u a). }
  assert (Hwf_map : forall t a', linkMap st !! t = Some a' ->
            exists l, <[a := addReference entry info link]> (heap st) !! a' = Some l /\
                      target (content l) = t).
  { intros t a' Hl'. destruct (wf_map st Hwf _ _ Hl') as (l & Hh' & Ht).
    destruct (Hheap _ _ Hh') as (l' & Hh'' & Hs). exists l'. split; [assumption|].
    destruct Hs as (_ & _ & _ & _ & Hs & _). congruence. }
  assert (Hwf_ent : forall a', a' ∈ linkEntries st ->
            exists l, <[a := addReference entry info link]> (heap st) !! a' = Some l /\
                      linkMap st !! target (content l) = Some a').
  { intros a' Ha'. destruct (wf_entries st Hwf _ Ha') as (l & Hh' & Hm).
    destruct (Hheap _ _ Hh') as (l' & Hh'' & Hs). exists l'. split; [assumption|].
    destruct Hs as (_ & _ & _ & _ & Hs & _). congruence. }
  destruct (decide (is_Some (linkInserted st !! u))) as [Hins|Hins].
  - (* already pushed *)
    rewrite bool_decide_eq_true_2 by assumption. cbn [negb].
    assert (Ha : a ∈ linkEntries st).
    { apply (wf_inserted st Hwf) in Hins as (a' & Hl' & Ha'). congruence. }
    eexists. split; [reflexivity|].
    split; [|split; [|split; [|split; [|split]]]];
      cbn [heap linkEntries linkMap linkInserted]; try assumption; try reflexivity.
    + split; cbn [heap linkEntries linkMap linkInserted];
        try assumption; try apply (wf_own st Hwf); try apply (wf_inserted st Hwf);
        try apply (wf_nodup st Hwf).
    + split; cbn [heap linkEntries linkMap linkInserted]; try assumption; eauto.
      intros t a' Ht Hl'. apply not_elem_of_cons in Ht as [Ht _].
      apply list_lookup_insert_ne. apply not_eq_sym. eauto.
  - (* pushed now *)
    rewrite bool_decide_eq_false_2 by assumption. cbn [negb].
    assert (Ha : a ∉ linkEntries st).
    { intros Ha. apply Hins. apply (wf_inserted st Hwf). eauto. }
    eexists. split; [reflexivity|].
    split; [|split; [|split; [|split; [|split]]]];
      cbn [heap linkEntries linkMap linkInserted]; try assumption.
    + split; cbn [heap linkEntries linkMap linkInserted];
        try assumption; try apply (wf_own st Hwf).
      * intros a' Ha'. apply elem_of_app in Ha' as [Ha'|Ha']; [eauto|].
        apply list_elem_of_singleton in Ha' as ->.
        exists (addReference entry info link). split; [assumption|].
        change (target (content (addReference entry info link)))
          with (target (content link)). now rewrite Htarget.
      * intros t. destruct (decide (t = u)) as [->|Hne].
        -- rewrite lookup_insert_eq. split; [|eauto]. intros _.
           exists a. split; [assumption|]. apply elem_of_app. right. apply list_elem_of_here.
        -- rewrite lookup_insert_ne by congruence. rewrite (wf_inserted st Hwf). split.
           ++ intros (a' & Hl' & Ha'). exists a'. split; [assumption|].
              apply elem_of_app. now left.
           ++ intros (a' & Hl' & Ha'). exists a'. split; [assumption|].
              apply elem_of_app in Ha' as [Ha'|Ha']; [assumption|].
              apply list_elem_of_singleton in Ha' as ->. now destruct (Hother t a).
      * apply NoDup_app. split; [apply (wf_nodup st Hwf)|].
        split; [|apply NoDup_singleton].
        intros a' Ha' Ha''. apply list_elem_of_singleton in Ha'' as ->. contradiction.
    + split; cbn [heap linkEntries linkMap linkInserted]; try assumption; eauto.
      * intros a' Ha'. apply elem_of_app. now left.
      * intros a' Ha'. apply elem_of_app in Ha' as [Ha'|Ha']; [now left|right].
        apply list_elem_of_singleton in Ha' as ->.
        exists u. split; [apply list_elem_of_here|assumption].
      * intros t a' Ht Hl'. apply not_elem_of_cons in Ht as [Ht _].
        apply list_lookup_insert_ne. apply not_eq_sym. eauto.
      * intros t a' Ht Hl' Ha'. apply not_elem_of_cons in Ht as [Ht _].
        apply elem_of_app in Ha' as [Ha'|Ha']; [assumption|].
        apply list_elem_of_singleton in Ha' as ->. now destruct (Hother t a).
    + apply elem_of_app. right. apply list_elem_of_here.
    + intros Ha'. contradiction.
Qed.

(** A visit of one target, whatever [linkMap] knows of it. *)
Lemma visitLinkTarget_step (entry : EntryFile) (info : FileInfo) (st : LinkState)
  (u : string) :
  wfLinkState st -> u ∉ objectPrototypeKeys ->
  exists st',
    visitLinkTarget entry info st u = Some st' /\ wfLinkState st' /\ visited [u] st st'.
Proof.
  intros Hwf Hu. destruct (linkMap st !! u) as [a|] eqn:Hl.
  - destruct (wf_map st Hwf _ _ Hl) as (link & Hh & _).
    destruct (visitLinkTarget_known entry info st u a link Hwf Hl Hh)
      as (st' & Hrun & Hwf' & Hvis & _).
    now exists st'.
  - destruct (visitLinkTarget_new entry info st u Hwf Hu Hl)
      as (st' & Hrun & Hwf' & Hvis & _).
    now exists st'.
Qed.

Lemma forEach_app {S X} (body : S -> X -> option S) (xs ys : list X) : forall st,
  forEach body st (xs ++ ys) = forEach body st xs ≫= fun st' => forEach body st' ys.
Proof.
  induction xs as [|x xs IH]; intros st; cbn [app forEach]; [reflexivity|].
  destruct (body st x); [apply IH|reflexivity].
Qed.

Lemma forEach_visitLinkTarget (entry : EntryFile) (info : FileInfo) (us : list string) :
  forall st,
    wfLinkState st -> (forall u, u ∈ us -> u ∉ objectPrototypeKeys) ->
    exists st',
      forEach (visitLinkTarget entry info) st us = Some st' /\
      wfLinkState st' /\ visited us st st'.
Proof.
  induction us as [|u us IH]; intros st Hwf Hus; cbn [forEach].
  - exists st. split; [reflexivity|]. split; [assumption|apply visited_refl].
  - destruct (visitLinkTarget_step entry info st u Hwf) as (st1 & -> & Hwf1 & Hvis1).
    { apply Hus, list_elem_of_here. }
    destruct (IH st1 Hwf1) as (st2 & Hrun & Hwf2 & Hvis2).
    { intros u' Hu'. apply Hus. now apply list_elem_of_further. }
    exists st2. split; [assumption|]. split; [assumption|].
    apply (visited_trans [u] us st st1 st2); assumption.
Qed.

Lemma visitFileEntry_step (st : LinkState) (entry : EntryFile) :
  wfLinkState st -> (forall u, u ∈ linkTargets entry -> u ∉ objectPrototypeKeys) ->
  exists st',
    visitFileEntry st entry = Some st' /\ wfLinkState st' /\
    visited (linkTargets entry) st st'.
Proof.
  intros Hwf Hus. unfold visitFileEntry, linkTargets in *.
  destruct (content entry) as [info note|info].
  - now apply forEach_visitLinkTarget.
  - exists st. split; [reflexivity|]. split; [assumption|apply visited_refl].
Qed.

Lemma forEach_visitFileEntry (fileEntries : list EntryFile) : forall st,
  wfLinkState st -> noInheritedTargets fileEntries ->
  exists st',
    forEach visitFileEntry st fileEntries = Some st' /\ wfLinkState st' /\
    visited (fileEntries ≫= linkTargets) st st'.
Proof.
  induction fileEntries as [|entry fileEntries IH]; intros st Hwf Hno; cbn [forEach].
  - exists st. split; [reflexivity|]. split; [assumption|apply visited_refl].
  - destruct (visitFileEntry_step st entry Hwf) as (st1 & -> & Hwf1 & Hvis1).
    { intros u Hu. apply (Hno entry u); [apply list_elem_of_here|assumption]. }
    destruct (IH st1 Hwf1) as (st2 & Hrun & Hwf2 & Hvis2).
    { intros e u He Hu. apply (Hno e u); [now apply list_elem_of_further|assumption]. }
    exists st2. split; [assumption|]. split; [assumption|].
    rewrite bind_cons. apply (visited_trans _ _ st st1 st2); assumption.
Qed.

(** The pass ends without a TypeError when no note links to an inherited
    name, and its final state is reached from the one after the first loop
    by visiting the link targets of the file entries. *)
Lemma recomputeLinkState_total (fileEntries : list EntryFile)
  (existingLinkEntries : list EntryLink) :
  noInheritedTargets fileEntries ->
  exists st,
    recomputeLinkState fileEntries existingLinkEntries = Some st /\
    recomputeLinkEntries fileEntries existingLinkEntries = Some (deref st) /\
    wfLinkState st /\
    visited (fileEntries ≫= linkTargets)
      (visitAllExisting (initialLinkState existingLinkEntries) 0 existingLinkEntries) st.
Proof.
  intros Hno.
  pose proof (firstLoopInv_end existingLinkEntries) as Hinv.
  destruct (forEach_visitFileEntry fileEntries _ (inv_wf _ _ _ Hinv) Hno)
    as (st & Hrun & Hwf & Hvis).
  exists st. unfold recomputeLinkEntries, recomputeLinkState. rewrite Hrun.
  split; [reflexivity|]. split; [reflexivity|]. split; assumption.
Qed.

(** ** The result array *)

Lemma elem_of_deref (st : LinkState) (link : EntryLink) :
  link ∈ deref st <-> exists a, a ∈ linkEntries st /\ heap st !! a = Some link.
Proof. unfold deref. apply list_elem_of_omap. Qed.

(** The links of the result with the target [t]: the one [linkMap] holds,
    once, when its address has been pushed. *)
Lemma filter_deref_target (st : LinkState) (t : string) (a : nat) (link : EntryLink) :
  wfLinkState st ->
  linkMap st !! t = Some a -> heap st !! a = Some link -> a ∈ linkEntries st ->
  filter (fun l : EntryLink => target (content l) = t) (deref st) = [link].
Proof.
  intros Hwf Hl Hh Ha.
  assert (Ht : target (content link) = t).
  { destruct (wf_map st Hwf _ _ Hl) as (l & Hh' & Ht). congruence. }
  unfold deref.
  pose proof (wf_nodup st Hwf) as Hnd.
  pose proof (wf_entries st Hwf) as Hent.
  revert Ha Hnd Hent. generalize (linkEntries st) as addrs.
  assert (Hrest : forall addrs : list nat,
    a ∉ addrs ->
    (forall b, b ∈ addrs -> exists l, heap st !! b = Some l /\
                                      linkMap st !! target (content l) = Some b) ->
    filter (fun l : EntryLink => target (content l) = t)
      (omap (fun b => heap st !! b) addrs) = []).
  { induction addrs as [|b addrs IH]; intros Hna Hent; [reflexivity|].
    apply not_elem_of_cons in Hna as [Hne Hna].
    destruct (Hent b (list_elem_of_here _ _)) as (l & Hb & Hm).
    cbn [omap list_omap]. rewrite Hb.
    rewrite filter_cons_False.
    - apply IH; [assumption|]. intros b' Hb'. apply Hent. now apply list_elem_of_further.
    - intros E. rewrite E in Hm. congruence. }
  induction addrs as [|b addrs IH]; intros Ha Hnd Hent; [inversion Ha|].
  apply NoDup_cons in Hnd as [Hnb Hnd].
  destruct (Hent b (list_elem_of_here _ _)) as (l & Hb & Hm).
  cbn [omap list_omap]. rewrite Hb.
  apply elem_of_cons in Ha as [<-|Ha].
  - replace l with link by congruence.
    rewrite filter_cons_True by assumption. f_equal.
    apply Hrest; [assumption|]. intros b' Hb'. apply Hent. now apply list_elem_of_further.
  - rewrite filter_cons_False.
    + apply IH; [assumption|assumption|].
      intros b' Hb'. apply Hent. now apply list_elem_of_further.
    + intros E. rewrite E in Hm. assert (b = a) by congruence. subst b. contradiction.
Qed.

(** The link of a target: where it is, what it is, and that it has been
    pushed.  Visits of other targets keep all three. *)
Lemma slot_preserved (us : list string) (st st' : LinkState) (t : string) (a : nat)
  (link : EntryLink) :
  visited us st st' -> t ∉ us ->
  linkMap st !! t = Some a /\ heap st !! a = Some link /\ a ∈ linkEntries st ->
  linkMap st' !! t = Some a /\ heap st' !! a = Some link /\ a ∈ linkEntries st'.
Proof.
  intros Hvis Ht (Hl & Hh & Ha). split; [|split].
  - now apply (vis_map us st st' Hvis).
  - rewrite (vis_other_heap us st st' Hvis t a) by assumption. exact Hh.
  - now apply (vis_entries us st st' Hvis).
Qed.

End Links.

End LinkProofs.

(* ===================================================================== *)
(** * Link reconciliation: standalone links and reference aggregation *)
(* ===================================================================== *)

Module LinkReconciliation.
Import Repos Types Host EntryUtils LinkProofs.

Section Reconcile.
Context `{RepoId} `{LabelUtils}.

(** After the first loop: where the first link of a target is. *)
Lemma first_loop_first (existing : list EntryLink) (i : nat) (link : EntryLink) :
  existing !! i = Some link ->
  firstWithTarget existing i ->
  target (content link) ∉ objectPrototypeKeys ->
  linkMap (visitAllExisting (initialLinkState existing) 0 existing)
    !! target (content link) = Some i.
Proof.
  intros Hi Hfirst Hown.
  pose proof (firstLoopInv_end existing) as Hinv.
  destruct (inv_seen _ _ _ Hinv i link Hi Hown) as [a Ha].
  destruct (inv_map _ _ _ Hinv _ _ Ha) as (other & Ho & Ht & Hno).
  rewrite Ha. f_equal.
  destruct (Nat.lt_trichotomy a i) as [Hlt|[->|Hgt]]; [|reflexivity|].
  - exfalso. now apply (Hfirst a other link).
  - exfalso. now apply (Hno i link).
Qed.

Lemma first_loop_heap (existing : list EntryLink) (i : nat) (link : EntryLink) :
  existing !! i = Some link ->
  heap (visitAllExisting (initialLinkState existing) 0 existing) !! i
  = Some (resetLink link).
Proof.
  intros Hi. rewrite (inv_heap _ _ _ (firstLoopInv_end existing)), app_nil_r.
  rewrite list_lookup_fmap, Hi. reflexivity.
Qed.

(** C6, as amended: when no note links to a name inherited from
    [Object.prototype], the pass ends, and (1) every existing link that is
    marked standalone, is the first of the existing links with its target and
    whose target is not such an inherited name is in the result, with its
    title, priority, key, target, standalone repo and own labels, whether or
    not a note refers to it; (2) an existing link that is not standalone and
    whose target no note refers to is not in the result, and the result has
    no link with its target that is not standalone. *)
Theorem recomputeLinkEntries_standalone (fileEntries : list EntryFile)
  (existingLinkEntries : list EntryLink) :
  noInheritedTargets fileEntries ->
  exists st,
    recomputeLinkState fileEntries existingLinkEntries = Some st /\
    recomputeLinkEntries fileEntries existingLinkEntries = Some (deref st) /\
    (forall i link,
        existingLinkEntries !! i = Some link ->
        is_Some (standaloneRepo (content link)) ->
        firstWithTarget existingLinkEntries i ->
        target (content link) ∉ objectPrototypeKeys ->
        i ∈ linkEntries st /\
        exists link', heap st !! i = Some link' /\ sameLink link link' /\
                      link' ∈ deref st) /\
    (forall i link,
        existingLinkEntries !! i = Some link ->
        standaloneRepo (content link) = None ->
        (forall entry, entry ∈ fileEntries ->
                       target (content link) ∉ linkTargets entry) ->
        (i ∉ linkEntries st) /\
        (forall link', link' ∈ deref st ->
                       ~ (target (content link') = target (content link) /\
                          standaloneRepo (content link') = None))).
Proof.
  intros Hno.
  destruct (recomputeLinkState_total fileEntries existingLinkEntries Hno)
    as (st & Hst & Hres & Hwf & Hvis).
  pose proof (firstLoopInv_end existingLinkEntries) as Hinv.
  set (st1 := visitAllExisting (initialLinkState existingLinkEntries) 0
                existingLinkEntries) in *.
  exists st. split; [assumption|]. split; [assumption|]. split.
  - intros i link Hi Hsa Hfirst Hown.
    assert (Hi1 : i ∈ linkEntries st1).
    { apply (inv_entries _ _ _ Hinv). exists link. split; [assumption|].
      split; [assumption|]. now apply first_loop_first. }
    pose proof (vis_entries _ _ _ Hvis _ Hi1) as Hi2.
    split; [assumption|].
    destruct (vis_heap _ _ _ Hvis i (resetLink link)) as (link' & Hh & Hs).
    { now apply first_loop_heap. }
    exists link'. split; [assumption|]. split.
    + eapply sameLink_trans; [apply sameLink_resetLink|exact Hs].
    + apply elem_of_deref. now exists i.
  - intros i link Hi Hns Hnoref.
    assert (Hpushed : forall a link',
      a ∈ linkEntries st -> heap st !! a = Some link' ->
      is_Some (standaloneRepo (content link')) \/
      exists entry, entry ∈ fileEntries /\ target (content link') ∈ linkTargets entry).
    { intros a link' Ha Hh.
      destruct (vis_pushed _ _ _ Hvis _ Ha) as [Ha1|(u & Hu & Hl)].
      - left. apply (inv_entries _ _ _ Hinv) in Ha1 as (l0 & Hl0 & Hs0 & _).
        destruct (vis_heap _ _ _ Hvis a (resetLink l0)) as (l' & Hh' & Hs).
        { now apply first_loop_heap. }
        destruct Hs as (_ & _ & _ & _ & _ & Hs & _).
        replace link' with l' by congruence. rewrite <- Hs. exact Hs0.
      - right. apply list_elem_of_bind in Hu as (entry & Hu & He).
        exists entry. split; [assumption|].
        destruct (wf_map st Hwf _ _ Hl) as (l & Hh' & Ht).
        replace link' with l by congruence. now rewrite Ht. }
    destruct (vis_heap _ _ _ Hvis i (resetLink link)) as (link0 & Hh0 & Hs0).
    { now apply first_loop_heap. }
    destruct Hs0 as (_ & _ & _ & _ & Ht0 & Hsa0 & _). cbn in Ht0, Hsa0.
    split.
    + intros Ha. destruct (Hpushed _ _ Ha Hh0) as [[r Hr]|(entry & He & Hu)].
      * rewrite <- Hsa0, Hns in Hr. discriminate Hr.
      * rewrite <- Ht0 in Hu. now apply (Hnoref entry).
    + intros link' Hin [Ht Hsa]. apply elem_of_deref in Hin as (a & Ha & Hh).
      destruct (Hpushed _ _ Ha Hh) as [[r Hr]|(entry & He & Hu)].
      * rewrite Hsa in Hr. discriminate Hr.
      * rewrite Ht in Hu. now apply (Hnoref entry).
Qed.


(** The visits of the link targets of a note in which [t] occurs once: the
    visits before, the visit of [t], the visits after. *)
Lemma forEach_around (entry : EntryFile) (info : FileInfo) (before after : list string)
  (t : string) (st : LinkState) :
  wfLinkState st ->
  (forall u, u ∈ before ++ t :: after -> u ∉ objectPrototypeKeys) ->
  exists st1 st2 st3,
    forEach (visitLinkTarget entry info) st before = Some st1 /\
    visitLinkTarget entry info st1 t = Some st2 /\
    forEach (visitLinkTarget entry info) st2 after = Some st3 /\
    forEach (visitLinkTarget entry info) st (before ++ t :: after) = Some st3 /\
    wfLinkState st1 /\ wfLinkState st2 /\ wfLinkState st3 /\
    visited before st st1 /\ visited after st2 st3.
Proof.
  intros Hwf Hown.
  destruct (forEach_visitLinkTarget entry info before st Hwf) as (st1 & Hr1 & Hwf1 & Hv1).
  { intros u Hu. apply Hown, elem_of_app. now left. }
  destruct (visitLinkTarget_step entry info st1 t Hwf1) as (st2 & Hr2 & Hwf2 & Hv2).
  { apply Hown, elem_of_app. right. apply list_elem_of_here. }
  destruct (forEach_visitLinkTarget entry info after st2 Hwf2) as (st3 & Hr3 & Hwf3 & Hv3).
  { intros u Hu. apply Hown, elem_of_app. right. now apply list_elem_of_further. }
  exists st1, st2, st3.
  split; [assumption|]. split; [assumption|]. split; [assumption|].
  split; [|now repeat (split; [assumption|])].
  rewrite forEach_app, Hr1. cbn [mbind option_bind forEach]. now rewrite Hr2.
Qed.

(** C7, as amended: for two notes in different locations, each of which
    links exactly once to a target that no existing link has, and neither of
    which links to a name inherited from [Object.prototype], the pass ends
    with exactly one link for that target; its title is the target, its
    back-references are the two notes in order, its locations are the two
    locations in order, its repos are the first note's repo and, when its id
    differs, the second note's, and its labels are [normalizeLabels] of the
    first note's labels followed by the second note's. *)
Theorem recomputeLinkEntries_aggregates (existingLinkEntries : list EntryLink)
  (note1 note2 : EntryFile) (info1 info2 : FileInfo) (text1 text2 : NoteText)
  (before1 after1 before2 after2 : list string) (t : string) :
  content note1 = ContentNote info1 text1 ->
  content note2 = ContentNote info2 text2 ->
  location info1 <> location info2 ->
  links text1 = before1 ++ t :: after1 -> t ∉ before1 -> t ∉ after1 ->
  links text2 = before2 ++ t :: after2 -> t ∉ before2 -> t ∉ after2 ->
  (forall link, link ∈ existingLinkEntries -> target (content link) <> t) ->
  noInheritedTargets [note1; note2] ->
  exists result theLink,
    recomputeLinkEntries [note1; note2] existingLinkEntries = Some result /\
    filter (fun l : EntryLink => target (content l) = t) result = [theLink] /\
    title theLink = t /\
    key theLink = Some ("__link_" +:+ t) /\
    referencedBy (content theLink) = [note1; note2] /\
    refLocations (content theLink) = [location info1; location info2] /\
    refRepos (content theLink)
    = (if String.eqb (getRepoId (repo info1)) (getRepoId (repo info2))
       then [repo info1] else [repo info1; repo info2]) /\
    labels theLink = normalizeLabels (labels note1 ++ labels note2) /\
    ownLabels (content theLink) = [] /\
    standaloneRepo (content theLink) = None.
Proof.
  intros Hc1 Hc2 Hloc Hl1 Hb1 Ha1 Hl2 Hb2 Ha2 Hfresh Hno.
  pose proof (firstLoopInv_end existingLinkEntries) as Hinv.
  set (st0 := visitAllExisting (initialLinkState existingLinkEntries) 0
                existingLinkEntries) in *.
  assert (Hnone0 : linkMap st0 !! t = None).
  { destruct (linkMap st0 !! t) as [a|] eqn:E; [|reflexivity].
    destruct (inv_map _ _ _ Hinv _ _ E) as (link & Hl & Ht & _).
    exfalso. apply (Hfresh link); [|assumption].
    apply list_elem_of_lookup. now exists a. }
  assert (Hown1 : forall u, u ∈ before1 ++ t :: after1 -> u ∉ objectPrototypeKeys).
  { intros u Hu. apply (Hno note1 u); [apply list_elem_of_here|].
    unfold linkTargets. now rewrite Hc1, Hl1. }
  assert (Hown2 : forall u, u ∈ before2 ++ t :: after2 -> u ∉ objectPrototypeKeys).
  { intros u Hu. apply (Hno note2 u); [apply list_elem_of_further, list_elem_of_here|].
    unfold linkTargets. now rewrite Hc2, Hl2. }
  assert (Ht : t ∉ objectPrototypeKeys).
  { apply Hown1, elem_of_app. right. apply list_elem_of_here. }
  (* the first note *)
  destruct (forEach_around note1 info1 before1 after1 t st0 (inv_wf _ _ _ Hinv) Hown1)
    as (st1 & st2 & st3 & _ & Hr2 & _ & Hrun1 & Hwf1 & Hwf2 & Hwf3 & Hv1 & Hv3).
  assert (Hnone1 : linkMap st1 !! t = None).
  { now rewrite (vis_other_map _ _ _ Hv1 t). }
  destruct (visitLinkTarget_new note1 info1 st1 t Hwf1 Ht Hnone1)
    as (st2' & Hr2' & _ & _ & Hm2 & Hh2 & He2).
  rewrite Hr2 in Hr2'. injection Hr2' as <-.
  set (a := length (heap st1)) in *.
  pose proof (slot_preserved after1 st2 st3 t a _ Hv3 Ha1 (conj Hm2 (conj Hh2 He2)))
    as Hslot3.
  (* the second note *)
  destruct (forEach_around note2 info2 before2 after2 t st3 Hwf3 Hown2)
    as (st4 & st5 & st6 & _ & Hr5 & _ & Hrun2 & Hwf4 & Hwf5 & Hwf6 & Hv4 & Hv6).
  destruct (slot_preserved before2 st3 st4 t a _ Hv4 Hb2 Hslot3) as (Hm4 & Hh4 & He4).
  destruct (visitLinkTarget_known note2 info2 st4 t a _ Hwf4 Hm4 Hh4)
    as (st5' & Hr5' & _ & _ & Hm5 & Hh5 & He5 & _).
  rewrite Hr5 in Hr5'. injection Hr5' as <-.
  destruct (slot_preserved after2 st5 st6 t a _ Hv6 Ha2 (conj Hm5 (conj Hh5 He5)))
    as (Hm6 & Hh6 & He6).
  exists (deref st6), (addReference note2 info2 (newLink note1 info1 t)).
  split.
  { unfold recomputeLinkEntries, recomputeLinkState. fold st0. cbn [forEach].
    unfold visitFileEntry at 1. rewrite Hc1, Hl1, Hrun1.
    unfold visitFileEntry at 1. rewrite Hc2, Hl2, Hrun2. reflexivity. }
  split; [now apply (filter_deref_target st6 t a)|].
  cbn [addReference newLink recomputeKeyLink setKey title key content labels
       referencedBy refLocations refRepos ownLabels standaloneRepo target].
  repeat split.
  - unfold mergeLocations. cbn [existsb].
    destruct (String.eqb_spec (location info1) (location info2)); [contradiction|].
    reflexivity.
  - unfold mergeRepos. cbn [existsb]. rewrite orb_false_r.
    destruct (String.eqb (getRepoId (repo info1)) (getRepoId (repo info2))); reflexivity.
Qed.

End Reconcile.

Lemma not_elem_of_strings (x : string) (l : list string) :
  bool_decide (x ∈ l) = false -> x ∉ l.
Proof. apply bool_decide_eq_false_1. Qed.

(** ** Examples *)

Lemma noInheritedTargets_example :
  noInheritedTargets [Examples.noteEntry "n" "notes" [] ["https://a.example"]].
Proof.
  intros entry u He Hu.
  apply list_elem_of_singleton in He as ->.
  apply list_elem_of_singleton in Hu as ->.
  now apply not_elem_of_strings.
Qed.

(** A standalone link and a link that is not, neither referred to by the
    only note: the first is in the result, the second is not. *)
Lemma recomputeLinkEntries_standalone_witness :
  let fileEntries := [Examples.noteEntry "n" "notes" [] ["https://a.example"]] in
  let existing := [Examples.storedLink "S" "https://s.example" ["x"] true;
                   Examples.storedLink "U" "https://u.example" [] false] in
  exists st,
    @recomputeLinkState Examples.keyRepoId Examples.sortedLabels fileEntries existing
    = Some st /\
    0%nat ∈ linkEntries st /\ 1%nat ∉ linkEntries st.
Proof.
  intros fileEntries existing.
  destruct (@recomputeLinkEntries_standalone Examples.keyRepoId Examples.sortedLabels
              fileEntries existing noInheritedTargets_example)
    as (st & Hst & _ & Hsa & Hns).
  exists st. split; [exact Hst|]. split.
  - refine (proj1 (Hsa 0%nat _ eq_refl _ _ _)).
    + now eexists.
    + intros j other link Hj. lia.
    + now apply not_elem_of_strings.
  - refine (proj1 (Hns 1%nat _ eq_refl eq_refl _)).
    intros entry He. apply list_elem_of_singleton in He as ->.
    now apply not_elem_of_strings.
Defined.

(** C6, as stated, fails: a standalone link whose target an earlier existing
    link has is discarded as a duplicate, and when that earlier link is not
    standalone and no note refers to the target, the result has no link for
    the target at all. *)
Lemma recomputeLinkEntries_duplicate_target_counterexample :
  ~ (forall (R : RepoId) (N : LabelUtils) (fileEntries : list EntryFile)
            (existing result : list EntryLink) (link : EntryLink),
        recomputeLinkEntries fileEntries existing = Some result ->
        link ∈ existing ->
        (is_Some (standaloneRepo (content link)) ->
         exists link', link' ∈ result /\
                       target (content link') = target (content link)) /\
        (standaloneRepo (content link) = None ->
         (forall entry, entry ∈ fileEntries ->
                        target (content link) ∉ linkTargets entry) ->
         link ∉ result)).
Proof.
  intros Hclaim.
  destruct (Hclaim Examples.keyRepoId Examples.sortedLabels []
              [Examples.storedLink "t" "https://t.example" [] false;
               Examples.storedLink "T" "https://t.example" [] true]
              [] (Examples.storedLink "T" "https://t.example" [] true))
    as [Hsa _].
  - reflexivity.
  - apply list_elem_of_further, list_elem_of_here.
  - destruct Hsa as (link' & Hin & _); [now eexists|]. inversion Hin.
Qed.

(** Two notes in the locations work and home that link to the same
    target. *)
Lemma recomputeLinkEntries_aggregates_witness :
  let note1 := Examples.noteEntry "n1" "work" ["b"; "a"] ["https://t.example"] in
  let note2 := Examples.noteEntry "n2" "home" ["c"; "a"] ["https://u.example"; "https://t.example"] in
  exists result theLink,
    @recomputeLinkEntries Examples.keyRepoId Examples.sortedLabels [note1; note2] []
    = Some result /\
    filter (fun l : EntryLink => target (content l) = "https://t.example") result
    = [theLink] /\
    referencedBy (content theLink) = [note1; note2] /\
    refLocations (content theLink) = ["work"; "home"] /\
    labels theLink = ["a"; "b"; "c"].
Proof.
  intros note1 note2.
  destruct (@recomputeLinkEntries_aggregates Examples.keyRepoId Examples.sortedLabels []
              note1 note2 _ _ _ _ [] [] ["https://u.example"] [] "https://t.example"
              eq_refl eq_refl)
    as (result & theLink & Hres & Hone & _ & _ & Hrefs & Hlocs & _ & Hlabels & _).
  - discriminate.
  - reflexivity.
  - apply not_elem_of_nil.
  - apply not_elem_of_nil.
  - reflexivity.
  - now apply not_elem_of_strings.
  - apply not_elem_of_nil.
  - intros link Hin. inversion Hin.
  - intros entry u He Hu.
    apply elem_of_cons in He as [->|He]; [|apply list_elem_of_singleton in He as ->].
    + apply list_elem_of_singleton in Hu as ->. now apply not_elem_of_strings.
    + apply elem_of_cons in Hu as [->|Hu]; [|apply list_elem_of_singleton in Hu as ->];
        now apply not_elem_of_strings.
  - exists result, theLink. repeat split; assumption.
Defined.

(** C7, as stated, fails: a note that links twice to the target is pushed
    twice, and the back-reference list has length 3. *)
Lemma recomputeLinkEntries_linked_twice_counterexample :
  ~ (forall (R : RepoId) (N : LabelUtils) (existing : list EntryLink)
            (note1 note2 : EntryFile) (info1 info2 : FileInfo) (text1 text2 : NoteText)
            (t : string),
        content note1 = ContentNote info1 text1 ->
        content note2 = ContentNote info2 text2 ->
        location info1 <> location info2 ->
        t ∈ links text1 -> t ∈ links text2 ->
        (forall link, link ∈ existing -> target (content link) <> t) ->
        exists result theLink,
          recomputeLinkEntries [note1; note2] existing = Some result /\
          filter (fun l : EntryLink => target (content l) = t) result = [theLink] /\
          length (referencedBy (content theLink)) = 2%nat).
Proof.
  intros Hclaim.
  destruct (Hclaim Examples.keyRepoId Examples.sortedLabels []
              (Examples.noteEntry "n1" "work" [] ["https://t.example"; "https://t.example"])
              (Examples.noteEntry "n2" "home" [] ["https://t.example"])
              _ _ _ _ "https://t.example" eq_refl eq_refl)
    as (result & theLink & Hres & Hone & Hlen).
  - discriminate.
  - apply list_elem_of_here.
  - apply list_elem_of_here.
  - intros link Hin. inversion Hin.
  - vm_compute in Hres. injection Hres as <-.
    vm_compute in Hone. injection Hone as <-.
    vm_compute in Hlen. discriminate Hlen.
Qed.

End LinkReconciliation.

(* ===================================================================== *)
(** * Reconciling twice *)
(* ===================================================================== *)

Module Idempotence.
Import Repos Types Host EntryUtils.

Section Drift.
Context `{StringHost} `{RepoId} `{LabelUtils}.

(** C8 fails on the code.  A note whose labels [normalizeLabels] changes
    links to a target that no existing link has.  The first pass creates the
    link with a copy of the note's labels as they are; the second pass, given
    the links of the first, resets the link's labels to its own labels (none)
    and merges the note's labels in through [mergeLabels], which normalizes
    them.  The links and the entries of the second pass differ from the ones
    of the first. *)
Theorem recomputeEntries_label_drift (noteLabels : list RawLabel) :
  normalizeLabels noteLabels <> noteLabels ->
  let fileEntries := [Examples.noteEntry "n" "notes" noteLabels ["https://t.example"]] in
  exists L1 E1 L2 E2,
    recomputeEntries fileEntries [] = Some (L1, E1) /\
    recomputeEntries fileEntries L1 = Some (L2, E2) /\
    labels <$> L1 = [noteLabels] /\
    labels <$> L2 = [normalizeLabels noteLabels] /\
    L2 <> L1 /\ E2 <> E1.
Proof.
  intros Hdrift fileEntries.
  eexists _, _, _, _.
  split; [vm_compute; reflexivity|].
  split; [vm_compute; reflexivity|].
  split; [reflexivity|]. split; [reflexivity|].
  split.
  - intros E. apply (f_equal (fmap labels)) in E. cbn in E.
    injection E as E. apply Hdrift. exact E.
  - intros E. apply (f_equal (fmap labels)) in E. cbn in E.
    injection E as E. apply Hdrift. exact E.
Qed.

End Drift.

(** With labels sorted by [normalizeLabels]: the labels b, a of the note are
    the link's labels after the first pass, and a, b after the second. *)
Lemma recomputeEntries_label_drift_witness :
  exists L1 E1 L2 E2,
    @recomputeEntries Examples.keyRepoId Examples.sortedLabels Examples.asciiHost
      [Examples.noteEntry "n" "notes" ["b"; "a"] ["https://t.example"]] [] = Some (L1, E1) /\
    @recomputeEntries Examples.keyRepoId Examples.sortedLabels Examples.asciiHost
      [Examples.noteEntry "n" "notes" ["b"; "a"] ["https://t.example"]] L1 = Some (L2, E2) /\
    labels <$> L1 = [["b"; "a"]] /\
    labels <$> L2 = [["a"; "b"]].
Proof.
  destruct (@recomputeEntries_label_drift Examples.asciiHost Examples.keyRepoId
              Examples.sortedLabels ["b"; "a"])
    as (L1 & E1 & L2 & E2 & H1 & H2 & H3 & H4 & _).
  - discriminate.
  - exists L1, E1, L2, E2. repeat split; assumption.
Defined.

End Idempotence.

(* ===================================================================== *)
(** * Entry extraction and loading *)
(* ===================================================================== *)

Module LoadingProofs.
Import Repos Types Neverthrow FileMaps Io PathUtilsExt Extraction.

Section Loading.
Context `{RepoId} `{IoFns} `{PathFns}.

Lemma get_here (file : File) (rest : list File) :
  get (file :: rest) (path file) = Some file.
Proof. unfold get. cbn [list_find]. rewrite decide_True by reflexivity. reflexivity. Qed.

Lemma get_further (file : File) (rest : list File) (p : string) :
  path file <> p -> get (file :: rest) p = get rest p.
Proof.
  intros Hne. unfold get. cbn [list_find]. rewrite decide_False by assumption.
  destruct (list_find (fun f => path f = p) rest) as [[i f]|]; reflexivity.
Qed.

Lemma convertFilesToFileMap_two (file1 file2 : File) :
  path file1 <> path file2 ->
  convertFilesToFileMap [file1; file2] = [file1; file2].
Proof.
  intros Hne. unfold convertFilesToFileMap, setFile. cbn [foldl list_find app].
  rewrite decide_False by assumption. reflexivity.
Qed.

(** C5 fails on the code.  A repo holds a tracked file and its MetaData
    sidecar, and the fetch of the sidecar has failed.  The extraction skips
    the file: no entry is derived and the edit-side file map is the original
    one, without a staged sidecar.  But [loadEntries] returns no entry, no
    link DB and no staged change and nothing else: what the caller receives
    is what it receives for a repo without files, and the failed fetch is
    not reported. *)
Theorem loadEntries_meta_fetch_error_unreported (downloadFiles : Repo -> list File)
  (repo : Repo) (file metaFile : File) (fetchError : Octokit.WrappedError) :
  downloadFiles repo = [file; metaFile] ->
  isNotemarksFile (path file) = false ->
  path metaFile = getAssociatedMetaPath (path file) ->
  isNotemarksFile (path metaFile) = true ->
  content metaFile = None ->
  error metaFile = Some fetchError ->
  path file <> NOTEMARKS_LINK_DB_PATH ->
  extractFileEntriesAndUpdateFileMap [(repo, [file; metaFile])]
  = ([], [(repo, [file; metaFile])]) /\
  loadEntries downloadFiles [repo]
  = {| fileEntries := []; allLinkDBs := []; stagedChanges := [] |} /\
  loadEntries downloadFiles [repo] = loadEntries (fun _ => []) [repo].
Proof.
  intros Hfiles Hfile Hpath Hmeta Hcontent Herror Hdb.
  assert (Hne : path file <> path metaFile).
  { intros E. rewrite E, Hmeta in Hfile. discriminate Hfile. }
  assert (Hextract : extractFileEntriesAndUpdateFileMap [(repo, [file; metaFile])]
                     = ([], [(repo, [file; metaFile])])).
  { unfold extractFileEntriesAndUpdateFileMap. cbn [foldl].
    unfold visitFile at 2. rewrite Hfile. cbn [negb].
    rewrite <- Hpath, (get_further file) by assumption.
    rewrite get_here, Hcontent, Herror.
    rewrite bool_decide_eq_true_2 by eauto.
    unfold visitFile. rewrite Hmeta. reflexivity. }
  split; [exact Hextract|].
  assert (Hload : loadEntries downloadFiles [repo]
                  = {| fileEntries := []; allLinkDBs := []; stagedChanges := [] |}).
  { unfold loadEntries. cbn [foldl]. unfold loadRepo.
    rewrite Hfiles, convertFilesToFileMap_two by assumption.
    rewrite (get_further file) by assumption.
    change (setRepo [] repo [file; metaFile]) with [(repo, [file; metaFile])].
    destruct (decide (path metaFile = NOTEMARKS_LINK_DB_PATH)) as [E|E].
    - rewrite <- E, get_here, Hcontent. now rewrite Hextract.
    - rewrite get_further by assumption. cbn [get list_find fmap option_fmap option_map].
      now rewrite Hextract. }
  split; [exact Hload|].
  rewrite Hload. reflexivity.
Qed.

End Loading.

(** The note a.md and its sidecar .notemarks/a.md.yaml, not fetched. *)
Lemma loadEntries_meta_fetch_error_unreported_witness :
  @loadEntries Examples.keyRepoId Examples.exampleIoFns Examples.examplePathFns
    (fun _ => [Examples.fetchedNote; Examples.unfetchedMeta]) [Examples.repoA]
  = {| fileEntries := []; allLinkDBs := []; stagedChanges := [] |}.
Proof.
  refine (proj1 (proj2 (@loadEntries_meta_fetch_error_unreported
            Examples.keyRepoId Examples.exampleIoFns Examples.examplePathFns
            (fun _ => [Examples.fetchedNote; Examples.unfetchedMeta]) Examples.repoA
            Examples.fetchedNote Examples.unfetchedMeta _
            eq_refl eq_refl eq_refl eq_refl eq_refl eq_refl _))).
  discriminate.
Defined.

End LoadingProofs.

(* ===================================================================== *)
(** * Path codec: filenames as path segments *)
(* ===================================================================== *)

Module PathSegments.
Import PathUtils PathUtilsProofs PathKinds Types.

(** ** Occurrences of a code unit *)

Lemma contains_app c s1 s2 : contains c (s1 ++ s2) = contains c s1 || contains c s2.
Proof. unfold contains. apply existsb_app. Qed.

Lemma contains_cons c x s : contains c (x :: s) = N.eqb c x || contains c s.
Proof. reflexivity. Qed.

(** The last occurrence of a code unit that occurs. *)
Lemma contains_last c s :
  contains c s = true -> exists s1 s2, s = s1 ++ c :: s2 /\ contains c s2 = false.
Proof.
  induction s as [|x s IH]; [discriminate|].
  rewrite contains_cons. intros H.
  destruct (contains c s) eqn:Hs.
  - destruct (IH eq_refl) as (s1 & s2 & -> & H2). now exists (x :: s1), s2.
  - rewrite orb_false_r in H. apply N.eqb_eq in H as <-. now exists [], s.
Qed.

Lemma lastIndexOf_from_absent c s : forall i found,
  contains c s = false -> lastIndexOf_from c s i found = found.
Proof.
  induction s as [|x s IH]; intros i found H; [reflexivity|].
  rewrite contains_cons in H. apply orb_false_iff in H as [Hx Hs].
  cbn [lastIndexOf_from]. rewrite N.eqb_sym, Hx. now apply IH.
Qed.

Lemma lastIndexOf_from_last c s1 s2 : forall i found,
  contains c s2 = false ->
  lastIndexOf_from c (s1 ++ c :: s2) i found = i + Z.of_nat (length s1).
Proof.
  induction s1 as [|x s1 IH]; intros i found H.
  - cbn [app lastIndexOf_from]. rewrite N.eqb_refl.
    rewrite lastIndexOf_from_absent by assumption. cbn [length]. lia.
  - cbn [app lastIndexOf_from]. rewrite IH by assumption.
    rewrite length_cons. lia.
Qed.

Lemma substring_suffix (s1 s2 : jsstring) :
  substring (s1 ++ s2) (Z.of_nat (length s1)) (Z.of_nat (length (s1 ++ s2))) = s2.
Proof.
  unfold substring. rewrite length_app.
  replace (Z.max 0 (Z.min (Z.of_nat (length s1)) (Z.of_nat (length s1 + length s2))))
    with (Z.of_nat (length s1)) by lia.
  replace (Z.max 0 (Z.min (Z.of_nat (length s1 + length s2))
                      (Z.of_nat (length s1 + length s2))))
    with (Z.of_nat (length s1 + length s2)) by lia.
  replace (Z.min (Z.of_nat (length s1)) (Z.of_nat (length s1 + length s2)))
    with (Z.of_nat (length s1)) by lia.
  replace (Z.max (Z.of_nat (length s1)) (Z.of_nat (length s1 + length s2)))
    with (Z.of_nat (length s1 + length s2)) by lia.
  rewrite Nat2Z.id.
  replace (Z.to_nat (Z.of_nat (length s1 + length s2) - Z.of_nat (length s1)))
    with (length s2) by lia.
  rewrite drop_app_length. apply firstn_all.
Qed.

(** A path with a separator is split at the last one. *)
Lemma splitLocationAndFilename_last (location filename : jsstring) :
  contains SOLIDUS filename = false ->
  splitLocationAndFilename (location ++ SOLIDUS :: filename) = (location, filename).
Proof.
  intros H. unfold splitLocationAndFilename, lastIndexOf.
  rewrite lastIndexOf_from_last by assumption. rewrite Z.add_0_l.
  destruct (Z.eqb_spec (Z.of_nat (length location)) (-1)) as [E|_]; [lia|].
  f_equal.
  - apply substring_prefix.
  - replace (Z.of_nat (length location) + 1)
      with (Z.of_nat (length (location ++ [SOLIDUS])))
      by (rewrite length_app; cbn [length]; lia).
    replace (location ++ SOLIDUS :: filename) with ((location ++ [SOLIDUS]) ++ filename)
      by now rewrite <- app_assoc.
    apply substring_suffix.
Qed.

(** X1: [splitLocationAndFilename] cuts a path at its last separator: the
    filename has no separator; a path without separator is the filename, with
    the empty location; a path with a separator is location, separator,
    filename. *)
Theorem splitLocationAndFilename_join (path : jsstring) :
  contains SOLIDUS (splitLocationAndFilename path).2 = false /\
  (if contains SOLIDUS path
   then path = (splitLocationAndFilename path).1
               ++ SOLIDUS :: (splitLocationAndFilename path).2
   else splitLocationAndFilename path = ([], path)).
Proof.
  destruct (contains SOLIDUS path) eqn:Hc.
  - destruct (contains_last _ _ Hc) as (location & filename & -> & Hf).
    rewrite splitLocationAndFilename_last by assumption. now split.
  - unfold splitLocationAndFilename, lastIndexOf.
    rewrite lastIndexOf_from_absent by assumption. cbn [Z.eqb snd]. now split.
Qed.

Lemma contains_escapeUnit x : contains SOLIDUS (escapeUnit x) = false.
Proof.
  unfold escapeUnit.
  destruct (N.eqb_spec x BIG_REVERSE_SOLIDUS) as [->|H1]; [reflexivity|].
  destruct (N.eqb_spec x BIG_SOLIDUS) as [->|H2]; [reflexivity|].
  destruct (N.eqb_spec x SOLIDUS) as [->|H3]; [reflexivity|].
  unfold contains. cbn [existsb]. rewrite orb_false_r.
  apply N.eqb_neq. congruence.
Qed.

Lemma contains_escapeTitle t : contains SOLIDUS (escapeTitle t) = false.
Proof.
  induction t as [|x t IH]; [reflexivity|].
  now rewrite escapeTitle_cons, contains_app, contains_escapeUnit, IH.
Qed.

Lemma contains_titleToFilename title extension :
  contains SOLIDUS (titleToFilename title extension)
  = from_option (contains SOLIDUS) false extension.
Proof.
  unfold titleToFilename. destruct extension as [[|c e]|]; cbn [from_option].
  - cbn [length Z.of_nat Z.ltb Z.compare]. apply contains_escapeTitle.
  - replace (0 <? Z.of_nat (length (c :: e))) with true
      by (symmetry; apply Z.ltb_lt; rewrite length_cons; lia).
    rewrite !contains_app, contains_escapeTitle. reflexivity.
  - apply contains_escapeTitle.
Qed.

Lemma filenameToTitle_safe title extension :
  roundtrip_safe title extension = true ->
  filenameToTitle (titleToFilename title extension) = title.
Proof.
  unfold roundtrip_safe, titleToFilename.
  destruct extension as [[|c e]|]; intros H; apply negb_true_iff in H.
  - cbn [length Z.of_nat Z.ltb Z.compare]. now apply filenameToTitle_plain.
  - replace (0 <? Z.of_nat (length (c :: e))) with true
      by (symmetry; apply Z.ltb_lt; rewrite length_cons; lia).
    now apply filenameToTitle_dotted.
  - now apply filenameToTitle_plain.
Qed.

(** X2: the escaped title never contains "/": a filename made by
    [titleToFilename] contains a "/" only if the extension does, so with an
    ordinary extension it is a single path segment. *)
Theorem titleToFilename_segment (title : jsstring) (extension : option jsstring) :
  contains SOLIDUS (escapeTitle title) = false /\
  contains SOLIDUS (titleToFilename title extension)
  = from_option (contains SOLIDUS) false extension.
Proof. split; [apply contains_escapeTitle|apply contains_titleToFilename]. Qed.

(** X3: two titles that give the same filename with the same extension
    are the same title, also where the title contains full stops and the
    round trip through [filenameToTitle] fails. *)
Theorem titleToFilename_inj (t1 t2 : jsstring) (extension : option jsstring) :
  titleToFilename t1 extension = titleToFilename t2 extension -> t1 = t2.
Proof.
  intros E.
  assert (Hesc : escapeTitle t1 = escapeTitle t2).
  { unfold titleToFilename in E. destruct extension as [ext|]; [|exact E].
    destruct (0 <? Z.of_nat (length ext)); [|exact E].
    now apply app_inv_tail in E. }
  rewrite <- (unescape_escape t1), <- (unescape_escape t2). now rewrite Hesc.
Qed.

Lemma titleToFilename_inj_witness :
  titleToFilename [0x61; 0x2E; 0x62]%N None = titleToFilename [0x61; 0x2E; 0x62]%N None /\
  [0x61; 0x2E; 0x62]%N = [0x61; 0x2E; 0x62]%N.
Proof.
  split; [reflexivity|].
  apply (titleToFilename_inj [0x61; 0x2E; 0x62]%N [0x61; 0x2E; 0x62]%N None). reflexivity.
Defined.

(** X4: a path made of a location, "/" and the filename of a title splits
    back into that location and that filename, whatever separators the
    location and the title contain, and the filename gives the title back
    where the round trip of the filename holds. *)
Theorem path_of_title_roundtrip (location title : jsstring) (extension : option jsstring) :
  from_option (contains SOLIDUS) false extension = false ->
  splitLocationAndFilename (location ++ SOLIDUS :: titleToFilename title extension)
  = (location, titleToFilename title extension) /\
  (roundtrip_safe title extension = true ->
   filenameToTitle
     (splitLocationAndFilename (location ++ SOLIDUS :: titleToFilename title extension)).2
   = title).
Proof.
  intros Hext.
  assert (Hsplit : splitLocationAndFilename
                     (location ++ SOLIDUS :: titleToFilename title extension)
                   = (location, titleToFilename title extension)).
  { apply splitLocationAndFilename_last.
    now rewrite contains_titleToFilename. }
  split; [exact Hsplit|].
  intros Hsafe. rewrite Hsplit. cbn [snd].
  now apply filenameToTitle_safe.
Qed.

(** The title "a/b" in the location "x/y", with the extension "md". *)
Lemma path_of_title_roundtrip_witness :
  splitLocationAndFilename
    ([0x78; 0x2F; 0x79]%N ++ SOLIDUS :: titleToFilename [0x61; 0x2F; 0x62]%N (Some MD))
  = ([0x78; 0x2F; 0x79]%N, titleToFilename [0x61; 0x2F; 0x62]%N (Some MD)).
Proof.
  apply (proj1 (path_of_title_roundtrip [0x78; 0x2F; 0x79]%N [0x61; 0x2F; 0x62]%N
                  (Some MD) eq_refl)).
Defined.

(** ** The extension that decides the kind *)

Lemma last_split_from_absent c s : forall cur,
  contains c s = false -> last (split_from c s cur) = Some (cur ++ s).
Proof.
  induction s as [|x s IH]; intros cur H; cbn [split_from].
  - now rewrite app_nil_r.
  - rewrite contains_cons in H. apply orb_false_iff in H as [Hx Hs].
    rewrite N.eqb_sym, Hx. rewrite IH by assumption. now rewrite <- app_assoc.
Qed.

Lemma split_from_cons c s : forall cur,
  exists piece pieces, split_from c s cur = piece :: pieces.
Proof.
  induction s as [|y s IH]; intros cur; cbn [split_from]; [now eexists _, _|].
  destruct (N.eqb y c); [now eexists _, _|apply IH].
Qed.

Lemma last_cons_split_from c s cur (x : jsstring) :
  last (x :: split_from c s cur) = last (split_from c s cur).
Proof. destruct (split_from_cons c s cur) as (piece & pieces & ->). reflexivity. Qed.

Lemma last_split_from_last c s1 s2 : forall cur,
  contains c s2 = false -> last (split_from c (s1 ++ c :: s2) cur) = Some s2.
Proof.
  induction s1 as [|x s1 IH]; intros cur H; cbn [app split_from].
  - rewrite N.eqb_refl, last_cons_split_from. now rewrite last_split_from_absent.
  - destruct (N.eqb x c); [rewrite last_cons_split_from|]; now apply IH.
Qed.

(** X5: the kind of a path is decided by what follows its last full stop,
    and by the whole path when it has none (a file named "md" is a note);
    so a filename made by [titleToFilename] with an extension has the
    kind of that extension, whatever the title. *)
Theorem getEntryKind_extension (toLowerCase : jsstring -> jsstring) :
  (forall path, contains FULL_STOP path = false ->
     getEntryKind toLowerCase path
     = if bool_decide (toLowerCase path = MD) then NoteMarkdown
       else if bool_decide (toLowerCase path = DESKTOP) then Link
       else Document) /\
  (forall stem ext, contains FULL_STOP ext = false ->
     getEntryKind toLowerCase (stem ++ FULL_STOP :: ext) = getEntryKind toLowerCase ext) /\
  (forall title ext, contains FULL_STOP ext = false -> ext <> [] ->
     getEntryKind toLowerCase (titleToFilename title (Some ext))
     = getEntryKind toLowerCase ext).
Proof.
  assert (Hplain : forall path, contains FULL_STOP path = false ->
            last (split FULL_STOP path) = Some path).
  { intros path H. unfold split. now rewrite last_split_from_absent. }
  assert (Hdotted : forall stem ext, contains FULL_STOP ext = false ->
            getEntryKind toLowerCase (stem ++ FULL_STOP :: ext)
            = getEntryKind toLowerCase ext).
  { intros stem ext H. unfold getEntryKind, split.
    rewrite last_split_from_last by assumption. fold (split FULL_STOP ext).
    now rewrite Hplain. }
  split; [|split; [exact Hdotted|]].
  - intros path H. unfold getEntryKind. rewrite Hplain by assumption.
    cbn [fmap option_fmap option_map].
    repeat case_bool_decide; congruence.
  - intros title ext H Hne. unfold titleToFilename.
    replace (0 <? Z.of_nat (length ext)) with true
      by (symmetry; apply Z.ltb_lt; destruct ext; [contradiction|rewrite length_cons; lia]).
    now apply Hdotted.
Qed.

(** The title "v1.2" with the extension "md" is a note. *)
Lemma getEntryKind_extension_witness :
  getEntryKind lowerUnits (titleToFilename [0x76; 0x31; 0x2E; 0x32]%N (Some MD))
  = NoteMarkdown.
Proof.
  rewrite (proj2 (proj2 (getEntryKind_extension lowerUnits))
             [0x76; 0x31; 0x2E; 0x32]%N MD eq_refl); [reflexivity|discriminate].
Defined.

End PathSegments.

(* ===================================================================== *)
(** * Tree merge: what is kept as it is *)
(* ===================================================================== *)

Module MergedTree.
Import Neverthrow Repos GitOps Octokit ApplyOpsProofs.

Lemma mergeEntry_untouched (ops : list GitOp) (entry : GitTreeEntry) :
  existsb (targets (path entry)) ops = false ->
  existsb (movesFrom (path entry)) ops = false ->
  mergeEntry ops [] entry
  = if String.eqb (type entry) "tree" then [] else [keptAs (path entry) entry].
Proof.
  intros Ht Hm. unfold mergeEntry.
  rewrite (scanOps_untouched ops (path entry) (path entry) Ht Hm).
  destruct (String.eqb (type entry) "tree"); reflexivity.
Qed.

Lemma keptEntries_untouched (ops : list GitOp) (entries : list GitTreeEntry) :
  Forall (fun entry => existsb (targets (path entry)) ops = false /\
                       existsb (movesFrom (path entry)) ops = false) entries ->
  keptEntries ops entries
  = (fun entry => keptAs (path entry) entry)
      <$> filter (fun entry => type entry <> "tree") entries.
Proof.
  induction 1 as [|entry entries [Ht Hm] _ IH]; [reflexivity|].
  rewrite keptEntries_cons, IH, mergeEntry_untouched by assumption.
  rewrite filter_cons.
  destruct (String.eqb_spec (type entry) "tree") as [E|E];
    destruct (decide (type entry <> "tree")) as [D|D]; try contradiction.
  - reflexivity.
  - reflexivity.
Qed.

(** X6: when no op writes, deletes or moves a path of the old tree, the
    merged tree is the old tree without its directory nodes, every entry
    under its own path with its mode, type and sha and in the old order,
    followed by the blobs of the write ops; with no ops at all it is the old
    tree without its directory nodes. *)
Theorem applyOps_untouched (ops : list GitOp) (oldTree : GitGetTreeResponseData) :
  Forall (fun entry => existsb (targets (path entry)) ops = false /\
                       existsb (movesFrom (path entry)) ops = false) (tree oldTree) ->
  applyOps ops oldTree
  = ((fun entry => keptAs (path entry) entry)
       <$> filter (fun entry => type entry <> "tree") (tree oldTree))
    ++ omap writeBlob ops.
Proof. intros H. now rewrite applyOps_split, keptEntries_untouched. Qed.

(** A new file is written beside an old one. *)
Lemma applyOps_untouched_witness :
  let old := {| path := "a.md"; mode := "100755"; type := "blob"; sha := "b0" |} in
  applyOps [Write "b.md" "text"]
    {| tree_sha := "t0";
       tree := [ {| path := "docs"; mode := "040000"; type := "tree"; sha := "d0" |}; old ];
       truncated := false |}
  = [ keptAs "a.md" old;
      {| new_path := "b.md"; new_mode := "100644"; new_type := "blob";
         new_sha := None; new_content := Some "text" |} ].
Proof.
  intros old.
  rewrite applyOps_untouched; [reflexivity|].
  repeat constructor.
Defined.

(** X7: every entry of the merged tree either points at an object of the old
    tree (the sha, mode and type of an old entry that is no directory node
    and that no write or delete op names, and no content) or carries the
    content of a write op on its path (no sha, mode 100644, type blob): never
    both a sha and a content, never neither. *)
Theorem applyOps_sha_or_content (ops : list GitOp) (oldTree : GitGetTreeResponseData)
  (e : GitCreateTreeParamsTree) :
  e ∈ applyOps ops oldTree ->
  (exists entry, entry ∈ tree oldTree /\ type entry <> "tree" /\
                 existsb (targets (path entry)) ops = false /\
                 new_sha e = Some (sha entry) /\ new_content e = None /\
                 new_mode e = mode entry /\ new_type e = type entry /\
                 (new_path e = path entry \/ Move (path entry) (new_path e) ∈ ops)) \/
  (exists c, Write (new_path e) c ∈ ops /\
             new_sha e = None /\ new_content e = Some c /\
             new_mode e = "100644" /\ new_type e = "blob").
Proof.
  intros He. rewrite applyOps_split in He. apply elem_of_app in He as [He|He].
  - left. apply elem_of_keptEntries in He as (entry & Hin & Hty & Ht & ->).
    exists entry. cbn [keptAs new_sha new_content new_mode new_type new_path].
    split; [assumption|]. split; [intros E; rewrite E in Hty; discriminate Hty|].
    split; [assumption|]. do 4 (split; [reflexivity|]).
    apply scanOps_destination.
  - right. apply elem_of_writeBlobs in He as (p & c & Hin & Hb).
    cbn [writeBlob] in Hb. injection Hb as <-. exists c. now repeat split.
Qed.

Lemma applyOps_sha_or_content_witness :
  exists c, Write "b.md" c ∈ [Write "b.md" "text"; Remove "a.md"] /\ c = "text".
Proof.
  destruct (applyOps_sha_or_content [Write "b.md" "text"; Remove "a.md"]
              {| tree_sha := "t0";
                 tree := [ {| path := "a.md"; mode := "100644"; type := "blob"; sha := "b0" |} ];
                 truncated := false |}
              {| new_path := "b.md"; new_mode := "100644"; new_type := "blob";
                 new_sha := None; new_content := Some "text" |})
    as [(entry & _ & _ & _ & Hsha & _)|(c & Hin & _ & Hc & _)].
  - vm_compute. apply list_elem_of_here.
  - discriminate Hsha.
  - exists c. split; [exact Hin|]. now injection Hc as <-.
Defined.

End MergedTree.

(* ===================================================================== *)
(** * Commit: every run *)
(* ===================================================================== *)

Module CommitRuns.
Import Neverthrow Repos GitOps Octokit CommitProofs CommitSteps.

(** Closes a case of [commit_run] in which the request answered by [H] was
    rejected. *)
Ltac run_failed H :=
  rewrite <- ?app_assoc; cbn [app];
  eexists; eexists; split; [reflexivity|];
  split; [reflexivity|];
  split; [|cbn [length]; lia];
  eexists; split; [reflexivity|];
  cbn [removelast]; rewrite ?app_nil_r;
  cbv [rejection reqGetRef reqGetCommit reqGetTree reqCreateTree reqCreateCommit
       reqUpdateRef] in *;
  rewrite H; left; eexists; split; reflexivity.

(** Every run of [commit]: the requests it sends are the first ones of the
    chain, in order; it ends in a value when all six are answered and in the
    error of the step that failed otherwise. *)
Lemma commit_run (remote : Remote) (repo : Repo)
  (ops : list GitOp) (commitMsg : string) (sent : list Request) :
  exists added result,
    commit remote repo ops commitMsg sent = (sent ++ added, result) /\
    requestStep <$> added = seq 0 (length added) /\
    match result with
    | Ok newCommitSHA =>
        exists oldCommitSHA oldTreeSHA oldTree newTreeSHA,
          answered remote repo ops commitMsg sent
            oldCommitSHA oldTreeSHA oldTree newTreeSHA newCommitSHA /\
          added = [reqGetRef repo; reqGetCommit repo oldCommitSHA;
                   reqGetTree repo oldTreeSHA; reqCreateTree repo ops oldTree;
                   reqCreateCommit repo commitMsg oldCommitSHA newTreeSHA;
                   reqUpdateRef repo newCommitSHA]
    | Err error => failedAt remote sent added error /\ (length added <= 6)%nat
    end.
Proof.
  unfold commit, startChain, failedAt.
  chain_step. unfold octokitGetRef at 1. chain_step. fold (reqGetRef repo).
  destruct (gitGetRef remote sent (reqGetRef repo)) as [oldCommitSHA|e1] eqn:H1;
    [|run_failed H1].
  unfold octokitGetCommit at 1. chain_step. fold (reqGetCommit repo oldCommitSHA).
  destruct (gitGetCommit remote _ (reqGetCommit repo oldCommitSHA)) as [oldTreeSHA|e2] eqn:H2;
    [|run_failed H2].
  unfold octokitGetTree at 1. chain_step. fold (reqGetTree repo oldTreeSHA).
  rewrite <- !app_assoc in *. cbn [app] in *.
  destruct (gitGetTree remote _ (reqGetTree repo oldTreeSHA)) as [oldTree|e3] eqn:H3;
    [|run_failed H3].
  destruct (truncated oldTree) eqn:Htr.
  { chain_step.
    eexists; eexists; split; [reflexivity|]. split; [reflexivity|].
    split; [|cbn [length]; lia]. eexists; split; [reflexivity|].
    cbn [removelast].
    cbv [rejection reqGetRef reqGetCommit reqGetTree] in *.
    rewrite H3. right. now repeat split. }
  unfold octokitCreateTree at 1. chain_step. fold (reqCreateTree repo ops oldTree).
  rewrite <- !app_assoc in *. cbn [app] in *.
  destruct (gitCreateTree remote _ (reqCreateTree repo ops oldTree)) as [newTreeSHA|e4] eqn:H4;
    [|run_failed H4].
  unfold octokitCreateCommit at 1. chain_step.
  fold (reqCreateCommit repo commitMsg oldCommitSHA newTreeSHA).
  rewrite <- !app_assoc in *. cbn [app] in *.
  destruct (gitCreateCommit remote _ (reqCreateCommit repo commitMsg oldCommitSHA newTreeSHA))
    as [newCommitSHA|e5] eqn:H5; [|run_failed H5].
  unfold octokitUpdateRef. chain_step. fold (reqUpdateRef repo newCommitSHA).
  rewrite <- ?app_assoc; cbn [app].
  destruct (gitUpdateRef remote _ (reqUpdateRef repo newCommitSHA)) as [[]|e6] eqn:H6;
    [|run_failed H6].
  eexists; eexists; split; [reflexivity|]. split; [reflexivity|].
  exists oldCommitSHA, oldTreeSHA, oldTree, newTreeSHA.
  split; [|reflexivity]. unfold answered. now repeat split.
Qed.

(** The six answers make the run succeed. *)
Lemma commit_answered (remote : Remote) (repo : Repo) (ops : list GitOp)
  (commitMsg : string) (sent : list Request)
  oldCommitSHA oldTreeSHA oldTree newTreeSHA newCommitSHA :
  answered remote repo ops commitMsg sent
    oldCommitSHA oldTreeSHA oldTree newTreeSHA newCommitSHA ->
  (commit remote repo ops commitMsg sent).2 = Ok newCommitSHA.
Proof.
  intros (H1 & H2 & H3 & Htr & H4 & H5 & H6).
  rewrite (commit_after_reads remote repo ops commitMsg sent _ _ _ H1 H2 H3).
  rewrite Htr. unfold octokitCreateTree. chain_step.
  fold (reqCreateTree repo ops oldTree).
  rewrite <- !app_assoc. cbn [app]. rewrite H4.
  unfold octokitCreateCommit. chain_step.
  fold (reqCreateCommit repo commitMsg oldCommitSHA newTreeSHA).
  rewrite <- !app_assoc. cbn [app]. rewrite H5.
  unfold octokitUpdateRef. chain_step. fold (reqUpdateRef repo newCommitSHA).
  rewrite <- !app_assoc. cbn [app]. rewrite H6. reflexivity.
Qed.

(** X8: [commit] returns the SHA of a commit exactly when the remote answers
    all six requests, each sent after the ones before it, the tree it reads
    is not truncated, and the SHA is the one the create-commit request was
    answered with. *)
Theorem commit_succeeds_iff (remote : Remote) (repo : Repo) (ops : list GitOp)
  (commitMsg : string) (sent : list Request) (newCommitSHA : string) :
  (commit remote repo ops commitMsg sent).2 = Ok newCommitSHA <->
  exists oldCommitSHA oldTreeSHA oldTree newTreeSHA,
    answered remote repo ops commitMsg sent
      oldCommitSHA oldTreeSHA oldTree newTreeSHA newCommitSHA.
Proof.
  split.
  - destruct (commit_run remote repo ops commitMsg sent)
      as (added & result & Hrun & _ & Hend).
    rewrite Hrun. cbn [snd]. intros ->.
    destruct Hend as (c & t & tr & nt & Hans & _). now exists c, t, tr, nt.
  - intros (c & t & tr & nt & Hans). now apply (commit_answered _ _ _ _ _ c t tr nt).
Qed.

(** X9: a run of [commit] leaves the requests sent before it as they are and
    adds between one and six requests, which are the first requests of the
    chain in its order: get-ref, get-commit, get-tree, create-tree,
    create-commit, update-ref; no request is sent twice or out of turn,
    whatever the remote answers. *)
Theorem commit_requests_in_order (remote : Remote) (repo : Repo) (ops : list GitOp)
  (commitMsg : string) (sent : list Request) :
  exists added,
    (commit remote repo ops commitMsg sent).1 = sent ++ added /\
    requestStep <$> added = seq 0 (length added) /\
    (1 <= length added <= 6)%nat.
Proof.
  destruct (commit_run remote repo ops commitMsg sent)
    as (added & result & Hrun & Horder & Hend).
  exists added. rewrite Hrun. split; [reflexivity|]. split; [exact Horder|].
  destruct result as [sha|error].
  - destruct Hend as (c & t & tr & nt & _ & ->). cbn [length]. lia.
  - destruct Hend as ((request & Hlast & _) & Hle). split; [|exact Hle].
    destruct added; [discriminate Hlast|cbn [length]; lia].
Qed.

Lemma last_step (added : list Request) (request : Request) :
  requestStep <$> added = seq 0 (length added) ->
  last added = Some request ->
  S (requestStep request) = length added.
Proof.
  intros Horder Hlast. rewrite last_lookup in Hlast.
  assert (H : (requestStep <$> added) !! pred (length added) = Some (requestStep request))
    by now rewrite list_lookup_fmap, Hlast.
  rewrite Horder in H. apply lookup_seq in H as [H1 H2]. lia.
Qed.

Lemma elem_of_step (added : list Request) (request : Request) :
  requestStep <$> added = seq 0 (length added) ->
  request ∈ added ->
  (requestStep request < length added)%nat.
Proof.
  intros Horder Hin. apply list_elem_of_lookup in Hin as [i Hi].
  assert (H : (requestStep <$> added) !! i = Some (requestStep request))
    by now rewrite list_lookup_fmap, Hi.
  rewrite Horder in H. apply lookup_seq in H as [H1 H2]. lia.
Qed.

(** X10: a run of [commit] that fails reports the step that failed: the
    last request it sent was rejected and the error carries the message of
    that step and the rejection, or the last request was the read of the
    tree, it was answered with a truncated tree, and the error is the
    truncation error without an original error.  If the ref update was sent
    at all, the error is that of the ref update: an error of an earlier step
    means the ref was not touched. *)
Theorem commit_failure_names_step (remote : Remote) (repo : Repo) (ops : list GitOp)
  (commitMsg : string) (sent sent' : list Request) (error : WrappedError) :
  commit remote repo ops commitMsg sent = (sent', Err error) ->
  exists added,
    sent' = sent ++ added /\
    failedAt remote sent added error /\
    (forall request, request ∈ added -> requestStep request = 5%nat ->
                     msg error = "Failed to update ref.").
Proof.
  intros Hrun'.
  destruct (commit_run remote repo ops commitMsg sent)
    as (added & result & Hrun & Horder & Hend).
  rewrite Hrun in Hrun'. injection Hrun' as <- ->.
  destruct Hend as [Hfail Hle].
  exists added. split; [reflexivity|]. split; [exact Hfail|].
  intros request Hin Hstep.
  pose proof (elem_of_step _ _ Horder Hin) as Hlt.
  destruct Hfail as (lastRequest & Hlast & Hcase).
  pose proof (last_step _ _ Horder Hlast) as Hn.
  assert (Hfive : requestStep lastRequest = 5%nat) by lia.
  destruct Hcase as [(e & _ & ->)|(Htwo & _)]; [|lia].
  destruct lastRequest; try discriminate Hfive. reflexivity.
Qed.

(** The remote rejects the update of the ref: the error says so, after all
    six requests. *)
Lemma commit_failure_names_step_witness :
  exists added,
    (commit lockedRemote exampleRepo [Write "a.md" "text"] "add a" []).1 = [] ++ added /\
    failedAt lockedRemote [] added
      {| msg := "Failed to update ref."; originalError := Some "protected branch" |}.
Proof.
  destruct (commit_failure_names_step lockedRemote exampleRepo [Write "a.md" "text"]
              "add a" []
              [reqGetRef exampleRepo; reqGetCommit exampleRepo "c0";
               reqGetTree exampleRepo "t0";
               reqCreateTree exampleRepo [Write "a.md" "text"]
                 {| tree_sha := "t0"; tree := []; truncated := false |};
               reqCreateCommit exampleRepo "add a" "c0" "t1";
               reqUpdateRef exampleRepo "c1"]
              {| msg := "Failed to update ref."; originalError := Some "protected branch" |}
              eq_refl)
    as (added & Hsent & Hfail & _).
  exists added. split; [exact Hsent|exact Hfail].
Defined.

End CommitRuns.

(* ===================================================================== *)
(** * Download: what is fetched *)
(* ===================================================================== *)

Module DownloadProofs.
Import Neverthrow Repos Types FileMaps Io PathUtilsExt Extraction Download.

Lemma fmap_imap_const {A B C} (f : nat -> A -> B) (g : B -> C) (h : A -> C) (l : list A) :
  (forall i x, g (f i x) = h x) -> g <$> imap f l = h <$> l.
Proof.
  revert f. induction l as [|x l IH]; intros f Hf; [reflexivity|].
  cbn [imap fmap list_fmap]. rewrite Hf. f_equal. apply IH. intros i y. apply Hf.
Qed.

Section Downloaded.
Context `{RepoId} `{IoFns} `{PathFns}.

(** X11: [downloadFiles] gives one file per listed file, in the order of the
    listing, each with the path, sha and raw URL of the listing; every file
    is in git, none has both a content and an error, and a file is fetched
    exactly when its fetch was started and settled to a content. *)
Theorem downloadFiles_listing (files : list FileDesc)
  (fetched : nat -> FileDesc -> Result string Octokit.WrappedError) :
  (fun file => (FileMaps.path file, FileMaps.sha file, FileMaps.rawUrl file))
    <$> downloadFiles files fetched
  = (fun file => (path file, Some (sha file), Some (rawUrl file))) <$> files /\
  (forall i file, downloadFiles files fetched !! i = Some file ->
     isFileInGit file = true /\
     (content file = None \/ error file = None) /\
     exists listed, files !! i = Some listed /\
       (isFileFetched file = true <->
        doFetch listed = true /\ exists text, fetched i listed = Ok text)).
Proof.
  split.
  - apply fmap_imap_const. intros i file.
    destruct (doFetch file); [destruct (fetched i file)|]; reflexivity.
  - intros i file Hi. unfold downloadFiles in Hi.
    apply list_lookup_imap_Some in Hi as (listed & Hlisted & ->).
    destruct (doFetch listed) eqn:Hdo; [destruct (fetched i listed) as [text|e] eqn:Hf|].
    + split; [reflexivity|]. split; [now right|]. exists listed. split; [assumption|].
      split; [intros _; split; [exact Hdo|now exists text]|reflexivity].
    + split; [reflexivity|]. split; [now left|]. exists listed. split; [assumption|].
      split; [intros E; discriminate E|intros [_ [text E]]; rewrite Hf in E; discriminate E].
    + split; [reflexivity|]. split; [now left|]. exists listed. split; [assumption|].
      split; [intros E; discriminate E|intros [E _]; rewrite Hdo in E; discriminate E].
Qed.


End Downloaded.


End DownloadProofs.

(* ===================================================================== *)
(** * Canonical ordering: sorting again *)
(* ===================================================================== *)

Module SortAgain.
Import Repos Types Host EntryUtils SortProofs.

Section Sorted.
Context {A : Type} (cmp : A -> A -> Z).

(** The sort leaves a sorted array as it is. *)
Lemma js_sort_sorted_id (l : list A) :
  StronglySorted (fun a b => cmp a b <= 0) l -> js_sort cmp l = l.
Proof.
  induction 1 as [|x l Hl IH Hx]; [reflexivity|].
  unfold js_sort in *. cbn [foldr]. rewrite IH.
  destruct l as [|y l]; [reflexivity|]. cbn [insertSorted].
  apply Forall_cons in Hx as [Hxy _].
  destruct (Z.leb_spec (cmp x y) 0); [reflexivity|lia].
Qed.

Lemma StronglySorted_imap (R : A -> A -> Prop) (l : list A) : forall f : nat -> A -> A,
  (forall i j a b, R a b -> R (f i a) (f j b)) ->
  StronglySorted R l -> StronglySorted R (imap f l).
Proof.
  induction l as [|x l IH]; intros f Hf Hl; [constructor|].
  apply StronglySorted_inv in Hl as [Hl Hx]. cbn [imap]. constructor.
  - apply IH; [|assumption]. intros i j a b. apply Hf.
  - apply Forall_forall. intros y Hy.
    apply list_elem_of_lookup in Hy as [i Hi].
    apply list_lookup_imap_Some in Hi as (b & Hb & ->).
    apply Hf. rewrite Forall_forall in Hx. apply Hx.
    now apply list_elem_of_lookup_2 in Hb.
Qed.

End Sorted.

Lemma imap_setIdx_twice {C} (l : list (EntryOf C)) :
  imap setIdx (imap setIdx l) = imap setIdx l.
Proof.
  apply list_eq. intros i. rewrite !list_lookup_imap.
  destruct (l !! i); reflexivity.
Qed.

Section Again.
Context `{StringHost}.

(** X13: for a host whose [localeCompare] is a consistent comparator,
    [sortAndIndexEntries] leaves entries that are in canonical order in
    their order and only writes their positions into [idx]; so sorting again
    what it has sorted changes nothing. *)
Theorem sortAndIndexEntries_again (entries : Entries) :
  Consistent localeCompare ->
  (StronglySorted (fun a b => compareEntries a b <= 0) entries ->
   sortAndIndexEntries entries = imap setIdx entries) /\
  sortAndIndexEntries (sortAndIndexEntries entries) = sortAndIndexEntries entries.
Proof.
  intros Hlc.
  assert (Hsorted : forall l : Entries,
            StronglySorted (fun a b => compareEntries a b <= 0) l ->
            sortAndIndexEntries l = imap setIdx l).
  { intros l Hl. unfold sortAndIndexEntries. now rewrite js_sort_sorted_id. }
  split; [apply Hsorted|].
  pose proof (compareEntries_consistent Hlc) as Hcmp.
  rewrite Hsorted.
  - unfold sortAndIndexEntries. apply imap_setIdx_twice.
  - unfold sortAndIndexEntries. apply StronglySorted_imap.
    + intros i j a b Hab. exact Hab.
    + now apply js_sort_sorted.
Qed.

End Again.

(** A note, a document and a link, sorted twice. *)
Lemma sortAndIndexEntries_again_witness :
  let entries := [ linkEntry (Examples.storedLink "z" "https://z" [] true);
                   fileEntry (Examples.documentEntry "a" "docs");
                   fileEntry (Examples.noteEntry "B" "notes" [] []) ] in
  @sortAndIndexEntries Examples.asciiHost (@sortAndIndexEntries Examples.asciiHost entries)
  = @sortAndIndexEntries Examples.asciiHost entries.
Proof.
  intros entries.
  apply (proj2 (@sortAndIndexEntries_again Examples.asciiHost entries
                  compareCodeUnits_consistent)).
Defined.

End SortAgain.

(* ===================================================================== *)
(** * Merging repos and locations *)
(* ===================================================================== *)

Module MergeProofs.
Import Repos Types Host EntryUtils.

Lemma existsb_eqb_elem_of (x : string) (l : list string) :
  existsb (fun y => String.eqb y x) l = true <-> x ∈ l.
Proof.
  rewrite existsb_exists. split.
  - intros (y & Hin & E). apply String.eqb_eq in E as ->. now apply list_elem_of_In.
  - intros Hin. exists x. split; [now apply list_elem_of_In|apply String.eqb_refl].
Qed.

Section Merge.
Context `{RepoId}.

Lemma existsb_repo_elem_of (incoming : Repo) (l : list Repo) :
  existsb (fun existingRepo => String.eqb (getRepoId existingRepo) (getRepoId incoming)) l
  = true <-> getRepoId incoming ∈ getRepoId <$> l.
Proof.
  rewrite existsb_exists, list_elem_of_fmap. split.
  - intros (y & Hin & E). apply String.eqb_eq in E. exists y.
    split; [now symmetry|now apply list_elem_of_In].
  - intros (y & E & Hin). exists y. split; [now apply list_elem_of_In|].
    apply String.eqb_eq. now symmetry.
Qed.

Lemma mergeLocations_decide (locations : list string) (location : string) :
  mergeLocations locations location
  = if bool_decide (location ∈ locations) then locations else locations ++ [location].
Proof.
  unfold mergeLocations. destruct (existsb _ locations) eqn:E.
  - apply existsb_eqb_elem_of in E. now rewrite bool_decide_eq_true_2.
  - rewrite bool_decide_eq_false_2; [reflexivity|].
    intros Hin. apply existsb_eqb_elem_of in Hin. congruence.
Qed.

Lemma mergeRepos_decide (repos : list Repo) (incoming : Repo) :
  mergeRepos repos incoming
  = if bool_decide (getRepoId incoming ∈ getRepoId <$> repos)
    then repos else repos ++ [incoming].
Proof.
  unfold mergeRepos. destruct (existsb _ repos) eqn:E.
  - apply existsb_repo_elem_of in E. now rewrite bool_decide_eq_true_2.
  - rewrite bool_decide_eq_false_2; [reflexivity|].
    intros Hin. apply existsb_repo_elem_of in Hin. congruence.
Qed.

Lemma NoDup_snoc {A} (l : list A) (x : A) : NoDup l -> x ∉ l -> NoDup (l ++ [x]).
Proof.
  intros Hnd Hx. apply NoDup_app. split; [assumption|]. split; [|apply NoDup_singleton].
  intros y Hy Hy'. apply list_elem_of_singleton in Hy'. now subst y.
Qed.

(** X14: [mergeLocations] and [mergeRepos] keep what was there, in its
    order, and add the incoming location or repo at the end exactly when no
    location equal to it, or no repo with its id, was there; so the result
    holds it, a list without duplicate locations or repo ids stays without,
    and merging the same location or repo again changes nothing. *)
Theorem merge_keeps_distinct (locations : list string) (location : string)
  (repos : list Repo) (incoming : Repo) :
  (mergeLocations locations location
   = (if bool_decide (location ∈ locations) then locations else locations ++ [location]) /\
   location ∈ mergeLocations locations location /\
   (NoDup locations -> NoDup (mergeLocations locations location)) /\
   mergeLocations (mergeLocations locations location) location
   = mergeLocations locations location) /\
  (mergeRepos repos incoming
   = (if bool_decide (getRepoId incoming ∈ getRepoId <$> repos)
      then repos else repos ++ [incoming]) /\
   getRepoId incoming ∈ getRepoId <$> mergeRepos repos incoming /\
   (NoDup (getRepoId <$> repos) -> NoDup (getRepoId <$> mergeRepos repos incoming)) /\
   mergeRepos (mergeRepos repos incoming) incoming = mergeRepos repos incoming).
Proof.
  split.
  - assert (Hin : location ∈ mergeLocations locations location).
    { rewrite mergeLocations_decide. case_bool_decide; [assumption|].
      apply elem_of_app. right. apply list_elem_of_here. }
    split; [apply mergeLocations_decide|]. split; [exact Hin|]. split.
    + intros Hnd. rewrite mergeLocations_decide. case_bool_decide as Hl; [assumption|].
      now apply NoDup_snoc.
    + rewrite (mergeLocations_decide (mergeLocations locations location)).
      now rewrite bool_decide_eq_true_2.
  - assert (Hin : getRepoId incoming ∈ getRepoId <$> mergeRepos repos incoming).
    { rewrite mergeRepos_decide. case_bool_decide; [assumption|].
      rewrite fmap_app. apply elem_of_app. right. apply list_elem_of_here. }
    split; [apply mergeRepos_decide|]. split; [exact Hin|]. split.
    + intros Hnd. rewrite mergeRepos_decide. case_bool_decide as Hl; [assumption|].
      rewrite fmap_app. now apply NoDup_snoc.
    + rewrite (mergeRepos_decide (mergeRepos repos incoming)).
      now rewrite bool_decide_eq_true_2.
Qed.

End Merge.

End MergeProofs.

(* ===================================================================== *)
(** * Link reconciliation: what the pass reads and what it builds *)
(* ===================================================================== *)

Module LinkPass.
Import Repos Types Host EntryUtils LinkProofs LinkHistory MergeProofs.

Section Pass.
Context `{RepoId} `{LabelUtils}.

(** ** Documents *)

Lemma forEach_visitFileEntry_notes (fileEntries : list EntryFile) : forall st,
  forEach visitFileEntry st fileEntries
  = forEach visitFileEntry st (filter (fun entry => isNote entry = true) fileEntries).
Proof.
  induction fileEntries as [|entry fileEntries IH]; intros st; [reflexivity|].
  destruct (content entry) as [info note|info] eqn:Hc.
  - rewrite filter_cons_True by (unfold isNote; now rewrite Hc).
    cbn [forEach]. destruct (visitFileEntry st entry); [apply IH|reflexivity].
  - rewrite filter_cons_False by (unfold isNote; now rewrite Hc).
    cbn [forEach]. unfold visitFileEntry at 1. rewrite Hc. apply IH.
Qed.

(** X15: documents have no part in the links: the links computed for the
    file entries are the ones computed for the notes among them, also when
    the pass throws. *)
Theorem recomputeLinkEntries_notes_only (fileEntries : list EntryFile)
  (existingLinkEntries : list EntryLink) :
  recomputeLinkEntries fileEntries existingLinkEntries
  = recomputeLinkEntries (filter (fun entry => isNote entry = true) fileEntries)
      existingLinkEntries.
Proof.
  unfold recomputeLinkEntries, recomputeLinkState.
  now rewrite forEach_visitFileEntry_notes.
Qed.

(** ** The derived fields of the existing links *)

Lemma visitAllExisting_reset (existing : list EntryLink) : forall st st' a,
  linkEntries st = linkEntries st' -> linkMap st = linkMap st' ->
  linkInserted st = linkInserted st' ->
  linkEntries (visitAllExisting st a existing)
  = linkEntries (visitAllExisting st' a (resetLink <$> existing)) /\
  linkMap (visitAllExisting st a existing)
  = linkMap (visitAllExisting st' a (resetLink <$> existing)) /\
  linkInserted (visitAllExisting st a existing)
  = linkInserted (visitAllExisting st' a (resetLink <$> existing)).
Proof.
  induction existing as [|link existing IH]; intros st st' a He Hm Hi;
    cbn [visitAllExisting fmap list_fmap]; [now repeat split|].
  apply IH; unfold visitExisting;
    cbn [resetLink content target standaloneRepo]; rewrite He, Hm, Hi;
    destruct (negb (js_in (target (content link)) (linkMap st')));
    try destruct (bool_decide (is_Some (standaloneRepo (content link))));
    reflexivity.
Qed.

Lemma resetLink_twice (links : list EntryLink) :
  resetLink <$> (resetLink <$> links) = resetLink <$> links.
Proof. rewrite <- list_fmap_compose. now apply list_fmap_ext. Qed.

Lemma afterFirstLoop_reset (existing : list EntryLink) :
  afterFirstLoop (resetLink <$> existing) = afterFirstLoop existing.
Proof.
  unfold afterFirstLoop.
  pose proof (inv_heap _ _ _ (firstLoopInv_end existing)) as Hh.
  pose proof (inv_heap _ _ _ (firstLoopInv_end (resetLink <$> existing))) as Hh'.
  rewrite app_nil_r in Hh, Hh'. rewrite resetLink_twice in Hh'.
  destruct (fun E1 E2 E3 =>
              visitAllExisting_reset existing (initialLinkState existing)
                (initialLinkState (fmap (M := list) resetLink existing)) 0 E1 E2 E3)
    as (He & Hm & Hi); [reflexivity..|].
  destruct (visitAllExisting (initialLinkState existing) 0 existing),
    (visitAllExisting (initialLinkState (resetLink <$> existing)) 0 (resetLink <$> existing)).
  cbn in *. now subst.
Qed.

(** X16: what the existing links bring of derived fields is not read: the
    pass gives the same links for the existing links and for the existing
    links with their labels put back to their own labels and their
    back-references, repos and locations emptied. *)
Theorem recomputeLinkEntries_reset (fileEntries : list EntryFile)
  (existingLinkEntries : list EntryLink) :
  recomputeLinkEntries fileEntries (resetLink <$> existingLinkEntries)
  = recomputeLinkEntries fileEntries existingLinkEntries.
Proof.
  unfold recomputeLinkEntries, recomputeLinkState.
  fold (afterFirstLoop (resetLink <$> existingLinkEntries)).
  fold (afterFirstLoop existingLinkEntries).
  now rewrite afterFirstLoop_reset.
Qed.

(** ** The targets of the result array *)

Lemma omap_ext_all {A B} (f g : A -> option B) (l : list A) :
  (forall x, f x = g x) -> omap f l = omap g l.
Proof.
  intros Hfg. induction l as [|x l IH]; [reflexivity|].
  cbn [omap list_omap]. now rewrite Hfg, IH.
Qed.

Lemma omap_ext_in {A B} (f g : A -> option B) (l : list A) :
  (forall x, x ∈ l -> f x = g x) -> omap f l = omap g l.
Proof.
  induction l as [|x l IH]; intros Hfg; [reflexivity|].
  cbn [omap list_omap]. rewrite (Hfg x) by apply list_elem_of_here.
  rewrite IH; [reflexivity|]. intros y Hy. apply Hfg. now apply list_elem_of_further.
Qed.

Lemma entryTargets_omap (st : LinkState) :
  entryTargets st
  = omap (fun a => (fun link : EntryLink => target (content link)) <$> heap st !! a)
      (linkEntries st).
Proof.
  unfold entryTargets, deref. induction (linkEntries st) as [|a l IH]; [reflexivity|].
  cbn [omap list_omap]. destruct (heap st !! a); cbn; now rewrite IH.
Qed.

Lemma elem_of_entryTargets (st : LinkState) (u : string) :
  wfLinkState st ->
  u ∈ entryTargets st <-> exists a, linkMap st !! u = Some a /\ a ∈ linkEntries st.
Proof.
  intros Hwf. unfold entryTargets. rewrite list_elem_of_fmap. split.
  - intros (link & -> & Hin). apply elem_of_deref in Hin as (a & Ha & Hh).
    destruct (wf_entries st Hwf a Ha) as (link' & Hh' & Hl).
    exists a. split; [congruence|assumption].
  - intros (a & Hl & Ha). destruct (wf_map st Hwf _ _ Hl) as (link & Hh & Ht).
    exists link. split; [now symmetry|]. apply elem_of_deref. now exists a.
Qed.

Lemma insert_same_target (links : list EntryLink) (a b : nat) (link link' : EntryLink) :
  links !! a = Some link -> target (content link') = target (content link) ->
  (fun l : EntryLink => target (content l)) <$> <[a := link']> links !! b
  = (fun l : EntryLink => target (content l)) <$> links !! b.
Proof.
  intros Hh Ht. destruct (decide (a = b)) as [->|Hne].
  - rewrite list_lookup_insert_eq by now apply lookup_lt_Some in Hh.
    rewrite Hh. cbn. now rewrite Ht.
  - now rewrite list_lookup_insert_ne.
Qed.

(** A run of the inner loop pushes the link of its target unless it is in
    the result array. *)
Lemma visitLinkTarget_entryTargets (entry : EntryFile) (info : FileInfo)
  (st st' : LinkState) (u : string) :
  wfLinkState st -> u ∉ objectPrototypeKeys ->
  visitLinkTarget entry info st u = Some st' ->
  entryTargets st' = pushTarget (entryTargets st) u.
Proof.
  intros Hwf Hu Hrun.
  unfold visitLinkTarget in Hrun. rewrite js_in_own in Hrun by assumption.
  destruct (linkMap st !! u) as [a|] eqn:Hl.
  - rewrite bool_decide_eq_true_2 in Hrun by eauto. cbn [negb mbind option_bind] in Hrun.
    destruct (wf_map st Hwf _ _ Hl) as (link & Hh & Ht).
    rewrite Hh in Hrun. cbn [mbind option_bind] in Hrun.
    rewrite js_in_own in Hrun by assumption.
    assert (Hsame : forall b,
      (fun l : EntryLink => target (content l))
        <$> <[a := addReference entry info link]> (heap st) !! b
      = (fun l : EntryLink => target (content l)) <$> heap st !! b).
    { intros b. now apply (insert_same_target _ a b link). }
    case_bool_decide as Hins; cbn [negb] in Hrun; injection Hrun as <-.
    + (* the link is in the result array *)
      apply (wf_inserted st Hwf) in Hins.
      unfold pushTarget.
      rewrite bool_decide_eq_true_2 by now apply (elem_of_entryTargets st u Hwf).
      rewrite !entryTargets_omap. cbn [heap linkEntries]. now apply omap_ext_all.
    + unfold pushTarget. rewrite bool_decide_eq_false_2.
      * rewrite !entryTargets_omap. cbn [heap linkEntries].
        rewrite omap_app. f_equal; [now apply omap_ext_all|].
        cbn [omap list_omap]. rewrite Hsame, Hh. cbn. now rewrite Ht.
      * intros Hu'. apply (elem_of_entryTargets st u Hwf) in Hu'.
        apply Hins. now apply (wf_inserted st Hwf).
  - rewrite bool_decide_eq_false_2 in Hrun by (intros [? [=]]). cbn [negb] in Hrun.
    injection Hrun as <-.
    unfold pushTarget. rewrite bool_decide_eq_false_2.
    + rewrite !entryTargets_omap. cbn [heap linkEntries].
      rewrite omap_app. f_equal.
      * apply omap_ext_in. intros b Hb.
        now rewrite lookup_app_l by now apply wf_entries_lt.
      * cbn [omap list_omap]. rewrite list_lookup_middle by reflexivity. reflexivity.
    + intros Hu'. apply (elem_of_entryTargets st u Hwf) in Hu' as (a & Ha & _).
      congruence.
Qed.

(** ** An invariant of the links that [linkMap] holds *)

Section History.
Context (existing : list EntryLink).
Context (P : list (EntryFile * string) -> EntryLink -> Prop).
Context (P_reset : forall a link,
  existing !! a = Some link -> firstWithTarget existing a ->
  target (content link) ∉ objectPrototypeKeys -> P [] (resetLink link)).
Context (P_new : forall vs entry u,
  Forall (fun v => v.2 <> u) vs ->
  (forall link, link ∈ existing -> target (content link) <> u) ->
  P (vs ++ [(entry, u)]) (newLink entry (fileInfo (content entry)) u)).
Context (P_add : forall vs entry u link,
  target (content link) = u -> P vs link ->
  P (vs ++ [(entry, u)]) (addReference entry (fileInfo (content entry)) link)).
Context (P_frame : forall vs (entry : EntryFile) u link,
  target (content link) <> u -> P vs link -> P (vs ++ [(entry, u)]) link).

Lemma history_initial :
  mappedLinks (P []) (afterFirstLoop existing) /\
  existingMapped existing (afterFirstLoop existing).
Proof.
  pose proof (firstLoopInv_end existing) as Hinv. fold (afterFirstLoop existing) in Hinv.
  split.
  - intros t a link Hl Hh.
    destruct (inv_map _ _ _ Hinv _ _ Hl) as (link0 & Hl0 & Ht & Hfirst).
    rewrite (inv_heap _ _ _ Hinv), app_nil_r, list_lookup_fmap, Hl0 in Hh.
    injection Hh as <-. apply (P_reset a).
    + assumption.
    + intros j other link' Hlt Hj Ha. assert (link' = link0) by congruence. subst link'.
      rewrite Ht. now apply (Hfirst j).
    + rewrite Ht. apply (wf_own _ (inv_wf _ _ _ Hinv) _ _ Hl).
  - intros link Hin Hown. apply list_elem_of_lookup in Hin as [i Hi].
    now apply (inv_seen _ _ _ Hinv i).
Qed.

Lemma history_step (vs : list (EntryFile * string)) (entry : EntryFile) (u : string)
  (st : LinkState) :
  wfLinkState st -> u ∉ objectPrototypeKeys ->
  targetsMapped vs st -> existingMapped existing st -> mappedLinks (P vs) st ->
  exists st',
    visitLinkTarget entry (fileInfo (content entry)) st u = Some st' /\
    wfLinkState st' /\
    targetsMapped (vs ++ [(entry, u)]) st' /\
    existingMapped existing st' /\
    mappedLinks (P (vs ++ [(entry, u)])) st' /\
    entryTargets st' = pushTarget (entryTargets st) u.
Proof.
  intros Hwf Hu Hvs Hex HP.
  assert (Hframe : forall st', wfLinkState st' -> visited [u] st st' ->
            forall t a link, t <> u ->
              linkMap st' !! t = Some a -> heap st' !! a = Some link ->
              P (vs ++ [(entry, u)]) link).
  { intros st' Hwf' Hvis t a link Hne Hl Hh.
    assert (Ht : t ∉ [u]) by (intros E; apply list_elem_of_singleton in E; contradiction).
    rewrite (vis_other_map _ _ _ Hvis t Ht) in Hl.
    rewrite (vis_other_heap _ _ _ Hvis t a Ht Hl) in Hh.
    apply P_frame; [|now apply (HP t a)].
    destruct (wf_map st Hwf _ _ Hl) as (link' & Hh' & Htarget). congruence. }
  assert (Hmapped : forall st' a, visited [u] st st' ->
            linkMap st' !! u = Some a -> a ∈ linkEntries st' ->
            targetsMapped (vs ++ [(entry, u)]) st').
  { intros st' a Hvis Hl Ha v Hv. apply elem_of_app in Hv as [Hv|Hv].
    - destruct (Hvs v Hv) as (b & Hb & Hin). exists b.
      split; [now apply (vis_map _ _ _ Hvis)|now apply (vis_entries _ _ _ Hvis)].
    - apply list_elem_of_singleton in Hv as ->. now exists a. }
  assert (Hex' : forall st', visited [u] st st' -> existingMapped existing st').
  { intros st' Hvis link Hin Hown. destruct (Hex link Hin Hown) as [a Ha].
    exists a. now apply (vis_map _ _ _ Hvis). }
  destruct (linkMap st !! u) as [a|] eqn:Hl.
  - destruct (wf_map st Hwf _ _ Hl) as (link & Hh & Htarget).
    destruct (visitLinkTarget_known entry (fileInfo (content entry)) st u a link Hwf Hl Hh)
      as (st' & Hrun & Hwf' & Hvis & Hl' & Hh' & Hin' & _).
    exists st'. split; [assumption|]. split; [assumption|].
    split; [now apply (Hmapped st' a)|]. split; [now apply Hex'|].
    split; [|now apply (visitLinkTarget_entryTargets entry (fileInfo (content entry)))].
    intros t b link' Hlt Hht. destruct (decide (t = u)) as [->|Hne].
    + assert (b = a) by congruence. subst b.
      assert (link' = addReference entry (fileInfo (content entry)) link) by congruence.
      subst link'. apply P_add; [assumption|now apply (HP u a)].
    + now apply (Hframe st' Hwf' Hvis t b).
  - destruct (visitLinkTarget_new entry (fileInfo (content entry)) st u Hwf Hu Hl)
      as (st' & Hrun & Hwf' & Hvis & Hl' & Hh' & Hin').
    exists st'. split; [assumption|]. split; [assumption|].
    split; [now apply (Hmapped st' (length (heap st)))|]. split; [now apply Hex'|].
    split; [|now apply (visitLinkTarget_entryTargets entry (fileInfo (content entry)))].
    intros t b link' Hlt Hht. destruct (decide (t = u)) as [->|Hne].
    + assert (b = length (heap st)) by congruence. subst b.
      assert (link' = newLink entry (fileInfo (content entry)) u) by congruence.
      subst link'. apply P_new.
      * apply Forall_forall. intros v Hv E.
        destruct (Hvs v Hv) as (b & Hb & _). rewrite E in Hb. congruence.
      * intros link Hin E. destruct (Hex link Hin) as [b Hb]; [now rewrite E|].
        rewrite E in Hb. congruence.
    + now apply (Hframe st' Hwf' Hvis t b).
Qed.

Lemma history_targets (entry : EntryFile) (us : list string) : forall vs st,
  wfLinkState st -> (forall u, u ∈ us -> u ∉ objectPrototypeKeys) ->
  targetsMapped vs st -> existingMapped existing st -> mappedLinks (P vs) st ->
  exists st',
    forEach (visitLinkTarget entry (fileInfo (content entry))) st us = Some st' /\
    wfLinkState st' /\
    targetsMapped (vs ++ ((fun u => (entry, u)) <$> us)) st' /\
    existingMapped existing st' /\
    mappedLinks (P (vs ++ ((fun u => (entry, u)) <$> us))) st' /\
    entryTargets st' = pushOrder (entryTargets st) us.
Proof.
  induction us as [|u us IH]; intros vs st Hwf Hus Hvs Hex HP; cbn [forEach fmap list_fmap].
  - exists st. rewrite app_nil_r. split; [reflexivity|]. split; [assumption|].
    split; [assumption|]. split; [assumption|]. split; [assumption|reflexivity].
  - destruct (history_step vs entry u st Hwf) as (st1 & -> & Hwf1 & Hvs1 & Hex1 & HP1 & Ho1);
      [apply Hus, list_elem_of_here|assumption|assumption|assumption|].
    destruct (IH (vs ++ [(entry, u)]) st1 Hwf1)
      as (st2 & Hrun & Hwf2 & Hvs2 & Hex2 & HP2 & Ho2);
      [intros u' Hu'; apply Hus; now apply list_elem_of_further
      |assumption|assumption|assumption|].
    exists st2. rewrite <- app_assoc in Hvs2, HP2.
    split; [assumption|]. split; [assumption|]. split; [assumption|].
    split; [assumption|]. split; [assumption|].
    rewrite Ho2, Ho1. reflexivity.
Qed.

Lemma history_entries (fileEntries : list EntryFile) : forall vs st,
  wfLinkState st -> noInheritedTargets fileEntries ->
  targetsMapped vs st -> existingMapped existing st -> mappedLinks (P vs) st ->
  exists st',
    forEach visitFileEntry st fileEntries = Some st' /\
    wfLinkState st' /\
    targetsMapped (vs ++ visits fileEntries) st' /\
    existingMapped existing st' /\
    mappedLinks (P (vs ++ visits fileEntries)) st' /\
    entryTargets st' = pushOrder (entryTargets st) (snd <$> visits fileEntries).
Proof.
  induction fileEntries as [|entry fileEntries IH]; intros vs st Hwf Hno Hvs Hex HP;
    cbn [forEach].
  - exists st. unfold visits. cbn. rewrite app_nil_r.
    split; [reflexivity|]. split; [assumption|].
    split; [assumption|]. split; [assumption|]. split; [assumption|reflexivity].
  - assert (Hstep : exists st1,
              visitFileEntry st entry = Some st1 /\ wfLinkState st1 /\
              targetsMapped (vs ++ ((fun u => (entry, u)) <$> linkTargets entry)) st1 /\
              existingMapped existing st1 /\
              mappedLinks (P (vs ++ ((fun u => (entry, u)) <$> linkTargets entry))) st1 /\
              entryTargets st1 = pushOrder (entryTargets st) (linkTargets entry)).
    { assert (Hus : forall u, u ∈ linkTargets entry -> u ∉ objectPrototypeKeys).
      { intros u Hu. apply (Hno entry u); [apply list_elem_of_here|assumption]. }
      pose proof (history_targets entry (linkTargets entry) vs st Hwf Hus Hvs Hex HP) as Hrun.
      unfold visitFileEntry. unfold linkTargets in *.
      destruct (content entry) as [info note|info] eqn:Hc; cbn [fileInfo] in Hrun.
      - exact Hrun.
      - exists st. cbn [fmap list_fmap]. rewrite app_nil_r.
        split; [reflexivity|]. split; [assumption|].
        split; [assumption|]. split; [assumption|]. split; [assumption|reflexivity]. }
    destruct Hstep as (st1 & -> & Hwf1 & Hvs1 & Hex1 & HP1 & Ho1).
    destruct (IH (vs ++ ((fun u => (entry, u)) <$> linkTargets entry)) st1 Hwf1)
      as (st2 & Hrun & Hwf2 & Hvs2 & Hex2 & HP2 & Ho2);
      [intros e u He Hu; apply (Hno e u); [now apply list_elem_of_further|assumption]
      |assumption|assumption|assumption|].
    exists st2. unfold visits in *. rewrite bind_cons, app_assoc.
    split; [assumption|]. split; [assumption|]. split; [assumption|].
    split; [assumption|]. split; [assumption|].
    rewrite Ho2, Ho1, fmap_app. unfold pushOrder. rewrite foldl_app.
    rewrite <- list_fmap_compose. cbn. now rewrite list_fmap_id.
Qed.

(** The state the pass ends in. *)
Lemma history_end (fileEntries : list EntryFile) :
  noInheritedTargets fileEntries ->
  exists st,
    recomputeLinkState fileEntries existing = Some st /\
    recomputeLinkEntries fileEntries existing = Some (deref st) /\
    wfLinkState st /\
    visited (fileEntries ≫= linkTargets) (afterFirstLoop existing) st /\
    targetsMapped (visits fileEntries) st /\
    mappedLinks (P (visits fileEntries)) st /\
    entryTargets st
    = pushOrder (entryTargets (afterFirstLoop existing)) (snd <$> visits fileEntries).
Proof.
  intros Hno.
  destruct (recomputeLinkState_total fileEntries existing Hno)
    as (st & Hrun & Hres & Hwf & Hvis).
  pose proof (firstLoopInv_end existing) as Hinv.
  destruct history_initial as [HP0 Hex0].
  destruct (history_entries fileEntries [] (afterFirstLoop existing)
              (inv_wf _ _ _ Hinv) Hno) as (st' & Hrun' & _ & Hvs & _ & HP & Ho);
    [intros v Hv; inversion Hv|assumption|assumption|].
  unfold recomputeLinkState in Hrun. fold (afterFirstLoop existing) in Hrun.
  assert (st' = st) by congruence. subst st'.
  exists st. split; [assumption|]. split; [assumption|]. split; [assumption|].
  split; [assumption|]. split; [assumption|]. split; assumption.
Qed.

End History.

(** ** The back-references *)

Lemma referencesIn_app (vs ws : list (EntryFile * string)) (t : string) :
  referencesIn (vs ++ ws) t = referencesIn vs t ++ referencesIn ws t.
Proof. unfold referencesIn. now rewrite filter_app, fmap_app. Qed.

Lemma referencesIn_none (vs : list (EntryFile * string)) (t : string) :
  Forall (fun v => v.2 <> t) vs -> referencesIn vs t = [].
Proof.
  unfold referencesIn. induction 1 as [|v vs Hv _ IH]; [reflexivity|].
  now rewrite filter_cons_False.
Qed.

Lemma referencesIn_here (entry : EntryFile) (t : string) :
  referencesIn [(entry, t)] t = [entry].
Proof. unfold referencesIn. now rewrite filter_cons_True. Qed.

Lemma referencesIn_other (entry : EntryFile) (u t : string) :
  t <> u -> referencesIn [(entry, u)] t = [].
Proof. intros Hne. unfold referencesIn. rewrite filter_cons_False; [reflexivity|]. cbn. congruence. Qed.

Lemma elem_of_referencesIn (vs : list (EntryFile * string)) (t : string) (entry : EntryFile) :
  entry ∈ referencesIn vs t <-> (entry, t) ∈ vs.
Proof.
  unfold referencesIn. rewrite list_elem_of_fmap. split.
  - intros ([e u] & -> & Hin). apply list_elem_of_filter in Hin as [E Hin].
    cbn in E. now subst u.
  - intros Hin. exists (entry, t). split; [reflexivity|].
    apply list_elem_of_filter. now split.
Qed.

Lemma elem_of_visits (fileEntries : list EntryFile) (entry : EntryFile) (t : string) :
  (entry, t) ∈ visits fileEntries <-> entry ∈ fileEntries /\ t ∈ linkTargets entry.
Proof.
  unfold visits. rewrite list_elem_of_bind. split.
  - intros (e & Hin & He). apply list_elem_of_fmap in Hin as (u & [= -> ->] & Hu).
    now split.
  - intros [He Ht]. exists entry. split; [|assumption].
    apply list_elem_of_fmap. now exists t.
Qed.

(** A link of the result is held by [linkMap] under its target. *)
Lemma deref_mapped (st : LinkState) (link : EntryLink) :
  wfLinkState st -> link ∈ deref st ->
  exists a, a ∈ linkEntries st /\ heap st !! a = Some link /\
            linkMap st !! target (content link) = Some a.
Proof.
  intros Hwf Hin. apply elem_of_deref in Hin as (a & Ha & Hh).
  destruct (wf_entries st Hwf a Ha) as (link' & Hh' & Hl).
  exists a. split; [assumption|]. split; [assumption|]. congruence.
Qed.

(** The state the pass ends in holds, for every target, the link with the
    notes that link to it. *)
Lemma exactReferences_end (fileEntries : list EntryFile)
  (existingLinkEntries : list EntryLink) :
  noInheritedTargets fileEntries ->
  exists st,
    recomputeLinkEntries fileEntries existingLinkEntries = Some (deref st) /\
    wfLinkState st /\
    visited (fileEntries ≫= linkTargets) (afterFirstLoop existingLinkEntries) st /\
    targetsMapped (visits fileEntries) st /\
    mappedLinks (exactReferences (visits fileEntries)) st.
Proof.
  intros Hno.
  destruct (history_end existingLinkEntries exactReferences) with (fileEntries := fileEntries)
    as (st & _ & Hres & Hwf & Hvis & Hvs & HP & _); [| | | |assumption|].
  { intros a link _ _ _. reflexivity. }
  { intros vs entry u Hvs _. unfold exactReferences. cbn.
    now rewrite referencesIn_app, referencesIn_none, referencesIn_here. }
  { intros vs entry u link Ht Hlink. unfold exactReferences in *. cbn.
    rewrite Hlink, Ht. now rewrite referencesIn_app, referencesIn_here. }
  { intros vs entry u link Ht Hlink. unfold exactReferences in *.
    rewrite referencesIn_app, referencesIn_other by assumption.
    now rewrite app_nil_r. }
  exists st. split; [assumption|]. split; [assumption|]. split; [assumption|].
  split; assumption.
Qed.

(** X17: when no note links to a name inherited from [Object.prototype],
    the back-references of every link of the result are exactly the notes
    that link to its target, in the order of the file entries, each as many
    times as it names the target; and every link target of every note is the
    target of a link of the result, which lists the note. *)
Theorem recomputeLinkEntries_back_references (fileEntries : list EntryFile)
  (existingLinkEntries : list EntryLink) :
  noInheritedTargets fileEntries ->
  exists result,
    recomputeLinkEntries fileEntries existingLinkEntries = Some result /\
    (forall link, link ∈ result ->
       referencedBy (content link) = referencesTo fileEntries (target (content link))) /\
    (forall entry t, entry ∈ fileEntries -> t ∈ linkTargets entry ->
       exists link, link ∈ result /\ target (content link) = t /\
                    entry ∈ referencedBy (content link)).
Proof.
  intros Hno.
  destruct (exactReferences_end fileEntries existingLinkEntries Hno)
    as (st & Hres & Hwf & _ & Hvs & HP).
  assert (Hexact : forall link, link ∈ deref st ->
            referencedBy (content link)
            = referencesTo fileEntries (target (content link))).
  { intros link Hin. destruct (deref_mapped st link Hwf Hin) as (a & _ & Hh & Hl).
    apply (HP _ _ _ Hl Hh). }
  exists (deref st). split; [assumption|]. split; [exact Hexact|].
  intros entry t He Ht.
  assert (Hv : (entry, t) ∈ visits fileEntries) by now apply elem_of_visits.
  destruct (Hvs _ Hv) as (a & Hl & Ha). cbn [snd] in Hl.
  destruct (wf_map st Hwf _ _ Hl) as (link & Hh & Htarget).
  assert (Hin : link ∈ deref st) by (apply elem_of_deref; now exists a).
  exists link. split; [assumption|]. split; [assumption|].
  rewrite (Hexact link Hin), Htarget. unfold referencesTo.
  now apply elem_of_referencesIn.
Qed.

(** ** The links of the result *)

Lemma NoDup_deref_targets (st : LinkState) :
  wfLinkState st -> NoDup ((fun link : EntryLink => target (content link)) <$> deref st).
Proof.
  intros Hwf. unfold deref.
  pose proof (wf_nodup st Hwf) as Hnd.
  pose proof (wf_entries st Hwf) as Hent.
  revert Hnd Hent. generalize (linkEntries st) as addrs.
  induction addrs as [|b addrs IH]; intros Hnd Hent; [constructor|].
  apply NoDup_cons in Hnd as [Hnb Hnd].
  destruct (Hent b (list_elem_of_here _ _)) as (l & Hb & Hm).
  cbn [omap list_omap]. rewrite Hb. cbn [fmap list_fmap]. constructor.
  - intros Hin. apply list_elem_of_fmap in Hin as (l' & Ht & Hin).
    apply list_elem_of_omap in Hin as (b' & Hb' & Hh').
    destruct (Hent b' (list_elem_of_further _ _ _ Hb')) as (l'' & Hh'' & Hm').
    assert (l'' = l') by congruence. subst l''.
    rewrite <- Ht, Hm in Hm'. assert (b' = b) by congruence. subst b'. contradiction.
  - apply IH; [assumption|]. intros b' Hb'. apply Hent. now apply list_elem_of_further.
Qed.

(** X18: when no note links to a name inherited from [Object.prototype],
    the links of the result have pairwise distinct targets, none of them an
    inherited name, and every link of the result is standalone or has a
    back-reference: a link that no note refers to any more and that is not
    standalone is not kept. *)
Theorem recomputeLinkEntries_distinct_targets (fileEntries : list EntryFile)
  (existingLinkEntries : list EntryLink) :
  noInheritedTargets fileEntries ->
  exists result,
    recomputeLinkEntries fileEntries existingLinkEntries = Some result /\
    NoDup ((fun link : EntryLink => target (content link)) <$> result) /\
    (forall link, link ∈ result ->
       (target (content link) ∉ objectPrototypeKeys) /\
       (is_Some (standaloneRepo (content link)) \/ referencedBy (content link) <> [])).
Proof.
  intros Hno.
  destruct (exactReferences_end fileEntries existingLinkEntries Hno)
    as (st & Hres & Hwf & Hvis & Hvs & HP).
  exists (deref st). split; [assumption|]. split; [now apply NoDup_deref_targets|].
  intros link Hin. destruct (deref_mapped st link Hwf Hin) as (a & Ha & Hh & Hl).
  split; [now apply (wf_own st Hwf _ a)|].
  destruct (vis_pushed _ _ _ Hvis a Ha) as [Hfirst|(u & Hu & Hlu)].
  - left. pose proof (firstLoopInv_end existingLinkEntries) as Hinv.
    fold (afterFirstLoop existingLinkEntries) in Hinv.
    apply (inv_entries _ _ _ Hinv) in Hfirst as (link0 & Hl0 & Hs0 & _).
    assert (Hh0 : heap (afterFirstLoop existingLinkEntries) !! a = Some (resetLink link0)).
    { rewrite (inv_heap _ _ _ Hinv), app_nil_r, list_lookup_fmap, Hl0. reflexivity. }
    destruct (vis_heap _ _ _ Hvis a _ Hh0) as (link' & Hh' & Hsame).
    assert (link' = link) by congruence. subst link'.
    destruct Hsame as (_ & _ & _ & _ & _ & Hs & _). rewrite <- Hs. exact Hs0.
  - right. assert (Htu : target (content link) = u) by (eapply wf_map_inj; eassumption).
    rewrite (HP _ _ _ Hl Hh). unfold exactReferences.
    apply list_elem_of_bind in Hu as (entry & Hu & He).
    assert (Hin' : entry ∈ referencesIn (visits fileEntries) (target (content link))).
    { apply elem_of_referencesIn. rewrite Htu. now apply elem_of_visits. }
    intros E. rewrite E in Hin'. inversion Hin'.
Qed.

(** ** Locations and repos *)

Lemma elem_of_mergeLocations (locations : list string) (location l : string) :
  l ∈ mergeLocations locations location <-> l ∈ locations \/ l = location.
Proof.
  rewrite mergeLocations_decide. case_bool_decide as Hin.
  - split; [now left|intros [?| ->]; assumption].
  - rewrite elem_of_app, list_elem_of_singleton. reflexivity.
Qed.

Lemma elem_of_mergeRepos (repos : list Repo) (incoming : Repo) (id : string) :
  id ∈ getRepoId <$> mergeRepos repos incoming
  <-> id ∈ getRepoId <$> repos \/ id = getRepoId incoming.
Proof.
  rewrite mergeRepos_decide. case_bool_decide as Hin.
  - split; [now left|intros [?| ->]; assumption].
  - rewrite fmap_app, elem_of_app. cbn [fmap list_fmap].
    rewrite list_elem_of_singleton. reflexivity.
Qed.

Lemma NoDup_mergeLocations (locations : list string) (location : string) :
  NoDup locations -> NoDup (mergeLocations locations location).
Proof.
  intros Hnd. rewrite mergeLocations_decide. case_bool_decide; [assumption|].
  now apply NoDup_snoc.
Qed.

Lemma NoDup_mergeRepos (repos : list Repo) (incoming : Repo) :
  NoDup (getRepoId <$> repos) -> NoDup (getRepoId <$> mergeRepos repos incoming).
Proof.
  intros Hnd. rewrite mergeRepos_decide. case_bool_decide; [assumption|].
  rewrite fmap_app. now apply NoDup_snoc.
Qed.

Lemma exists_elem_of_snoc {A} (Q : A -> Prop) (l : list A) (x : A) :
  (exists y, y ∈ l ++ [x] /\ Q y) <-> (exists y, y ∈ l /\ Q y) \/ Q x.
Proof.
  split.
  - intros (y & Hy & HQ). apply elem_of_app in Hy as [Hy|Hy].
    + left. now exists y.
    + apply list_elem_of_singleton in Hy as ->. now right.
  - intros [(y & Hy & HQ)|HQ].
    + exists y. split; [apply elem_of_app; now left|assumption].
    + exists x. split; [apply elem_of_app; right; apply list_elem_of_here|assumption].
Qed.

Lemma aggregates_reset (link : EntryLink) : aggregatesOfReferences (resetLink link).
Proof.
  unfold aggregatesOfReferences. cbn.
  split; [constructor|]. split; [|split; [constructor|]].
  - intros l. split; [intros Hl; inversion Hl|intros (e & He & _); inversion He].
  - intros id. split; [intros Hl; inversion Hl|intros (e & He & _); inversion He].
Qed.

Lemma aggregates_new (entry : EntryFile) (u : string) :
  aggregatesOfReferences (newLink entry (fileInfo (content entry)) u).
Proof.
  unfold aggregatesOfReferences. cbn.
  split; [apply NoDup_singleton|]. split; [|split; [apply NoDup_singleton|]].
  - intros l. rewrite list_elem_of_singleton. split.
    + intros ->. exists entry. split; [apply list_elem_of_here|reflexivity].
    + intros (e & He & <-). apply list_elem_of_singleton in He. now subst e.
  - intros id. rewrite list_elem_of_singleton. split.
    + intros ->. exists entry. split; [apply list_elem_of_here|reflexivity].
    + intros (e & He & <-). apply list_elem_of_singleton in He. now subst e.
Qed.

Lemma aggregates_add (entry : EntryFile) (link : EntryLink) :
  aggregatesOfReferences link ->
  aggregatesOfReferences (addReference entry (fileInfo (content entry)) link).
Proof.
  intros (Hnd & Hloc & Hndr & Hrepo). unfold aggregatesOfReferences. cbn.
  split; [now apply NoDup_mergeLocations|].
  split; [|split; [now apply NoDup_mergeRepos|]].
  - intros l. rewrite elem_of_mergeLocations, exists_elem_of_snoc, Hloc.
    split; (intros [?|?]; [now left|now right]).
  - intros id. rewrite elem_of_mergeRepos, exists_elem_of_snoc, Hrepo.
    split; (intros [?|?]; [now left|now right]).
Qed.

(** X19: when no note links to a name inherited from [Object.prototype],
    the locations and the repos of every link of the result are those of its
    back-references: a location is listed exactly when a back-reference
    lies there, a repo id exactly when a back-reference is of that repo,
    and no location and no repo id is listed twice. *)
Theorem recomputeLinkEntries_locations_and_repos (fileEntries : list EntryFile)
  (existingLinkEntries : list EntryLink) :
  noInheritedTargets fileEntries ->
  exists result,
    recomputeLinkEntries fileEntries existingLinkEntries = Some result /\
    forall link, link ∈ result ->
      NoDup (refLocations (content link)) /\
      (forall l, l ∈ refLocations (content link) <->
                 exists entry, entry ∈ referencedBy (content link) /\
                               location (fileInfo (content entry)) = l) /\
      NoDup (getRepoId <$> refRepos (content link)) /\
      (forall id, id ∈ getRepoId <$> refRepos (content link) <->
                  exists entry, entry ∈ referencedBy (content link) /\
                                getRepoId (repo (fileInfo (content entry))) = id).
Proof.
  intros Hno.
  destruct (history_end existingLinkEntries (fun _ => aggregatesOfReferences))
    with (fileEntries := fileEntries)
    as (st & _ & Hres & Hwf & _ & _ & HP & _); [| | | |assumption|].
  { intros a link _ _ _. apply aggregates_reset. }
  { intros vs entry u _ _. apply aggregates_new. }
  { intros vs entry u link _. apply aggregates_add. }
  { intros vs entry u link _ Hlink. exact Hlink. }
  exists (deref st). split; [assumption|].
  intros link Hin. destruct (deref_mapped st link Hwf Hin) as (a & _ & Hh & Hl).
  apply (HP _ _ _ Hl Hh).
Qed.

(** ** The link of a target *)

Lemma foldl_addRef_same (refs : list EntryFile) : forall link : EntryLink,
  sameLink link (foldl addRef link refs) /\
  referencedBy (content (foldl addRef link refs)) = referencedBy (content link) ++ refs /\
  labels (foldl addRef link refs) = foldl mergeLabels (labels link) (labels <$> refs) /\
  resetLink (foldl addRef link refs) = resetLink link.
Proof.
  induction refs as [|entry refs IH]; intros link; cbn [foldl fmap list_fmap].
  - rewrite app_nil_r. split; [apply sameLink_refl|]. now repeat split.
  - destruct (IH (addRef link entry)) as (Hs & Hr & Hl & Hreset).
    split; [|split; [|split]].
    + eapply sameLink_trans; [apply sameLink_addReference|exact Hs].
    + rewrite Hr. cbn. now rewrite <- app_assoc.
    + rewrite Hl. reflexivity.
    + rewrite Hreset. reflexivity.
Qed.

Lemma foldl_addRef_target (refs : list EntryFile) (link : EntryLink) :
  target (content (foldl addRef link refs)) = target (content link).
Proof. destruct (foldl_addRef_same refs link) as ((_&_&_&_&Ht&_) & _). now symmetry. Qed.

Lemma foldl_snoc {A B} (f : A -> B -> A) (a : A) (l : list B) (x : B) :
  foldl f a (l ++ [x]) = f (foldl f a l) x.
Proof. now rewrite foldl_app. Qed.

Lemma firstWith_Some (existing : list EntryLink) (a : nat) (link : EntryLink) :
  existing !! a = Some link -> firstWithTarget existing a ->
  firstWith existing (target (content link)) = Some link.
Proof.
  intros Ha Hfirst. unfold firstWith.
  assert (Hfind : list_find (fun l : EntryLink => target (content l) = target (content link))
                    existing = Some (a, link)).
  { apply list_find_Some. split; [assumption|]. split; [reflexivity|].
    intros j other Hj Hlt. now apply (Hfirst j other link). }
  now rewrite Hfind.
Qed.

Lemma firstWith_None (existing : list EntryLink) (u : string) :
  (forall link, link ∈ existing -> target (content link) <> u) ->
  firstWith existing u = None.
Proof.
  intros Hnone. unfold firstWith.
  assert (Hfind : list_find (fun l : EntryLink => target (content l) = u) existing = None).
  { apply list_find_None, Forall_forall. intros link Hin. now apply Hnone. }
  now rewrite Hfind.
Qed.

Lemma firstWith_target (existing : list EntryLink) (t : string) (link : EntryLink) :
  firstWith existing t = Some link -> link ∈ existing /\ target (content link) = t.
Proof.
  unfold firstWith.
  destruct (list_find _ existing) as [[a l]|] eqn:Hfind; [|discriminate].
  intros [= <-]. apply list_find_Some in Hfind as (Ha & Ht & _).
  split; [now apply list_elem_of_lookup_2 in Ha|exact Ht].
Qed.

Lemma linkAfter_target (existing : list EntryLink) (vs : list (EntryFile * string))
  (t : string) (link : EntryLink) :
  linkAfter existing vs t = Some link -> target (content link) = t.
Proof.
  unfold linkAfter. destruct (firstWith existing t) as [base|] eqn:Hbase.
  - intros [= <-]. rewrite foldl_addRef_target. cbn.
    now apply firstWith_target in Hbase as [_ Ht].
  - destruct (referencesIn vs t) as [|entry further]; [discriminate|].
    intros [= <-]. now rewrite foldl_addRef_target.
Qed.

(** The state the pass ends in holds, for every target, the link of the
    target, and the result array holds the links in the order in which they
    are pushed. *)
Lemma linkOfTarget_end (fileEntries : list EntryFile)
  (existingLinkEntries : list EntryLink) :
  noInheritedTargets fileEntries ->
  exists st,
    recomputeLinkEntries fileEntries existingLinkEntries = Some (deref st) /\
    wfLinkState st /\
    (forall link, link ∈ deref st ->
       linkAfter existingLinkEntries (visits fileEntries) (target (content link))
       = Some link) /\
    entryTargets st
    = pushOrder (entryTargets (afterFirstLoop existingLinkEntries))
        (snd <$> visits fileEntries).
Proof.
  intros Hno.
  destruct (history_end existingLinkEntries (linkOfTarget existingLinkEntries))
    with (fileEntries := fileEntries)
    as (st & _ & Hres & Hwf & _ & _ & HP & Ho); [| | | |assumption|].
  { intros a link Ha Hfirst _. unfold linkOfTarget, linkAfter.
    change (target (content (resetLink link))) with (target (content link)).
    now rewrite (firstWith_Some _ a link). }
  { intros vs entry u Hvs Hnone. unfold linkOfTarget, linkAfter.
    change (target (content (newLink entry (fileInfo (content entry)) u))) with u.
    rewrite firstWith_None by assumption.
    now rewrite referencesIn_app, referencesIn_none, referencesIn_here. }
  { intros vs entry u link Ht Hlink. unfold linkOfTarget, linkAfter in *.
    change (target (content (addReference entry (fileInfo (content entry)) link)))
      with (target (content link)).
    rewrite Ht in *. rewrite referencesIn_app, referencesIn_here.
    destruct (firstWith existingLinkEntries u) as [base|].
    - injection Hlink as <-. now rewrite foldl_snoc.
    - destruct (referencesIn vs u) as [|first further]; [discriminate Hlink|].
      injection Hlink as <-. cbn [app]. now rewrite foldl_snoc. }
  { intros vs entry u link Ht Hlink. unfold linkOfTarget, linkAfter in *.
    rewrite referencesIn_app, referencesIn_other by assumption.
    now rewrite app_nil_r. }
  exists st. split; [assumption|]. split; [assumption|]. split; [|assumption].
  intros link Hin. destruct (deref_mapped st link Hwf Hin) as (a & _ & Hh & Hl).
  apply (HP _ _ _ Hl Hh).
Qed.

(** X28: when no note links to a name inherited from [Object.prototype],
    the labels of a link of the result whose target an existing link has are
    the own labels of the first such link, merged by [mergeLabels] with the
    labels of its back-references, one after the other; the labels of a link
    that the pass creates are the labels of its first back-reference as they
    are, merged with the labels of the further ones. *)
Theorem recomputeLinkEntries_labels (fileEntries : list EntryFile)
  (existingLinkEntries : list EntryLink) :
  noInheritedTargets fileEntries ->
  exists result,
    recomputeLinkEntries fileEntries existingLinkEntries = Some result /\
    forall link, link ∈ result ->
      match firstWith existingLinkEntries (target (content link)) with
      | Some own =>
          labels link
          = foldl mergeLabels (ownLabels (content own))
              (labels <$> referencedBy (content link))
      | None =>
          exists entry further,
            referencedBy (content link) = entry :: further /\
            labels link = foldl mergeLabels (labels entry) (labels <$> further)
      end.
Proof.
  intros Hno.
  destruct (linkOfTarget_end fileEntries existingLinkEntries Hno)
    as (st & Hres & _ & Hlinks & _).
  exists (deref st). split; [assumption|].
  intros link Hin. specialize (Hlinks link Hin). unfold linkAfter in Hlinks.
  destruct (firstWith existingLinkEntries (target (content link))) as [own|].
  - injection Hlinks as <-.
    destruct (foldl_addRef_same (referencesIn (visits fileEntries) (target (content link)))
                (resetLink own)) as (_ & Hr & Hl & _).
    rewrite Hl, Hr. reflexivity.
  - destruct (referencesIn (visits fileEntries) (target (content link)))
      as [|entry further]; [discriminate Hlinks|].
    injection Hlinks as <-. exists entry, further.
    destruct (foldl_addRef_same further
                (newLink entry (fileInfo (content entry)) (target (content link))))
      as (_ & Hr & Hl & _).
    rewrite Hl, Hr. split; reflexivity.
Qed.

(** X30: when no note links to a name inherited from [Object.prototype],
    a link of the result whose target an existing link has keeps the title,
    priority, key, [idx], standalone repo and own labels of the first such
    link; a link whose target no existing link has is made by the pass: its
    title is its target, its key is "__link_" followed by the target, its
    priority is 0, and it has no [idx], no standalone repo and no own
    labels. *)
Theorem recomputeLinkEntries_identity (fileEntries : list EntryFile)
  (existingLinkEntries : list EntryLink) :
  noInheritedTargets fileEntries ->
  exists result,
    recomputeLinkEntries fileEntries existingLinkEntries = Some result /\
    forall link, link ∈ result ->
      match firstWith existingLinkEntries (target (content link)) with
      | Some own => sameLink own link
      | None =>
          title link = target (content link) /\
          key link = Some ("__link_" +:+ target (content link)) /\
          priority link = 0 /\ idx link = None /\
          standaloneRepo (content link) = None /\
          ownLabels (content link) = []
      end.
Proof.
  intros Hno.
  destruct (linkOfTarget_end fileEntries existingLinkEntries Hno)
    as (st & Hres & _ & Hlinks & _).
  exists (deref st). split; [assumption|].
  intros link Hin. specialize (Hlinks link Hin). unfold linkAfter in Hlinks.
  destruct (firstWith existingLinkEntries (target (content link))) as [own|].
  - injection Hlinks as <-.
    destruct (foldl_addRef_same (referencesIn (visits fileEntries) (target (content link)))
                (resetLink own)) as (Hsame & _).
    eapply sameLink_trans; [apply sameLink_resetLink|exact Hsame].
  - destruct (referencesIn (visits fileEntries) (target (content link)))
      as [|entry further]; [discriminate Hlinks|].
    injection Hlinks as Hlink.
    destruct (foldl_addRef_same further
                (newLink entry (fileInfo (content entry)) (target (content link))))
      as ((Ht & Hp & Hk & Hi & _ & Hs & Ho) & _).
    rewrite Hlink in Ht, Hp, Hk, Hi, Hs, Ho. cbn in Ht, Hp, Hk, Hi, Hs, Ho.
    now repeat split.
Qed.

End Pass.

(** ** Examples *)

Lemma noInheritedTargets_check (fileEntries : list EntryFile) :
  forallb (fun entry =>
             forallb (fun t => negb (bool_decide (t ∈ objectPrototypeKeys)))
               (linkTargets entry)) fileEntries = true ->
  noInheritedTargets fileEntries.
Proof.
  intros Hall entry t He Ht.
  rewrite forallb_forall in Hall. specialize (Hall entry).
  rewrite <- list_elem_of_In in Hall. specialize (Hall He).
  rewrite forallb_forall in Hall. specialize (Hall t).
  rewrite <- list_elem_of_In in Hall. specialize (Hall Ht).
  apply negb_true_iff in Hall. now apply bool_decide_eq_false in Hall.
Qed.

(** A note that links twice to one target and once to another, a note that
    links to the first, and a document. *)
Lemma recomputeLinkEntries_back_references_witness :
  let note1 := Examples.noteEntry "n1" "work" ["b"]
                 ["https://t.example"; "https://u.example"; "https://t.example"] in
  let note2 := Examples.noteEntry "n2" "home" ["a"] ["https://t.example"] in
  let fileEntries := [note1; Examples.documentEntry "d" "docs"; note2] in
  exists result,
    @recomputeLinkEntries Examples.keyRepoId Examples.sortedLabels fileEntries [] = Some result /\
    (forall link, link ∈ result ->
       referencedBy (content link) = referencesTo fileEntries (target (content link))) /\
    referencesTo fileEntries "https://t.example" = [note1; note1; note2].
Proof.
  intros note1 note2 fileEntries.
  destruct (@recomputeLinkEntries_back_references Examples.keyRepoId Examples.sortedLabels
              fileEntries [])
    as (result & Hres & Hexact & _).
  - apply noInheritedTargets_check. reflexivity.
  - exists result. split; [exact Hres|]. split; [exact Hexact|reflexivity].
Defined.

(** An existing link that is not standalone and that no note refers to, and
    a note that links to another target. *)
Lemma recomputeLinkEntries_distinct_targets_witness :
  let fileEntries := [Examples.noteEntry "n" "notes" [] ["https://a.example"]] in
  let existing := [Examples.storedLink "U" "https://u.example" [] false;
                   Examples.storedLink "S" "https://a.example" [] true] in
  exists result,
    @recomputeLinkEntries Examples.keyRepoId Examples.sortedLabels fileEntries existing
    = Some result /\
    NoDup ((fun link : EntryLink => target (content link)) <$> result) /\
    (forall link, link ∈ result ->
       (target (content link) ∉ objectPrototypeKeys) /\
       (is_Some (standaloneRepo (content link)) \/ referencedBy (content link) <> [])).
Proof.
  intros fileEntries existing.
  apply (@recomputeLinkEntries_distinct_targets Examples.keyRepoId Examples.sortedLabels
           fileEntries existing).
  apply noInheritedTargets_check. reflexivity.
Defined.

(** Two notes of one repo in the same location that link to one target. *)
Lemma recomputeLinkEntries_locations_and_repos_witness :
  let fileEntries := [Examples.noteEntry "n1" "work" [] ["https://t.example"];
                      Examples.noteEntry "n2" "work" [] ["https://t.example"]] in
  exists result,
    @recomputeLinkEntries Examples.keyRepoId Examples.sortedLabels fileEntries [] = Some result /\
    forall link, link ∈ result ->
      NoDup (refLocations (content link)) /\
      (forall l, l ∈ refLocations (content link) <->
                 exists entry, entry ∈ referencedBy (content link) /\
                               location (fileInfo (content entry)) = l) /\
      NoDup (@getRepoId Examples.keyRepoId <$> refRepos (content link)) /\
      (forall id, id ∈ @getRepoId Examples.keyRepoId <$> refRepos (content link) <->
                  exists entry, entry ∈ referencedBy (content link) /\
                                @getRepoId Examples.keyRepoId (repo (fileInfo (content entry)))
                                = id).
Proof.
  intros fileEntries.
  apply (@recomputeLinkEntries_locations_and_repos Examples.keyRepoId Examples.sortedLabels
           fileEntries []).
  apply noInheritedTargets_check. reflexivity.
Defined.

(** A stored link with the own labels z, y that one note with the labels
    b, a refers to, and a target that only this note links to. *)
Lemma recomputeLinkEntries_labels_witness :
  let note := Examples.noteEntry "n" "work" ["b"; "a"]
                ["https://t.example"; "https://u.example"] in
  let existing := [Examples.storedLink "T" "https://t.example" ["z"; "y"] false] in
  exists result,
    @recomputeLinkEntries Examples.keyRepoId Examples.sortedLabels [note] existing
    = Some result /\
    labels <$> result = [["a"; "b"; "y"; "z"]; ["b"; "a"]] /\
    forall link, link ∈ result ->
      match firstWith existing (target (content link)) with
      | Some own =>
          labels link
          = foldl (@mergeLabels Examples.sortedLabels) (ownLabels (content own))
              (labels <$> referencedBy (content link))
      | None =>
          exists entry further,
            referencedBy (content link) = entry :: further /\
            labels link
            = foldl (@mergeLabels Examples.sortedLabels) (labels entry) (labels <$> further)
      end.
Proof.
  intros note existing.
  destruct (@recomputeLinkEntries_labels Examples.keyRepoId Examples.sortedLabels
              [note] existing)
    as (result & Hres & Hlabels).
  - apply noInheritedTargets_check. reflexivity.
  - exists result. split; [exact Hres|]. split; [|exact Hlabels].
    vm_compute in Hres. injection Hres as <-. reflexivity.
Defined.

(** A stored link that a note refers to keeps its title; the link made
    for the other target of the note is named after the target. *)
Lemma recomputeLinkEntries_identity_witness :
  let note := Examples.noteEntry "n" "work" [] ["https://t.example"; "https://u.example"] in
  let existing := [Examples.storedLink "T" "https://t.example" [] false] in
  exists result,
    @recomputeLinkEntries Examples.keyRepoId Examples.sortedLabels [note] existing
    = Some result /\
    title <$> result = ["T"; "https://u.example"] /\
    forall link, link ∈ result ->
      match firstWith existing (target (content link)) with
      | Some own => sameLink own link
      | None =>
          title link = target (content link) /\
          key link = Some ("__link_" +:+ target (content link)) /\
          priority link = 0 /\ idx link = None /\
          standaloneRepo (content link) = None /\
          ownLabels (content link) = []
      end.
Proof.
  intros note existing.
  destruct (@recomputeLinkEntries_identity Examples.keyRepoId Examples.sortedLabels
              [note] existing)
    as (result & Hres & Hid).
  - apply noInheritedTargets_check. reflexivity.
  - exists result. split; [exact Hres|]. split; [|exact Hid].
    vm_compute in Hres. injection Hres as <-. reflexivity.
Defined.

End LinkPass.

(* ===================================================================== *)
(** * The index of the links in the entries *)
(* ===================================================================== *)

Module EntriesIndex.
Import Repos Types Host EntryUtils SortProofs.

Section Tagged.
Context {A B : Type} (f : A -> B) (cmp : B -> B -> Z).

Lemma insertSorted_fmap (x : A) (l : list A) :
  f <$> insertSorted (fun a b => cmp (f a) (f b)) x l = insertSorted cmp (f x) (f <$> l).
Proof.
  induction l as [|y l IH]; [reflexivity|]. cbn [insertSorted fmap list_fmap].
  destruct (Z.leb (cmp (f x) (f y)) 0); [reflexivity|].
  cbn [fmap list_fmap]. f_equal. exact IH.
Qed.

Lemma js_sort_fmap (l : list A) :
  f <$> js_sort (fun a b => cmp (f a) (f b)) l = js_sort cmp (f <$> l).
Proof.
  induction l as [|x l IH]; [reflexivity|].
  unfold js_sort in *. cbn [foldr fmap list_fmap]. now rewrite insertSorted_fmap, IH.
Qed.

End Tagged.

Lemma snd_imap_pair {A} (l : list A) : snd <$> imap (fun i e => (i, e)) l = l.
Proof.
  apply list_eq. intros i. rewrite list_lookup_fmap, list_lookup_imap.
  destruct (l !! i); reflexivity.
Qed.

Lemma elem_of_imap_pair {A} (l : list A) (i : nat) (e : A) :
  (i, e) ∈ imap (fun i e => (i, e)) l <-> l !! i = Some e.
Proof.
  rewrite list_elem_of_lookup. split.
  - intros (j & Hj). apply list_lookup_imap_Some in Hj as (y & Hy & [= -> ->]). exact Hy.
  - intros Hi. exists i. rewrite list_lookup_imap, Hi. reflexivity.
Qed.

Section Index.
Context `{RepoId} `{LabelUtils} `{StringHost}.

(** The entries of the tagged sort are the entries of the sort. *)
Lemma snd_sortAndIndexTagged (entries : Entries) :
  snd <$> sortAndIndexTagged (imap (fun i e => (i, e)) entries)
  = sortAndIndexEntries entries.
Proof.
  unfold sortAndIndexTagged, sortAndIndexEntries.
  rewrite <- (snd_imap_pair entries) at 2.
  rewrite <- (js_sort_fmap snd compareEntries).
  apply list_eq. intros i.
  rewrite list_lookup_fmap, !list_lookup_imap, list_lookup_fmap.
  destruct (js_sort _ _ !! i) as [[tag e]|]; reflexivity.
Qed.

(** The object tagged [tag] is found after the sort, at the position that
    is its [idx]. *)
Lemma find_tag (entries : Entries) (tag : nat) (e : Entry) :
  entries !! tag = Some e ->
  exists p,
    list_find (fun te : nat * Entry => te.1 = tag)
      (sortAndIndexTagged (imap (fun i e => (i, e)) entries))
    = Some (p, (tag, setIdx p e)).
Proof.
  intros He. unfold sortAndIndexTagged.
  set (sorted := js_sort (fun a b : nat * Entry => compareEntries a.2 b.2)
                   (imap (fun i e => (i, e)) entries)).
  assert (Hsorted : forall i x, (i, x) ∈ sorted <-> entries !! i = Some x).
  { intros i x. unfold sorted. rewrite js_sort_perm. apply elem_of_imap_pair. }
  assert (Hin : (tag, e) ∈ sorted) by now apply Hsorted.
  apply list_elem_of_lookup in Hin as [q Hq].
  destruct (list_find_elem_of (fun te : nat * Entry => te.1 = tag)
              (imap (fun i te => (te.1, setIdx i te.2)) sorted) (tag, setIdx q e))
    as [[p te] Hfind].
  { apply list_elem_of_lookup. exists q. rewrite list_lookup_imap, Hq. reflexivity. }
  { reflexivity. }
  rewrite Hfind. apply list_find_Some in Hfind as (Hp & Htag & _).
  apply list_lookup_imap_Some in Hp as ([tag' e'] & Hp & ->).
  cbn in Htag. subst tag'.
  assert (e' = e).
  { assert (Hin' : (tag, e') ∈ sorted) by (apply list_elem_of_lookup; now exists p).
    apply Hsorted in Hin'. congruence. }
  subst e'. now exists p.
Qed.

Lemma idxOfTag_found (entries : Entries) (tag : nat) (e : Entry) :
  entries !! tag = Some e ->
  exists p,
    idxOfTag (sortAndIndexTagged (imap (fun i e => (i, e)) entries)) tag = Some p /\
    sortAndIndexTagged (imap (fun i e => (i, e)) entries) !! p = Some (tag, setIdx p e).
Proof.
  intros He. destruct (find_tag entries tag e He) as (p & Hfind).
  exists p. unfold idxOfTag. rewrite Hfind. split; [reflexivity|].
  now apply list_find_Some in Hfind as (Hp & _).
Qed.

(** X20: the entries [recomputeEntries] returns are the file entries and
    the recomputed links, sorted and indexed; and the links it returns are
    the recomputed links with the [idx] the sort gave them: at the position
    its [idx] names, the entries hold that very link. *)
Theorem recomputeEntries_indexed (fileEntries : list EntryFile)
  (existingLinkEntries links : list EntryLink) (entries : Entries) :
  recomputeEntries fileEntries existingLinkEntries = Some (links, entries) ->
  exists result,
    recomputeLinkEntries fileEntries existingLinkEntries = Some result /\
    entries = sortAndIndexEntries ((fileEntry <$> fileEntries) ++ (linkEntry <$> result)) /\
    length links = length result /\
    forall j link0, result !! j = Some link0 ->
      exists i, links !! j = Some (setIdx i link0) /\
                entries !! i = Some (linkEntry (setIdx i link0)).
Proof.
  unfold recomputeEntries. intros Hrun.
  destruct (recomputeLinkEntries fileEntries existingLinkEntries) as [result|];
    [|discriminate Hrun].
  cbn in Hrun. injection Hrun as <- <-.
  exists result. split; [reflexivity|].
  split; [apply snd_sortAndIndexTagged|].
  split; [apply length_imap|].
  intros j link0 Hj.
  set (entries0 := (fileEntry <$> fileEntries) ++ (linkEntry <$> result)).
  assert (He : entries0 !! (length fileEntries + j)%nat = Some (linkEntry link0)).
  { unfold entries0. rewrite lookup_app_r by (rewrite length_fmap; lia).
    rewrite length_fmap.
    replace (length fileEntries + j - length fileEntries)%nat with j by lia.
    now rewrite list_lookup_fmap, Hj. }
  destruct (idxOfTag_found entries0 _ _ He) as (p & Hidx & Hp).
  exists p. split.
  - rewrite list_lookup_imap, Hj. cbn. fold entries0. now rewrite Hidx.
  - rewrite list_lookup_fmap. fold entries0. rewrite Hp. reflexivity.
Qed.

End Index.

(** A note that links to a target: the link is the second of the entries. *)
Lemma recomputeEntries_indexed_witness :
  let fileEntries := [Examples.noteEntry "n" "notes" ["a"] ["https://t.example"]] in
  exists link entries,
    @recomputeEntries Examples.keyRepoId Examples.sortedLabels Examples.asciiHost
      fileEntries [] = Some ([link], entries) /\
    idx link = Some 1%nat /\
    entries !! 1%nat = Some (linkEntry link).
Proof.
  intros fileEntries.
  destruct (@recomputeEntries Examples.keyRepoId Examples.sortedLabels Examples.asciiHost
              fileEntries []) as [[links entries]|] eqn:Hrun; [|vm_compute in Hrun; discriminate Hrun].
  destruct (@recomputeEntries_indexed Examples.keyRepoId Examples.sortedLabels
              Examples.asciiHost fileEntries [] links entries Hrun)
    as (result & Hres & Hentries & Hlen & Hidx).
  vm_compute in Hres. injection Hres as <-.
  destruct (Hidx 0%nat _ eq_refl) as (i & Hl & He).
  destruct links as [|link [|link' links]]; try discriminate Hlen.
  cbn in Hl. injection Hl as ->.
  assert (Hi : i = 1%nat).
  { vm_compute in Hrun. congruence. }
  subst i. eexists _, _. split; [reflexivity|]. split; [reflexivity|exact He].
Defined.

End EntriesIndex.

(* ===================================================================== *)
(** * Replacing the active file entry *)
(* ===================================================================== *)

Module AppStateProofs.
Import Repos Types Host EntryUtils LinkProofs LinkHistory EntriesIndex AppState.

Section Modify.
Context `{RepoId} `{LabelUtils} `{StringHost}.

(** [recomputeEntries] is the tagged pass without the tags. *)
Lemma recomputeEntries_tagged (fileEntries : list EntryFile)
  (existingLinkEntries : list EntryLink) :
  recomputeEntries fileEntries existingLinkEntries
  = (fun r : list EntryLink * list (nat * Entry) => (r.1, snd <$> r.2))
      <$> recomputeEntriesTagged fileEntries existingLinkEntries.
Proof.
  unfold recomputeEntries, recomputeEntriesTagged.
  destruct (recomputeLinkEntries fileEntries existingLinkEntries); reflexivity.
Qed.

(** X21: when a file entry has the key of [oldEntry] and no note links to a
    name inherited from [Object.prototype] once the first such entry is
    replaced by [newEntry], [modifyFileEntry] returns a value: the active
    entry does not disappear.  The links and the entries it returns are the
    ones [recomputeEntries] gives for the new file entries, the new active
    index is the [idx] the sort gave to [newEntry], the entries hold
    [newEntry] there, and the new file entries hold it where the old entry
    was. *)
Theorem modifyFileEntry_active (oldFileEntries : list EntryFile)
  (oldLinkEntries : list EntryLink) (oldEntry newEntry found : EntryFile)
  (fileEntryIdx : nat) :
  oldFileEntries !! fileEntryIdx = Some found ->
  key found = key oldEntry ->
  (forall j other, oldFileEntries !! j = Some other -> (j < fileEntryIdx)%nat ->
                   key other <> key oldEntry) ->
  noInheritedTargets (<[fileEntryIdx := newEntry]> oldFileEntries) ->
  exists files links entries i,
    modifyFileEntry oldFileEntries oldLinkEntries oldEntry newEntry
    = Some (Some (files, links, entries, i)) /\
    recomputeEntries (<[fileEntryIdx := newEntry]> oldFileEntries) oldLinkEntries
    = Some (links, entries) /\
    entries !! i = Some (fileEntry (setIdx i newEntry)) /\
    files !! fileEntryIdx = Some (setIdx i newEntry) /\
    length files = length oldFileEntries.
Proof.
  intros Hfound Hkey Hfirst Hno.
  assert (Hfind : list_find (fun entry : EntryFile => key entry = key oldEntry) oldFileEntries
                  = Some (fileEntryIdx, found)).
  { apply list_find_Some. split; [assumption|]. split; [assumption|].
    intros j other Hj Hlt. now apply (Hfirst j other). }
  assert (Hlt : (fileEntryIdx < length oldFileEntries)%nat)
    by now apply lookup_lt_Some in Hfound.
  set (newFileEntries := <[fileEntryIdx := newEntry]> oldFileEntries) in *.
  destruct (recomputeLinkState_total newFileEntries oldLinkEntries Hno)
    as (st & _ & Hres & _).
  set (entries0 := (fileEntry <$> newFileEntries) ++ (linkEntry <$> deref st)).
  assert (Hnew : newFileEntries !! fileEntryIdx = Some newEntry)
    by now apply list_lookup_insert_eq.
  assert (He : entries0 !! fileEntryIdx = Some (fileEntry newEntry)).
  { unfold entries0. rewrite lookup_app_l.
    - now rewrite list_lookup_fmap, Hnew.
    - unfold newFileEntries. now rewrite length_fmap, length_insert. }
  destruct (find_tag entries0 fileEntryIdx _ He) as (p & Hp).
  assert (Hrun : recomputeEntriesTagged newFileEntries oldLinkEntries
                 = Some (imap (fun j link =>
                                 match idxOfTag
                                         (sortAndIndexTagged (imap (fun i e => (i, e)) entries0))
                                         (length newFileEntries + j) with
                                 | Some i => setIdx i link
                                 | None => link
                                 end) (deref st),
                         sortAndIndexTagged (imap (fun i e => (i, e)) entries0))).
  { unfold recomputeEntriesTagged. rewrite Hres. reflexivity. }
  eexists _, _, _, p. split; [|split; [|split; [|split]]].
  - unfold modifyFileEntry. rewrite Hfind. fold newFileEntries. rewrite Hrun, Hp.
    reflexivity.
  - rewrite recomputeEntries_tagged, Hrun. reflexivity.
  - rewrite list_lookup_fmap. apply list_find_Some in Hp as (Hp & _).
    rewrite Hp. reflexivity.
  - rewrite list_lookup_imap, Hnew. cbn. unfold idxOfTag. rewrite Hp. reflexivity.
  - rewrite length_imap. unfold newFileEntries. apply length_insert.
Qed.

(** ** Replacing the active link *)

Lemma omap_lookup_all {A B} (f : A -> option B) (l : list A) (j : nat) (a : A) :
  (forall x, x ∈ l -> is_Some (f x)) ->
  l !! j = Some a -> omap f l !! j = f a.
Proof.
  revert j. induction l as [|x l IH]; intros j Hall Hj; [discriminate Hj|].
  destruct (Hall x (list_elem_of_here _ _)) as [y Hy].
  cbn [omap list_omap]. rewrite Hy. destruct j as [|j].
  - injection Hj as <-. now rewrite Hy.
  - cbn. apply IH; [|exact Hj]. intros x' Hx'. apply Hall. now apply list_elem_of_further.
Qed.

(** X27: when a link has the key of [oldEntry], no note links to a name
    inherited from [Object.prototype], and [newEntry], put in the place of
    the first such link, has a target that no earlier link has and that is
    no inherited name, and is standalone or the target of a link of a note,
    then [modifyLinkEntry] returns a value (the active entry does not
    disappear): the links and entries are the ones [recomputeEntries] gives,
    and at the new active index the entries hold the link that the pass made
    of [newEntry], with its title, priority, key, target, standalone repo and
    own labels. *)
Theorem modifyLinkEntry_active (oldFileEntries : list EntryFile)
  (oldLinkEntries : list EntryLink) (oldEntry newEntry found : EntryLink)
  (linkEntryIdx : nat) :
  oldLinkEntries !! linkEntryIdx = Some found ->
  key found = key oldEntry ->
  (forall j other, oldLinkEntries !! j = Some other -> (j < linkEntryIdx)%nat ->
                   key other <> key oldEntry) ->
  noInheritedTargets oldFileEntries ->
  firstWithTarget (<[linkEntryIdx := newEntry]> oldLinkEntries) linkEntryIdx ->
  target (content newEntry) ∉ objectPrototypeKeys ->
  (is_Some (standaloneRepo (content newEntry)) \/
   exists entry, entry ∈ oldFileEntries /\ target (content newEntry) ∈ linkTargets entry) ->
  exists links entries i link,
    modifyLinkEntry oldFileEntries oldLinkEntries oldEntry newEntry
    = Some (Some (links, entries, i)) /\
    recomputeEntries oldFileEntries (<[linkEntryIdx := newEntry]> oldLinkEntries)
    = Some (links, entries) /\
    entries !! i = Some (linkEntry (setIdx i link)) /\
    setIdx i link ∈ links /\
    sameLink newEntry link.
Proof.
  intros Hfound Hkey Hfirstkey Hno Hfirst Hown Hkept.
  assert (Hfind : list_find (fun entry : EntryLink => key entry = key oldEntry) oldLinkEntries
                  = Some (linkEntryIdx, found)).
  { apply list_find_Some. split; [assumption|]. split; [assumption|].
    intros j other Hj Hlt. now apply (Hfirstkey j other). }
  assert (Hlt : (linkEntryIdx < length oldLinkEntries)%nat)
    by now apply lookup_lt_Some in Hfound.
  set (tmpLinkEntries := <[linkEntryIdx := newEntry]> oldLinkEntries) in *.
  assert (Hnew : tmpLinkEntries !! linkEntryIdx = Some newEntry)
    by now apply list_lookup_insert_eq.
  destruct (LinkPass.history_end tmpLinkEntries (fun _ _ => True))
    with (fileEntries := oldFileEntries)
    as (st & Hst & Hres & Hwf & Hvis & Hvs & _); try (intros; exact I); [assumption|].
  pose proof (firstLoopInv_end tmpLinkEntries) as Hinv.
  fold (afterFirstLoop tmpLinkEntries) in Hinv.
  (* the address of the new link is known, and its link is pushed *)
  assert (Hmap0 : linkMap (afterFirstLoop tmpLinkEntries) !! target (content newEntry)
                  = Some linkEntryIdx)
    by now apply LinkReconciliation.first_loop_first.
  assert (Hpushed : linkEntryIdx ∈ linkEntries st).
  { destruct Hkept as [Hsa|(entry & He & Ht)].
    - apply (vis_entries _ _ _ Hvis). apply (inv_entries _ _ _ Hinv).
      exists newEntry. now repeat split.
    - destruct (Hvs (entry, target (content newEntry))) as (a & Ha & Hin).
      { now apply LinkPass.elem_of_visits. }
      cbn [snd] in Ha. apply (vis_map _ _ _ Hvis) in Hmap0.
      assert (a = linkEntryIdx) by congruence. now subst a. }
  destruct (vis_heap _ _ _ Hvis linkEntryIdx (resetLink newEntry)) as (link & Hh & Hsame).
  { now apply LinkReconciliation.first_loop_heap. }
  assert (Hsame' : sameLink newEntry link)
    by (eapply sameLink_trans; [apply sameLink_resetLink|exact Hsame]).
  destruct (list_find_elem_of (fun a => a = linkEntryIdx) (linkEntries st) linkEntryIdx
              Hpushed eq_refl) as [[j a] Hj].
  pose proof Hj as Hj'. apply list_find_Some in Hj' as (Hja & -> & _).
  assert (Hderef : deref st !! j = Some link).
  { unfold deref. rewrite (omap_lookup_all _ _ j linkEntryIdx); [exact Hh| |exact Hja].
    intros x Hx. destruct (wf_entries st Hwf x Hx) as (l & Hl & _). now exists l. }
  set (entries0 := (fileEntry <$> oldFileEntries) ++ (linkEntry <$> deref st)).
  assert (He : entries0 !! (length oldFileEntries + j)%nat = Some (linkEntry link)).
  { unfold entries0. rewrite lookup_app_r by (rewrite length_fmap; lia).
    rewrite length_fmap.
    replace (length oldFileEntries + j - length oldFileEntries)%nat with j by lia.
    now rewrite list_lookup_fmap, Hderef. }
  destruct (find_tag entries0 _ _ He) as (p & Hp).
  assert (Hrun : recomputeEntriesTagged oldFileEntries tmpLinkEntries
                 = Some (imap (fun j link =>
                                 match idxOfTag
                                         (sortAndIndexTagged (imap (fun i e => (i, e)) entries0))
                                         (length oldFileEntries + j) with
                                 | Some i => setIdx i link
                                 | None => link
                                 end) (deref st),
                         sortAndIndexTagged (imap (fun i e => (i, e)) entries0))).
  { unfold recomputeEntriesTagged. rewrite Hres. reflexivity. }
  eexists _, _, p, link. split; [|split; [|split; [|split]]].
  - unfold modifyLinkEntry. rewrite Hfind. fold tmpLinkEntries.
    rewrite Hst, Hrun, Hj, Hp. reflexivity.
  - rewrite recomputeEntries_tagged, Hrun. reflexivity.
  - rewrite list_lookup_fmap. apply list_find_Some in Hp as (Hp & _).
    rewrite Hp. reflexivity.
  - apply list_elem_of_lookup. exists j. rewrite list_lookup_imap, Hderef. cbn.
    unfold idxOfTag. rewrite Hp. reflexivity.
  - exact Hsame'.
Qed.

End Modify.

(** The note "n" is renamed to "zz" while a document "a" is there: the
    renamed note stays the first of the entries. *)
Lemma modifyFileEntry_active_witness :
  let old := Examples.noteEntry "n" "notes" [] ["https://t.example"] in
  let new := Examples.noteEntry "zz" "notes" [] ["https://t.example"] in
  exists files links entries i,
    @modifyFileEntry Examples.keyRepoId Examples.sortedLabels Examples.asciiHost
      [Examples.documentEntry "a" "docs"; old] [] old new
    = Some (Some (files, links, entries, i)) /\
    entries !! i = Some (fileEntry (setIdx i new)) /\
    i = 0%nat.
Proof.
  intros old new.
  destruct (@modifyFileEntry_active Examples.keyRepoId Examples.sortedLabels Examples.asciiHost
              [Examples.documentEntry "a" "docs"; old] [] old new old 1%nat)
    as (files & links & entries & i & Hrun & _ & He & _).
  - reflexivity.
  - reflexivity.
  - intros j other Hj Hlt. destruct j as [|j]; [|lia].
    injection Hj as <-. discriminate.
  - apply LinkPass.noInheritedTargets_check. reflexivity.
  - exists files, links, entries, i. split; [exact Hrun|]. split; [exact He|].
    vm_compute in Hrun. congruence.
Defined.

(** The standalone link "S" gets the title "T" and the own label y, while
    a note links to its target. *)
Lemma modifyLinkEntry_active_witness :
  let old := Examples.storedLink "S" "https://s.example" ["x"] true in
  let new := Examples.storedLink "T" "https://s.example" ["y"] true in
  let note := Examples.noteEntry "n" "notes" [] ["https://s.example"] in
  exists links entries i link,
    @modifyLinkEntry Examples.keyRepoId Examples.sortedLabels Examples.asciiHost
      [note] [old] old new
    = Some (Some (links, entries, i)) /\
    entries !! i = Some (linkEntry (setIdx i link)) /\
    title link = "T" /\ i = 1%nat.
Proof.
  intros old new note.
  destruct (@modifyLinkEntry_active Examples.keyRepoId Examples.sortedLabels
              Examples.asciiHost [note] [old] old new old 0%nat)
    as (links & entries & i & link & Hrun & _ & He & _ & Hsame).
  - reflexivity.
  - reflexivity.
  - intros j other _ Hlt. lia.
  - apply LinkPass.noInheritedTargets_check. reflexivity.
  - intros j other link Hlt. lia.
  - now apply LinkReconciliation.not_elem_of_strings.
  - left. now eexists.
  - exists links, entries, i, link. split; [exact Hrun|]. split; [exact He|].
    split; [symmetry; apply Hsame|]. vm_compute in Hrun. congruence.
Defined.

End AppStateProofs.

(* ===================================================================== *)
(** * The link DB: storing and reading back *)
(* ===================================================================== *)

Module LinkDBProofs.
Import Neverthrow Repos Types Host EntryUtils LinkDB.

Section RoundTrip.
Context `{RepoId} `{StoredLinksIo}.

Lemma restoredFrom_fromStoredLink (repo : Repo) (linkEntry : EntryLink) :
  restoredFrom repo linkEntry (fromStoredLink repo (toStoredLink repo linkEntry)).
Proof.
  unfold restoredFrom. cbn.
  do 9 (split; [reflexivity|]).
  destruct (standaloneRepo (content linkEntry)); reflexivity.
Qed.

Lemma resetLink_fromStoredLink (repo : Repo) (storedLink : StoredLink) :
  resetLink (fromStoredLink repo storedLink) = fromStoredLink repo storedLink.
Proof. reflexivity. Qed.

(** X22: when the parser reads back what the serializer wrote for the links
    of a repo, [deserializeLinkEntries] of [serializeLinkEntries] gives one
    link for every link that a note of the repo refers to or that is
    standalone in the repo, in their order: each with the title, the target
    and the own labels of the original, its labels put back to the own
    labels, no back-references, repos or locations, priority 0 whatever the
    priority was, the key of its target, and standalone in this repo exactly
    when the original was; and these links are as the first loop of
    [recomputeLinkEntries] would reset them. *)
Theorem deserialize_serialize (repo : Repo) (linkEntries : list EntryLink) :
  parseStoredLinks (serializeLinkEntries repo linkEntries)
  = Ok (toStoredLinks repo linkEntries) ->
  exists restored,
    deserializeLinkEntries repo (Some (serializeLinkEntries repo linkEntries)) = Ok restored /\
    Forall2 (restoredFrom repo)
      (filter (fun linkEntry => storedIn repo linkEntry = true) linkEntries) restored /\
    resetLink <$> restored = restored.
Proof.
  intros Hparse. unfold deserializeLinkEntries. rewrite Hparse.
  eexists. split; [reflexivity|]. split.
  - unfold toStoredLinks. rewrite <- list_fmap_compose.
    apply Forall2_fmap_r, Forall_Forall2_diag, Forall_forall.
    intros linkEntry _. apply restoredFrom_fromStoredLink.
  - rewrite <- list_fmap_compose. apply list_fmap_ext. intros i storedLink _.
    apply resetLink_fromStoredLink.
Qed.

(** X23: records that are read and stored again, without a pass of
    [recomputeLinkEntries] in between, keep the standalone records as they
    are and lose the others: the links read have no repos yet. *)
Theorem store_after_read (repo : Repo) (storedLinks : list StoredLink) :
  toStoredLinks repo (fromStoredLink repo <$> storedLinks)
  = filter (fun storedLink => standalone storedLink = true) storedLinks.
Proof.
  unfold toStoredLinks.
  induction storedLinks as [|[t u ls [|]] storedLinks IH]; [reflexivity| |].
  - cbn [fmap list_fmap]. rewrite filter_cons_True.
    + rewrite (filter_cons_True _ (Build_StoredLink t u ls true)) by reflexivity.
      cbn [fmap list_fmap]. f_equal; [|exact IH].
      unfold toStoredLink. cbn. now rewrite String.eqb_refl.
    + unfold storedIn. cbn. now rewrite String.eqb_refl.
  - cbn [fmap list_fmap]. rewrite filter_cons_False.
    + rewrite (filter_cons_False _ (Build_StoredLink t u ls false)) by discriminate.
      exact IH.
    + unfold storedIn. cbn. discriminate.
Qed.

End RoundTrip.

(** An io whose parser knows one record. *)
Lemma deserialize_serialize_witness :
  let io := {| serializeStoredLinks := fun _ => "- target: https://s.example";
               parseStoredLinks := fun _ =>
                 Ok [ {| storedTitle := "S"; storedTarget := "https://s.example";
                         storedOwnLabels := ["x"]; standalone := true |} ] |} in
  let link := setIdx 3 (Examples.storedLink "S" "https://s.example" ["x"] true) in
  exists restored,
    @deserializeLinkEntries io Examples.repoA
      (Some (@serializeLinkEntries Examples.keyRepoId io Examples.repoA [link]))
    = Ok [restored] /\
    @restoredFrom Examples.keyRepoId Examples.repoA link restored.
Proof.
  intros io link.
  destruct (@deserialize_serialize Examples.keyRepoId io Examples.repoA [link] eq_refl)
    as (restored & Hrun & Hall & _).
  vm_compute in Hall. 
  destruct restored as [|r [|r' rest]];
    [inversion Hall| |apply Forall2_cons_1 in Hall as [_ Hall]; inversion Hall].
  apply Forall2_cons_1 in Hall as [Hr _].
  exists r. split; [exact Hrun|exact Hr].
Defined.

End LinkDBProofs.

(* ===================================================================== *)
(** * File entries: where they come from *)
(* ===================================================================== *)

Module ExtractionProofs.
Import Repos Types Neverthrow FileMaps Io PathUtilsExt Extraction MetaDataOf.

(** ** The path of the sidecar *)




Section Entries.
Context `{RepoId} `{IoFns} `{PathFns}.

(** X24: [constructFileEntry] gives an entry exactly for a note that is
    fetched and for a document that is in git; the entry has the kind of the
    file, the repo, the raw URL of the file, the location, title and
    extension of its path, priority 0, and [extractMetaData] gives back the
    metadata it was built with. *)
Theorem constructFileEntry_metadata (repo : Repo) (file : File) (metaData : MetaData) :
  (is_Some (constructFileEntry repo file metaData) <->
   (getFileKind (path file) = FileNoteMarkdown /\ isFileFetched file = true) \/
   (getFileKind (path file) = FileDocument /\ isFileInGit file = true)) /\
  (forall entry, constructFileEntry repo file metaData = Some entry ->
     extractMetaData entry = metaData /\
     Types.repo (fileInfo (Types.content entry)) = repo /\
     priority entry = 0 /\
     Some (Types.rawUrl (fileInfo (Types.content entry))) = rawUrl file /\
     (location (fileInfo (Types.content entry)), title entry,
      extension (fileInfo (Types.content entry)))
     = splitLocationTitleExtension (path file) /\
     match getFileKind (path file) with
     | FileNoteMarkdown =>
         exists info note, Types.content entry = ContentNote info note /\
                           Some (text note) = content file /\
                           (html note, links note) = processMarkdownText (text note)
     | FileDocument => exists info, Types.content entry = ContentDoc info
     | FileOther => False
     end).
Proof.
  unfold constructFileEntry, isFileFetched, isFileInGit.
  destruct metaData as [ls tc tu].
  destruct (splitLocationTitleExtension (path file)) as [[location title] extension].
  destruct (getFileKind (path file));
    destruct (content file) as [text|]; destruct (rawUrl file) as [url|];
    destruct (sha file) as [s|]; cbn.
  all: try (destruct (processMarkdownText text) as [html links] eqn:Hmd).
  all: split;
    [ split;
      [ intros [entry [=]]; first [left; (split; [reflexivity|reflexivity])
                                  |right; (split; [reflexivity|reflexivity])]
      | intros [[E1 E2]|[E1 E2]]; try discriminate E1; try discriminate E2; eauto ]
    | intros entry [= <-]; cbn; repeat (split; [reflexivity|]); eauto ].
  all: eexists _, _; cbn; rewrite Hmd; now repeat split.
Qed.

(** ** The entries of an extraction *)

Lemma pushEntry_elem_of (fileEntries : list EntryFile) (pushed : option EntryFile)
  (entry : EntryFile) :
  entry ∈ pushEntry fileEntries pushed -> entry ∈ fileEntries \/ pushed = Some entry.
Proof.
  destruct pushed as [e|]; cbn [pushEntry]; [|now left].
  intros Hin. apply elem_of_app in Hin as [Hin|Hin]; [now left|].
  apply list_elem_of_singleton in Hin as ->. now right.
Qed.

(** An entry that a visit of [file] adds is built from [file]. *)
Lemma visitFile_origin (repo : Repo) (fileMap : FileMap)
  (st : list EntryFile * MultiRepoFileMap) (file : File) (entry : EntryFile) :
  entry ∈ (visitFile repo fileMap st file).1 ->
  entry ∈ st.1 \/ builtFrom repo fileMap file entry.
Proof.
  destruct st as [fileEntries allFileMapsEdit]. unfold visitFile, builtFrom.
  destruct (isNotemarksFile (path file)); cbn [negb]; [now left|].
  destruct (get fileMap (getAssociatedMetaPath (path file))) as [metaFile|].
  - destruct (content metaFile) as [metaContent|].
    + destruct (parseMetaData metaContent) as [metaData|e] eqn:Hparse.
      * cbn [fst]. intros Hin. apply pushEntry_elem_of in Hin as [Hin|Hin]; [now left|].
        right. split; [reflexivity|]. exists metaData. split; [assumption|now left].
      * destruct (constructFileEntry repo file createNewMetaData) as [e'|] eqn:Hc;
          cbn [fst]; [|now left].
        intros Hin. apply elem_of_app in Hin as [Hin|Hin]; [now left|].
        apply list_elem_of_singleton in Hin as ->.
        right. split; [reflexivity|]. exists createNewMetaData.
        split; [assumption|]. right. split; [now exists e|reflexivity].
    + case_bool_decide as Herr; [now left|].
      destruct (constructFileEntry repo file createNewMetaData) as [e'|] eqn:Hc;
        cbn [fst]; [|now left].
      intros Hin. apply elem_of_app in Hin as [Hin|Hin]; [now left|].
      apply list_elem_of_singleton in Hin as ->.
      right. split; [reflexivity|]. exists createNewMetaData.
      split; [assumption|]. split; [|reflexivity].
      destruct (error metaFile) as [e|]; [|reflexivity]. exfalso. apply Herr. now exists e.
  - destruct (constructFileEntry repo file createNewMetaData) as [e'|] eqn:Hc;
      cbn [fst]; [|now left].
    intros Hin. apply elem_of_app in Hin as [Hin|Hin]; [now left|].
    apply list_elem_of_singleton in Hin as ->.
    right. split; [reflexivity|]. exists createNewMetaData. now split.
Qed.

Lemma visitFiles_origin (repo : Repo) (fileMap : FileMap) (files : list File) :
  forall (st : list EntryFile * MultiRepoFileMap) (entry : EntryFile),
  entry ∈ (foldl (visitFile repo fileMap) st files).1 ->
  entry ∈ st.1 \/ exists file, file ∈ files /\ builtFrom repo fileMap file entry.
Proof.
  induction files as [|file files IH]; intros st entry Hin; cbn [foldl] in Hin;
    [now left|].
  destruct (IH _ _ Hin) as [Hhere|(file' & Hfile' & Hbuilt)].
  - destruct (visitFile_origin repo fileMap st file entry Hhere) as [?|Hbuilt];
      [now left|right].
    exists file. split; [apply list_elem_of_here|assumption].
  - right. exists file'. split; [now apply list_elem_of_further|assumption].
Qed.

Lemma visitRepos_origin (all : MultiRepoFileMap) :
  forall (st : list EntryFile * MultiRepoFileMap) (entry : EntryFile),
  entry ∈ (foldl (fun st '(repo, fileMap) => foldl (visitFile repo fileMap) st fileMap)
             st all).1 ->
  entry ∈ st.1 \/
  exists repo fileMap file,
    (repo, fileMap) ∈ all /\ file ∈ fileMap /\ builtFrom repo fileMap file entry.
Proof.
  induction all as [|[repo fileMap] all IH]; intros st entry Hin; cbn [foldl] in Hin;
    [now left|].
  destruct (IH _ _ Hin) as [Hhere|(repo' & fileMap' & file & Hall & Hfile & Hbuilt)].
  - destruct (visitFiles_origin repo fileMap fileMap st entry Hhere)
      as [?|(file & Hfile & Hbuilt)]; [now left|right].
    exists repo, fileMap, file. split; [apply list_elem_of_here|now split].
  - right. exists repo', fileMap', file. split; [now apply list_elem_of_further|now split].
Qed.

(** X25: every entry that [extractFileEntriesAndUpdateFileMap] returns is
    built by [constructFileEntry] from a file of one of the file maps that
    is no notemarks file, with the metadata parsed from the content of its
    sidecar, or with new metadata when it has no sidecar or when the content
    of its sidecar does not parse; a file whose sidecar could not be fetched
    gives no entry. *)
Theorem extracted_entries_origin (allFileMapsOrig : MultiRepoFileMap) (entry : EntryFile) :
  entry ∈ (extractFileEntriesAndUpdateFileMap allFileMapsOrig).1 ->
  exists repo fileMap file,
    (repo, fileMap) ∈ allFileMapsOrig /\ file ∈ fileMap /\
    builtFrom repo fileMap file entry.
Proof.
  unfold extractFileEntriesAndUpdateFileMap. intros Hin.
  apply visitRepos_origin in Hin as [Hin|Hin]; [inversion Hin|exact Hin].
Qed.

End Entries.

(** The note a.md without sidecar: its entry is built with new metadata. *)
Lemma extracted_entries_origin_witness :
  let all := [(Examples.repoA, [Examples.fetchedNote])] in
  exists entry file,
    entry ∈ (@extractFileEntriesAndUpdateFileMap Examples.keyRepoId Examples.exampleIoFns
               Examples.examplePathFns all).1 /\
    file ∈ [Examples.fetchedNote] /\
    @builtFrom Examples.exampleIoFns Examples.examplePathFns
      Examples.repoA [Examples.fetchedNote] file entry.
Proof.
  intros all.
  destruct (@extractFileEntriesAndUpdateFileMap Examples.keyRepoId Examples.exampleIoFns
              Examples.examplePathFns all).1 as [|entry rest] eqn:Hrun;
    [vm_compute in Hrun; discriminate Hrun|].
  assert (Hin : entry ∈ (@extractFileEntriesAndUpdateFileMap Examples.keyRepoId
                           Examples.exampleIoFns Examples.examplePathFns all).1)
    by (rewrite Hrun; apply list_elem_of_here).
  destruct (@extracted_entries_origin Examples.keyRepoId Examples.exampleIoFns
              Examples.examplePathFns all entry Hin)
    as (repo & fileMap & file & Hall & Hfile & Hbuilt).
  apply list_elem_of_singleton in Hall. injection Hall as -> ->.
  exists entry, file. split; [apply list_elem_of_here|]. split; assumption.
Defined.

End ExtractionProofs.

(* ===================================================================== *)
(** * Link reconciliation: a second pass *)
(* ===================================================================== *)

Module LinkFixpoint.
Import Repos Types Host EntryUtils LinkProofs LinkHistory MergeProofs LinkPass.

Lemma omap_fmap_id {A K} (f : A -> K) (g : K -> option A) (l : list A) :
  (forall x, x ∈ l -> g (f x) = Some x) -> omap g (f <$> l) = l.
Proof.
  induction l as [|x l IH]; intros Hg; [reflexivity|].
  cbn [fmap list_fmap omap list_omap]. rewrite (Hg x) by apply list_elem_of_here.
  f_equal. apply IH. intros y Hy. apply Hg. now apply list_elem_of_further.
Qed.

Lemma filter_all {A} (P : A -> Prop) `{forall x, Decision (P x)} (l : list A) :
  (forall x, x ∈ l -> P x) -> filter P l = l.
Proof.
  induction l as [|x l IH]; intros HP; [reflexivity|].
  rewrite filter_cons_True by apply HP, list_elem_of_here.
  f_equal. apply IH. intros y Hy. apply HP. now apply list_elem_of_further.
Qed.

Lemma filter_none {A} (P : A -> Prop) `{forall x, Decision (P x)} (l : list A) :
  (forall x, x ∈ l -> ~ P x) -> filter P l = [].
Proof.
  induction l as [|x l IH]; intros HP; [reflexivity|].
  rewrite filter_cons_False by apply HP, list_elem_of_here.
  apply IH. intros y Hy. apply HP. now apply list_elem_of_further.
Qed.

(** The order of the pushes: what is there stays in front. *)
Lemma pushOrder_app (us : list string) : forall targets,
  exists pushed, pushOrder targets us = targets ++ pushed /\
                 forall u, u ∈ pushed -> u ∉ targets.
Proof.
  induction us as [|u us IH]; intros targets; cbn [pushOrder foldl].
  - exists []. rewrite app_nil_r. split; [reflexivity|]. intros u Hu. inversion Hu.
  - unfold pushTarget at 2. case_bool_decide as Hin.
    + apply IH.
    + destruct (IH (targets ++ [u])) as (pushed & Hrun & Hnew).
      exists (u :: pushed). fold (pushOrder (targets ++ [u]) us). rewrite Hrun.
      rewrite <- app_assoc. split; [reflexivity|].
      intros x Hx. apply elem_of_cons in Hx as [->|Hx]; [assumption|].
      intros Hx'. apply (Hnew x Hx). apply elem_of_app. now left.
Qed.

Section SecondPass.
Context `{RepoId} `{LabelUtils}.

(** ** The first loop on links with distinct targets *)

Lemma visitExisting_entryTargets (st : LinkState) (a : nat) (link : EntryLink) :
  heap st !! a = Some link ->
  target (content link) ∉ objectPrototypeKeys ->
  linkMap st !! target (content link) = None ->
  heap (visitExisting st a link) = <[a := resetLink link]> (heap st) /\
  linkMap (visitExisting st a link) = <[target (content link) := a]> (linkMap st) /\
  entryTargets (visitExisting st a link)
  = entryTargets st
    ++ (if bool_decide (is_Some (standaloneRepo (content link)))
        then [target (content link)] else []).
Proof.
  intros Hh Hown Hnone.
  assert (Hsame : forall b,
    (fun l : EntryLink => target (content l)) <$> <[a := resetLink link]> (heap st) !! b
    = (fun l : EntryLink => target (content l)) <$> heap st !! b).
  { intros b. now apply (insert_same_target _ a b link). }
  unfold visitExisting. cbn [resetLink content target standaloneRepo].
  rewrite js_in_own by assumption.
  rewrite bool_decide_eq_false_2 by (rewrite Hnone; intros [? [=]]). cbn [negb].
  case_bool_decide as Hsa; cbn [heap linkMap]; (split; [reflexivity|]);
    (split; [reflexivity|]); rewrite !entryTargets_omap; cbn [heap linkEntries].
  - rewrite omap_app. f_equal; [now apply omap_ext_all|].
    cbn [omap list_omap]. rewrite Hsame, Hh. reflexivity.
  - rewrite app_nil_r. now apply omap_ext_all.
Qed.

Lemma first_loop_distinct (rest : list EntryLink) : forall st a,
  drop a (heap st) = rest ->
  NoDup ((fun l : EntryLink => target (content l)) <$> rest) ->
  (forall l, l ∈ rest -> (target (content l) ∉ objectPrototypeKeys) /\
                         linkMap st !! target (content l) = None) ->
  entryTargets (visitAllExisting st a rest)
  = entryTargets st
    ++ ((fun l : EntryLink => target (content l))
          <$> filter (fun l : EntryLink => is_Some (standaloneRepo (content l))) rest).
Proof.
  induction rest as [|link rest IH]; intros st a Hdrop Hnd Hrest; cbn [visitAllExisting].
  - now rewrite app_nil_r.
  - assert (Hh : heap st !! a = Some link).
    { rewrite <- (Nat.add_0_r a), <- lookup_drop, Hdrop. reflexivity. }
    destruct (Hrest link (list_elem_of_here _ _)) as [Hown Hnone].
    destruct (visitExisting_entryTargets st a link Hh Hown Hnone) as (Hheap & Hmap & Ho).
    cbn [fmap list_fmap] in Hnd. apply NoDup_cons in Hnd as [Hfresh Hnd].
    rewrite IH; [| |assumption|].
    + rewrite Ho, <- app_assoc. f_equal. rewrite filter_cons.
      destruct (decide (is_Some (standaloneRepo (content link)))) as [Hsa|Hsa].
      * now rewrite bool_decide_eq_true_2.
      * now rewrite bool_decide_eq_false_2.
    + rewrite Hheap, drop_insert_lt by lia.
      rewrite (drop_S _ link) in Hdrop by assumption. now injection Hdrop.
    + intros l Hl. destruct (Hrest l (list_elem_of_further _ _ _ Hl)) as [Hown' Hnone'].
      split; [assumption|]. rewrite Hmap, lookup_insert_ne; [assumption|].
      intros E. apply Hfresh. rewrite E. apply list_elem_of_fmap. now exists l.
Qed.

Lemma afterFirstLoop_distinct (links : list EntryLink) :
  NoDup ((fun l : EntryLink => target (content l)) <$> links) ->
  (forall l, l ∈ links -> target (content l) ∉ objectPrototypeKeys) ->
  entryTargets (afterFirstLoop links)
  = (fun l : EntryLink => target (content l))
      <$> filter (fun l : EntryLink => is_Some (standaloneRepo (content l))) links.
Proof.
  intros Hnd Hown. unfold afterFirstLoop.
  rewrite (first_loop_distinct links (initialLinkState links) 0); [reflexivity| |assumption|].
  - reflexivity.
  - intros l Hl. split; [now apply Hown|apply lookup_empty].
Qed.

(** ** The links of a pass as existing links *)

Lemma firstWith_first (existing : list EntryLink) (t : string) (link : EntryLink) :
  firstWith existing t = Some link ->
  exists i, existing !! i = Some link /\ firstWithTarget existing i /\
            target (content link) = t.
Proof.
  unfold firstWith.
  destruct (list_find _ existing) as [[i l]|] eqn:Hfind; [|discriminate].
  intros [= <-]. apply list_find_Some in Hfind as (Hi & Ht & Hfirst).
  exists i. split; [assumption|]. split; [|assumption].
  intros j other link' Hlt Hj Hi'. assert (link' = l) by congruence. subst link'.
  rewrite Ht. now apply (Hfirst j).
Qed.

(** A link of the result is standalone exactly when the first loop has
    pushed the link of its target. *)
Lemma standalone_iff_first (existing : list EntryLink) (vs : list (EntryFile * string))
  (link : EntryLink) :
  linkAfter existing vs (target (content link)) = Some link ->
  target (content link) ∉ objectPrototypeKeys ->
  is_Some (standaloneRepo (content link))
  <-> target (content link) ∈ entryTargets (afterFirstLoop existing).
Proof.
  intros Hlink Hown.
  pose proof (firstLoopInv_end existing) as Hinv. fold (afterFirstLoop existing) in Hinv.
  pose proof (inv_wf _ _ _ Hinv) as Hwf0.
  rewrite (elem_of_entryTargets _ _ Hwf0).
  unfold linkAfter in Hlink.
  destruct (firstWith existing (target (content link))) as [base|] eqn:Hbase.
  - injection Hlink as Hlink.
    assert (Hsa : standaloneRepo (content link) = standaloneRepo (content base)).
    { rewrite <- Hlink.
      destruct (foldl_addRef_same (referencesIn vs (target (content link))) (resetLink base))
        as ((_&_&_&_&_&Hs&_) & _). now rewrite <- Hs. }
    apply firstWith_first in Hbase as (i & Hi & Hfirst & Ht).
    assert (Hmap : linkMap (afterFirstLoop existing) !! target (content link) = Some i).
    { rewrite <- Ht. apply LinkReconciliation.first_loop_first; [assumption..|].
      now rewrite Ht. }
    rewrite Hsa. split.
    + intros Hs. exists i. split; [assumption|].
      apply (inv_entries _ _ _ Hinv). exists base. rewrite Ht. now repeat split.
    + intros (a & Ha & Hin). assert (a = i) by congruence. subst a.
      apply (inv_entries _ _ _ Hinv) in Hin as (base' & Hi' & Hs & _).
      now replace base with base' by congruence.
  - split.
    + intros Hs. exfalso.
      destruct (referencesIn vs (target (content link))) as [|entry further];
        [discriminate Hlink|].
      injection Hlink as Hlink.
      destruct (foldl_addRef_same further
                  (newLink entry (fileInfo (content entry)) (target (content link))))
        as ((_&_&_&_&_&Hsame&_) & _).
      rewrite Hlink in Hsame. cbn in Hsame. rewrite <- Hsame in Hs.
      destruct Hs as [r Hr]. discriminate Hr.
    + intros (a & Ha & _). exfalso.
      destruct (inv_map _ _ _ Hinv _ _ Ha) as (base & Hi & Ht & Hfirst).
      assert (Hsome : firstWith existing (target (content link)) = Some base).
      { rewrite <- Ht. apply (firstWith_Some existing a); [assumption|].
        intros j other link' Hlt Hj Ha'. assert (link' = base) by congruence. subst link'.
        rewrite Ht. now apply (Hfirst j). }
      congruence.
Qed.

(** The link created for a note is the blank link of the target with one
    reference more, when the labels of the note are normalized. *)
Lemma addRef_blank (entry : EntryFile) (t : string) :
  normalizeLabels (labels entry) = labels entry ->
  addRef (resetLink (newLink entry (fileInfo (content entry)) t)) entry
  = newLink entry (fileInfo (content entry)) t.
Proof.
  intros Hnorm. unfold addRef, addReference, newLink, recomputeKeyLink, setKey, resetLink.
  cbn. unfold mergeLabels. cbn. now rewrite Hnorm.
Qed.

(** The link of a target, taken as the existing link of the target, is the
    link of the target again. *)
Lemma linkAfter_again (existing result : list EntryLink) (fileEntries : list EntryFile)
  (link : EntryLink) :
  (forall entry t, entry ∈ fileEntries -> t ∈ linkTargets entry ->
                   normalizeLabels (labels entry) = labels entry) ->
  (forall l, l ∈ result ->
     linkAfter existing (visits fileEntries) (target (content l)) = Some l) ->
  link ∈ result ->
  linkAfter result (visits fileEntries) (target (content link)) = Some link.
Proof.
  intros Hnorm Hlinks Hin.
  set (t := target (content link)).
  assert (Hfirst : firstWith result t = Some link).
  { unfold firstWith.
    destruct (list_find_elem_of (fun l : EntryLink => target (content l) = t) result link
                Hin eq_refl) as [[i l] Hfind].
    rewrite Hfind. cbn. apply list_find_Some in Hfind as (Hi & Ht & _).
    apply list_elem_of_lookup_2 in Hi.
    pose proof (Hlinks l Hi) as Hl. rewrite Ht in Hl.
    pose proof (Hlinks link Hin) as Hl'. fold t in Hl'. congruence. }
  unfold linkAfter. rewrite Hfirst. f_equal.
  pose proof (Hlinks link Hin) as Hlink. fold t in Hlink. unfold linkAfter in Hlink.
  destruct (firstWith existing t) as [base|].
  - injection Hlink as Hlink. rewrite <- Hlink at 1.
    destruct (foldl_addRef_same (referencesIn (visits fileEntries) t) (resetLink base))
      as (_ & _ & _ & ->).
    exact Hlink.
  - destruct (referencesIn (visits fileEntries) t) as [|entry further] eqn:Hrefs;
      [discriminate Hlink|].
    injection Hlink as Hlink. rewrite <- Hlink at 1.
    destruct (foldl_addRef_same further (newLink entry (fileInfo (content entry)) t))
      as (_ & _ & _ & ->).
    cbn [foldl]. rewrite addRef_blank; [exact Hlink|].
    assert (He : entry ∈ referencesIn (visits fileEntries) t)
      by (rewrite Hrefs; apply list_elem_of_here).
    apply elem_of_referencesIn, elem_of_visits in He as [He Ht].
    now apply (Hnorm entry t).
Qed.

(** X29: when no note links to a name inherited from [Object.prototype]
    and the labels of every note that has a link are as [normalizeLabels]
    leaves them, a second pass over the links of a pass changes nothing:
    [recomputeLinkEntries] gives back the links it is given. *)
Theorem recomputeLinkEntries_again (fileEntries : list EntryFile)
  (existingLinkEntries result : list EntryLink) :
  noInheritedTargets fileEntries ->
  (forall entry t, entry ∈ fileEntries -> t ∈ linkTargets entry ->
                   normalizeLabels (labels entry) = labels entry) ->
  recomputeLinkEntries fileEntries existingLinkEntries = Some result ->
  recomputeLinkEntries fileEntries result = Some result.
Proof.
  intros Hno Hnorm Hrun.
  destruct (linkOfTarget_end fileEntries existingLinkEntries Hno)
    as (st1 & Hres1 & Hwf1 & Hlinks1 & Ho1).
  assert (result = deref st1) by congruence. subst result.
  destruct (linkOfTarget_end fileEntries (deref st1) Hno)
    as (st2 & Hres2 & Hwf2 & Hlinks2 & Ho2).
  rewrite Hres2. f_equal.
  assert (Hown1 : forall l, l ∈ deref st1 -> target (content l) ∉ objectPrototypeKeys).
  { intros l Hl. destruct (deref_mapped st1 l Hwf1 Hl) as (a & _ & _ & Hmap).
    apply (wf_own st1 Hwf1 _ a Hmap). }
  (* the first loop pushes the same targets *)
  assert (Hfirst : entryTargets (afterFirstLoop (deref st1))
                   = entryTargets (afterFirstLoop existingLinkEntries)).
  { rewrite afterFirstLoop_distinct; [|now apply NoDup_deref_targets|assumption].
    destruct (pushOrder_app (snd <$> visits fileEntries)
                (entryTargets (afterFirstLoop existingLinkEntries)))
      as (pushed & Hpushed & Hnew).
    rewrite Hpushed in Ho1. unfold entryTargets at 1 in Ho1.
    apply fmap_app_inv in Ho1 as (first & later & Hfirst & Hlater & Hsplit).
    rewrite Hsplit, filter_app, filter_all, filter_none, app_nil_r.
    - now symmetry.
    - intros l Hl Hsa.
      assert (Hin : l ∈ deref st1) by (rewrite Hsplit; apply elem_of_app; now right).
      apply (standalone_iff_first existingLinkEntries (visits fileEntries)) in Hsa;
        [|now apply Hlinks1|now apply Hown1].
      apply (Hnew (target (content l))); [|assumption].
      rewrite Hlater. apply list_elem_of_fmap. now exists l.
    - intros l Hl.
      assert (Hin : l ∈ deref st1) by (rewrite Hsplit; apply elem_of_app; now left).
      apply (standalone_iff_first existingLinkEntries (visits fileEntries));
        [now apply Hlinks1|now apply Hown1|].
      rewrite Hfirst. apply list_elem_of_fmap. now exists l. }
  assert (Htargets : (fun l : EntryLink => target (content l)) <$> deref st2
                     = (fun l : EntryLink => target (content l)) <$> deref st1).
  { fold (entryTargets st2). fold (entryTargets st1). now rewrite Ho2, Ho1, Hfirst. }
  rewrite <- (omap_fmap_id (fun l : EntryLink => target (content l))
                (linkAfter (deref st1) (visits fileEntries)) (deref st2)) by assumption.
  rewrite Htargets. apply omap_fmap_id.
  intros l Hl. now apply (linkAfter_again existingLinkEntries (deref st1) fileEntries).
Qed.

End SecondPass.

(** Two notes with sorted labels, a standalone link that no note refers
    to and a stored link that both notes refer to: the second pass gives the
    three links of the first. *)
Lemma recomputeLinkEntries_again_witness :
  let fileEntries :=
    [Examples.noteEntry "n1" "work" ["a"] ["https://t.example"; "https://u.example"];
     Examples.noteEntry "n2" "home" ["a"; "b"] ["https://t.example"]] in
  let existing := [Examples.storedLink "S" "https://s.example" ["x"] true;
                   Examples.storedLink "T" "https://t.example" ["z"; "y"] false] in
  exists result,
    @recomputeLinkEntries Examples.keyRepoId Examples.sortedLabels fileEntries existing
    = Some result /\
    @recomputeLinkEntries Examples.keyRepoId Examples.sortedLabels fileEntries result
    = Some result /\
    length result = 3%nat.
Proof.
  intros fileEntries existing.
  destruct (@recomputeLinkEntries Examples.keyRepoId Examples.sortedLabels fileEntries existing)
    as [result|] eqn:Hrun; [|vm_compute in Hrun; discriminate Hrun].
  exists result. split; [reflexivity|]. split.
  - apply (@recomputeLinkEntries_again Examples.keyRepoId Examples.sortedLabels
             fileEntries existing result).
    + apply noInheritedTargets_check. reflexivity.
    + intros entry t He _.
      apply elem_of_cons in He as [->|He]; [reflexivity|].
      apply list_elem_of_singleton in He as ->. reflexivity.
    + exact Hrun.
  - vm_compute in Hrun. injection Hrun as <-. reflexivity.
Defined.

End LinkFixpoint.
